(** * WeddingLayout: the seating state model of [src/App.tsx]

    A shallow embedding of the seating model of the application (guests,
    tables, the seat-key keyed assignment object, the unseated pool), of the
    layout normalizer [normalizeLayoutPayload], of the state-changing
    handlers and of the guest-list import, followed by the properties the
    specification states about them.

    Conventions of the embedding.
    - A JavaScript [number] is [NaN], an infinity, or a finite value.  The
      finite values of a [number] are carried as rationals (every finite
      double is one; the two zeros are merged); the values stored in
      [seatCount] and the loop indices, which all went through [Math.floor]
      or are integer literals, are carried as integers ([whole]).  A seat
      index is printed in decimal, as the template literal does below 1e21.
    - A value coming out of [JSON.parse] is a [json] tree.  The fields of a
      parsed object are listed in property order; they are pairwise distinct
      in a real parse, and a property read takes the first binding.
    - The assignment object [Record<string, string | null>] is an
      insertion-ordered list of bindings: writing an existing key keeps its
      place, writing a new key appends, [delete] removes.  Seat keys contain
      a colon, so they are never array-index keys and insertion order is the
      enumeration order of [Object.keys].
    - A call returns a value, throws, or does not return ([outcome]); where
      only a loop can fail to end, [None] stands for that.
    - React state is passed explicitly; a functional state update is applied
      to the state at the point where the handler queues it, and the effects
      that depend on [assignments], [guests] and [tables] run after the
      handler ([settle]).
    - [Number(s)], [s.trim()] and [s.toLowerCase()] are parameters of the
      definitions that call them; the concrete inputs use their restriction
      to ASCII text. *)

From Stdlib Require Import QArith Qround Ascii.
From stdpp Require Import base decidable option list strings pretty.

Close Scope Q_scope.


(** ** JavaScript numbers *)

(** A number is [NaN], an infinity or a finite value.  [number] carries the
    finite values as rationals; [whole] is the type of the numbers that went
    through [Math.floor] or are integer literals, which is the case of every
    value the program stores in [seatCount] and of every loop index. *)
Inductive ext (A : Type) : Type :=
  | NaN
  | PosInf
  | NegInf
  | Fin (a : A).
Arguments NaN {A}.
Arguments PosInf {A}.
Arguments NegInf {A}.
Arguments Fin {A} a.

Definition number : Type := ext Q.
Definition whole : Type := ext Z.

Definition Number_isNaN {A} (n : ext A) : bool :=
  match n with NaN => true | _ => false end.

Definition Number_isFinite {A} (n : ext A) : bool :=
  match n with Fin _ => true | _ => false end.

Definition Math_floor (n : number) : whole :=
  match n with
  | Fin q => Fin (Qfloor q)
  | NaN => NaN
  | PosInf => PosInf
  | NegInf => NegInf
  end.

Definition Math_max (a b : whole) : whole :=
  match a, b with
  | NaN, _ | _, NaN => NaN
  | PosInf, _ | _, PosInf => PosInf
  | NegInf, x | x, NegInf => x
  | Fin p, Fin q => Fin (Z.max p q)
  end.

Definition Math_min (a b : whole) : whole :=
  match a, b with
  | NaN, _ | _, NaN => NaN
  | NegInf, _ | _, NegInf => NegInf
  | PosInf, x | x, PosInf => x
  | Fin p, Fin q => Fin (Z.min p q)
  end.

(** [a < b] *)
Definition num_lt (a b : whole) : bool :=
  match a, b with
  | NaN, _ | _, NaN => false
  | _, NegInf => false
  | NegInf, _ => true
  | PosInf, _ => false
  | Fin _, PosInf => true
  | Fin p, Fin q => bool_decide (p < q)%Z
  end.

(** [a === b] *)
Definition num_eq (a b : whole) : bool :=
  match a, b with
  | PosInf, PosInf | NegInf, NegInf => true
  | Fin p, Fin q => bool_decide (p = q)
  | _, _ => false
  end.

(** The indices visited by [for (let i = lo; i < hi; i += 1)].  [None] is a
    loop that never ends: an infinite bound, or a start at [-Infinity],
    which [i += 1] does not move. *)
Definition loop_indices (lo hi : whole) : option (list Z) :=
  match lo, hi with
  | Fin a, Fin b => Some (seqZ a (b - a))
  | Fin _, PosInf => None
  | NegInf, Fin _ | NegInf, PosInf => None
  | _, _ => Some []
  end.

Global Arguments loop_indices : simpl never.

(** ** Parsed JSON values *)

Local Unset Elimination Schemes.
Inductive json : Type :=
  | JNull
  | JBool (b : bool)
  | JNum (n : number)
  | JStr (s : string)
  | JArr (items : list json)
  | JObj (fields : list (string * json)).
Local Set Elimination Schemes.

Inductive js_type := TUndefined | TObject | TBoolean | TNumber | TString.

Global Instance js_type_eq_dec : EqDecision js_type.
Proof. solve_decision. Defined.

(** [typeof v], where [None] is [undefined]. *)
Definition typeof (v : option json) : js_type :=
  match v with
  | None => TUndefined
  | Some JNull | Some (JArr _) | Some (JObj _) => TObject
  | Some (JBool _) => TBoolean
  | Some (JNum _) => TNumber
  | Some (JStr _) => TString
  end.

Fixpoint assoc {A} (k : string) (l : list (string * A)) : option A :=
  match l with
  | [] => None
  | (k', v) :: l' => if decide (k = k') then Some v else assoc k l'
  end.

(** [record.k] for a value that passed [typeof record === 'object'] and is
    not [null]; none of the names read below is a property of an array. *)
Definition prop (k : string) (v : json) : option json :=
  match v with
  | JObj fields => assoc k fields
  | _ => None
  end.

Definition Array_isArray (v : option json) : bool :=
  match v with Some (JArr _) => true | _ => false end.

(** [typeof v === 'string' ? v : ''] *)
Definition string_or_empty (v : option json) : string :=
  match v with Some (JStr s) => s | _ => "" end.

(** ** The seating model *)

Record Guest := mkGuest {
  guest_id : string;
  guest_name : string;
  guest_details : option string
}.

Record Position := mkPosition { pos_x : number; pos_y : number }.

Record Table := mkTable {
  table_id : string;
  seatCount : whole;
  position : Position
}.

(** [Record<string, string | null>]: [None] as a value is [null]. *)
Definition Assignments := list (string * option string).

Record LayoutState := mkLayoutState {
  ls_guests : list Guest;
  ls_tables : list Table;
  ls_assignments : Assignments;
  ls_pool : list string
}.

Definition seatKey (tableId : string) (seatIndex : Z) : string :=
  tableId +:+ ":" +:+ pretty seatIndex.

(** [obj[k]]: [None] is [undefined] (no such key). *)
Definition obj_get (k : string) (m : Assignments) : option (option string) :=
  assoc k m.

(** [obj[k] = v] *)
Fixpoint obj_set (k : string) (v : option string) (m : Assignments) : Assignments :=
  match m with
  | [] => [(k, v)]
  | (k', v') :: m' =>
      if decide (k = k') then (k, v) :: m' else (k', v') :: obj_set k v m'
  end.

(** [delete obj[k]] *)
Fixpoint obj_delete (k : string) (m : Assignments) : Assignments :=
  match m with
  | [] => []
  | (k', v') :: m' =>
      if decide (k = k') then obj_delete k m' else (k', v') :: obj_delete k m'
  end.

Definition obj_keys (m : Assignments) : list string := m.*1.
Definition obj_values (m : Assignments) : list (option string) := m.*2.

(** Truthiness of a read [obj[k]]: a non-empty string. *)
Definition truthy (v : option (option string)) : option string :=
  match v with
  | Some (Some g) => if decide (g = "") then None else Some g
  | _ => None
  end.

Definition has (x : string) (s : list string) : bool := bool_decide (x ∈ s).

(** What a call produces: a value, an exception, or no return at all. *)
Inductive outcome (A : Type) : Type :=
  | Returns (a : A)
  | Throws
  | Diverges.
Arguments Returns {A} a.
Arguments Throws {A}.
Arguments Diverges {A}.

(** [buildEmptyAssignments] *)
Fixpoint buildEmptyAssignments_from (tables : list Table) (map : Assignments)
  : option Assignments :=
  match tables with
  | [] => Some map
  | table :: rest =>
      match loop_indices (Fin 0%Z) (seatCount table) with
      | None => None
      | Some idxs =>
          buildEmptyAssignments_from rest
            (foldl (λ m seatIndex, obj_set (seatKey (table_id table) seatIndex) None m)
                   map idxs)
      end
  end.

Definition buildEmptyAssignments (tables : list Table) : option Assignments :=
  buildEmptyAssignments_from tables [].

(** ** The normalizer *)

(** [typeof v === 'object' && v !== null] *)
Definition is_object (v : option json) : bool :=
  match v with
  | Some (JArr _) | Some (JObj _) => true
  | _ => false
  end.

Definition array_items (v : option json) : list json :=
  match v with Some (JArr items) => items | _ => [] end.

(** The names every plain object inherits from [Object.prototype]; the [in]
    operator answers [true] for them on any object created by [{}]. *)
Definition Object_prototype_names : list string :=
  [ "constructor"; "hasOwnProperty"; "isPrototypeOf"; "propertyIsEnumerable";
    "toLocaleString"; "toString"; "valueOf"; "__proto__";
    "__defineGetter__"; "__defineSetter__"; "__lookupGetter__";
    "__lookupSetter__" ].

(** A plain object under construction: its own bindings and whether it still
    has [Object.prototype] as its prototype. *)
Record plain_object := mkPlain {
  own : Assignments;
  has_prototype : bool
}.

(** [k in o] *)
Definition key_in (k : string) (o : plain_object) : bool :=
  has k (obj_keys (own o)) || (has_prototype o && has k Object_prototype_names).

(** [o[k] = v].  Writing ["__proto__"] on an object that inherits the
    accessor and has no own binding of that name calls the setter: [null]
    detaches the prototype, a string is ignored. *)
Definition put (k : string) (v : option string) (o : plain_object) : plain_object :=
  if bool_decide (k = "__proto__") && has_prototype o
     && negb (has k (obj_keys (own o)))
  then mkPlain (own o) (match v with None => false | Some _ => true end)
  else mkPlain (obj_set k v (own o)) (has_prototype o).

(** [Object.entries(v)] for a value with [typeof v === 'object']; [None] is
    the [TypeError] raised on [null].  Other values do not get here. *)
Definition Object_entries (v : option json) : option (list (string * json)) :=
  match v with
  | Some (JObj fields) => Some fields
  | Some (JArr items) => Some (imap (λ i x, (pretty i, x)) items)
  | Some JNull => None
  | _ => Some []
  end.

(** One pass of the pool loops: push every id that passes [test] and was not
    seen yet, recording it as seen. *)
Definition pool_pass (test : string → bool) (ids : list string)
    (acc : list string * list string) : list string * list string :=
  foldl (λ '(pool, seen) guestId,
           if test guestId && negb (has guestId seen)
           then (pool ++ [guestId], seen ++ [guestId])
           else (pool, seen))
        acc ids.

(** [Object.values(m).filter(v => typeof v === 'string' && guestIds.has(v))] *)
Definition assigned_ids (guestIds : list string) (m : Assignments) : list string :=
  omap (λ v, match v with
             | Some g => if has g guestIds then Some g else None
             | None => None
             end) (obj_values m).

Section Normalizer.
(** [Number(s)] on a string, a built-in of the language. *)
Variable StringToNumber : string → number.

(** [typeof v === 'number' ? v : typeof v === 'string' ? Number(v) : d] *)
Definition number_or (d : number) (v : option json) : number :=
  match v with
  | Some (JNum n) => n
  | Some (JStr s) => StringToNumber s
  | _ => d
  end.

Definition finite_or_zero (n : number) : number :=
  if Number_isFinite n then n else Fin 0%Q.

(** The body of the [rawTables.reduce] callback: [None] leaves the
    accumulator as it is, [Some t] pushes [t]. *)
Definition clean_table (item : json) : option Table :=
  if negb (is_object (Some item)) then None else
  let id := string_or_empty (prop "id" item) in
  let seatCount := number_or NaN (prop "seatCount" item) in
  let positionRecord :=
    if is_object (prop "position" item) then prop "position" item else None in
  let rawX := positionRecord ≫= prop "x" in
  let rawY := positionRecord ≫= prop "y" in
  let x := number_or (Fin 0%Q) rawX in
  let y := number_or (Fin 0%Q) rawY in
  if bool_decide (id = "") || Number_isNaN seatCount then None else
  Some (mkTable id (Math_max (Fin 1%Z) (Math_floor seatCount))
                (mkPosition (finite_or_zero x) (finite_or_zero y))).

(** The body of the [rawGuests.reduce] callback. *)
Definition clean_guest (item : json) : option Guest :=
  if negb (is_object (Some item)) then None else
  let id := string_or_empty (prop "id" item) in
  let name := string_or_empty (prop "name" item) in
  if bool_decide (id = "") || bool_decide (name = "") then None else
  Some (mkGuest id name
          (match prop "details" item with Some (JStr d) => Some d | _ => None end)).

(** The [Object.entries(rawAssignments).forEach] callback. *)
Definition fill_entry (guestIds : list string) (o : plain_object)
    (entry : string * json) : plain_object :=
  let '(key, value) := entry in
  if negb (key_in key o) then o else
  match value with
  | JStr g => if has g guestIds then put key (Some g) o else put key None o
  | _ => put key None o
  end.

Definition strings_of (items : list json) : list string :=
  omap (λ v, match v with JStr s => Some s | _ => None end) items.

Definition normalizeLayoutPayload (payload : json) : outcome (option LayoutState) :=
  if negb (is_object (Some payload))
     || negb (Array_isArray (prop "tables" payload))
     || negb (Array_isArray (prop "guests" payload))
     || negb (bool_decide (typeof (prop "assignments" payload) = TObject))
  then Returns None else
  let rawTables := array_items (prop "tables" payload) in
  let rawGuests := array_items (prop "guests" payload) in
  let rawAssignments := prop "assignments" payload in
  let rawUnassigned := prop "unassigned" payload in
  let cleanedTables := omap clean_table rawTables in
  let cleanedGuests := omap clean_guest rawGuests in
  if bool_decide (cleanedGuests = []) then Returns None else
  let guestIds := guest_id <$> cleanedGuests in
  match buildEmptyAssignments cleanedTables with
  | None => Diverges
  | Some empty =>
      match Object_entries rawAssignments with
      | None => Throws
      | Some entries =>
          let normalizedAssignments :=
            own (foldl (fill_entry guestIds) (mkPlain empty true) entries) in
          let assignedSet := assigned_ids guestIds normalizedAssignments in
          let poolSnapshot :=
            if Array_isArray rawUnassigned
            then strings_of (array_items rawUnassigned) else [] in
          let acc1 :=
            pool_pass (λ g, negb (has g assignedSet) && has g guestIds)
                      poolSnapshot ([], []) in
          let acc2 :=
            pool_pass (λ g, negb (has g assignedSet)) guestIds acc1 in
          Returns (Some (mkLayoutState cleanedGuests cleanedTables
                                       normalizedAssignments acc2.1))
      end
  end.
End Normalizer.

(** ** The application state and its handlers *)

Record AppState := mkApp {
  guests : list Guest;
  tables : list Table;
  assignments : Assignments;
  pool : list string;
  selectedSeatKeys : list string;
  (** the table id of the open context menu *)
  menuState : option string
}.

Definition guest_ids (st : AppState) : list string := guest_id <$> guests st.

Definition setAssignments (m : Assignments) (st : AppState) : AppState :=
  mkApp (guests st) (tables st) m (pool st) (selectedSeatKeys st) (menuState st).
Definition setTables (ts : list Table) (st : AppState) : AppState :=
  mkApp (guests st) ts (assignments st) (pool st) (selectedSeatKeys st) (menuState st).
Definition setPool (p : list string) (st : AppState) : AppState :=
  mkApp (guests st) (tables st) (assignments st) p (selectedSeatKeys st) (menuState st).
Definition setSelectedSeatKeys (sel : list string) (st : AppState) : AppState :=
  mkApp (guests st) (tables st) (assignments st) (pool st) sel (menuState st).
Definition closeMenu (st : AppState) : AppState :=
  mkApp (guests st) (tables st) (assignments st) (pool st) (selectedSeatKeys st) None.

(** [Array.from(new Set(xs))]: the first occurrence of every element. *)
Fixpoint uniq_from (seen xs : list string) : list string :=
  match xs with
  | [] => []
  | x :: xs' =>
      if has x seen then uniq_from seen xs' else x :: uniq_from (x :: seen) xs'
  end.
Definition uniq (xs : list string) : list string := uniq_from [] xs.

Definition returnGuestsToPool (guestIds : list string) (st : AppState) : AppState :=
  let uniqueIds := uniq guestIds in
  if bool_decide (uniqueIds = []) then st else
  let previousPool := pool st in
  let filtered := filter (λ guestId, guestId ∉ uniqueIds) previousPool in
  let additions := filter (λ guestId, guestId ∈ guest_ids st) uniqueIds in
  let merged := additions ++ filtered in
  setPool (if bool_decide (merged = previousPool) then previousPool else merged) st.

(** The effect on [assignments, guests] that recomputes the pool. *)
Definition reconcilePool (st : AppState) : AppState :=
  let guestIds := guest_ids st in
  let assignedIds := assigned_ids guestIds (assignments st) in
  let previousPool := pool st in
  let acc1 :=
    pool_pass (λ g, negb (has g assignedIds) && has g guestIds)
              previousPool ([], []) in
  let acc2 := pool_pass (λ g, negb (has g assignedIds)) guestIds acc1 in
  let next := acc2.1 in
  setPool (if bool_decide (next = previousPool) then previousPool else next) st.

(** The effect on [assignments] that runs [clearSelectionIfMissing]. *)
Definition clearSelectionIfMissing (st : AppState) : AppState :=
  setSelectedSeatKeys
    (filter (λ key, is_Some (truthy (obj_get key (assignments st))))
            (selectedSeatKeys st)) st.

(** The effect on [menuState, tables]. *)
Definition closeStaleMenu (st : AppState) : AppState :=
  match menuState st with
  | Some tableId =>
      if bool_decide (tableId ∈ table_id <$> tables st) then st else closeMenu st
  | None => st
  end.

(** The effects that follow a handler. *)
Definition settle (st : AppState) : AppState :=
  clearSelectionIfMissing (reconcilePool (closeStaleMenu st)).

Definition assignGuestToSeat (guestId tableId : string) (seatIndex : Z)
    (fromSeatKey : option string) (st : AppState) : AppState :=
  let key := seatKey tableId seatIndex in
  if negb (has guestId (guest_ids st)) then st else
  let previousAssignments := assignments st in
  let displacedGuest := truthy (obj_get key previousAssignments) in
  let written := obj_set key (Some guestId) previousAssignments in
  let nextAssignments :=
    match fromSeatKey with
    | Some from => if decide (from = "") then written else obj_set from None written
    | None => written
    end in
  let st1 :=
    match displacedGuest with
    | Some d => if decide (d = guestId) then st else returnGuestsToPool [d] st
    | None => st
    end in
  setSelectedSeatKeys [key] (setAssignments nextAssignments st1).

(** The loop of [releaseSelectedSeats] over the selected keys. *)
Definition release_seat (acc : Assignments * list string) (seat : string)
  : Assignments * list string :=
  let '(next, returningGuests) := acc in
  match truthy (obj_get seat next) with
  | Some guestId => (obj_set seat None next, returningGuests ++ [guestId])
  | None => (next, returningGuests)
  end.

Definition releaseSelectedSeats (st : AppState) : AppState :=
  if bool_decide (selectedSeatKeys st = []) then st else
  let '(next, returningGuests) :=
    foldl release_seat (assignments st, []) (selectedSeatKeys st) in
  setSelectedSeatKeys []
    (returnGuestsToPool returningGuests (setAssignments next st)).

Definition handlePoolDrop (fromSeat : string) (st : AppState) : AppState :=
  if decide (fromSeat = "") then st else
  match truthy (obj_get fromSeat (assignments st)) with
  | None => setSelectedSeatKeys [] st
  | Some guestId =>
      setSelectedSeatKeys []
        (returnGuestsToPool [guestId]
           (setAssignments (obj_set fromSeat None (assignments st)) st))
  end.

(** [handleAddTable]; [now] is the value of [Date.now()]. *)
Definition handleAddTable (now : Z) (st : AppState) : AppState :=
  let n := Z.of_nat (length (tables st)) in
  let nextTable :=
    mkTable ("table-" +:+ pretty now) (Fin 8%Z)
            (mkPosition (Fin (inject_Z (80 + n * 60))) (Fin (inject_Z (80 + n * 40)))) in
  setAssignments
    (foldl (λ next i, obj_set (seatKey (table_id nextTable) i) None next)
           (assignments st) (seqZ 0 8))
    (setTables (tables st ++ [nextTable]) st).

(** [Math.max(1, Math.min(24, Math.floor(newSeatCount)))] *)
Definition sanitize (newSeatCount : number) : whole :=
  Math_max (Fin 1%Z) (Math_min (Fin 24%Z) (Math_floor newSeatCount)).

(** The shrinking loop of [updateSeatCount]. *)
Definition drop_seat (tableId : string) (acc : Assignments * list string)
    (seatIdx : Z) : Assignments * list string :=
  let '(nextAssignments, returningGuests) := acc in
  let key := seatKey tableId seatIdx in
  (obj_delete key nextAssignments,
   match truthy (obj_get key nextAssignments) with
   | Some guestId => returningGuests ++ [guestId]
   | None => returningGuests
   end).

(** [updateSeatCount]; [None] when one of its loops never ends. *)
Definition updateSeatCount (tableId : string) (newSeatCount : number)
    (st : AppState) : option AppState :=
  let sanitized := sanitize newSeatCount in
  match find (λ entry, bool_decide (table_id entry = tableId)) (tables st) with
  | None => Some st
  | Some table =>
      if num_eq sanitized (seatCount table) then Some st else
      let nextTables :=
        (λ entry, if decide (table_id entry = tableId)
                  then mkTable (table_id entry) sanitized (position entry)
                  else entry) <$> tables st in
      if num_lt sanitized (seatCount table) then
        idxs ← loop_indices sanitized (seatCount table);
        let '(nextAssignments, returningGuests) :=
          foldl (drop_seat (table_id table)) (assignments st, []) idxs in
        Some (returnGuestsToPool returningGuests
                (setAssignments nextAssignments (setTables nextTables st)))
      else
        idxs ← loop_indices (seatCount table) sanitized;
        let nextAssignments :=
          foldl (λ next seatIdx, obj_set (seatKey (table_id table) seatIdx) None next)
                (assignments st) idxs in
        Some (returnGuestsToPool []
                (setAssignments nextAssignments (setTables nextTables st)))
  end.

(** The [Object.keys(nextAssignments).forEach] loop of [handleRemoveTable]. *)
Definition remove_key (tableId : string) (acc : Assignments * list string)
    (key : string) : Assignments * list string :=
  let '(nextAssignments, returningGuests) := acc in
  if String.prefix (tableId +:+ ":") key then
    (obj_delete key nextAssignments,
     match truthy (obj_get key nextAssignments) with
     | Some guestId => returningGuests ++ [guestId]
     | None => returningGuests
     end)
  else acc.

Definition handleRemoveTable (tableId : string) (st : AppState) : AppState :=
  let '(nextAssignments, returningGuests) :=
    foldl (remove_key tableId) (assignments st, []) (obj_keys (assignments st)) in
  let st1 := returnGuestsToPool returningGuests (setAssignments nextAssignments st) in
  let st2 := setTables (filter (λ table, table_id table ≠ tableId) (tables st1)) st1 in
  closeMenu
    (setSelectedSeatKeys
       (filter (λ key, ¬ String.prefix (tableId +:+ ":") key) (selectedSeatKeys st2))
       st2).

(** [applyLayoutState] *)
Definition applyLayoutState (state : LayoutState) (st : AppState) : AppState :=
  mkApp (ls_guests state) (ls_tables state) (ls_assignments state)
        (ls_pool state) [] None.

(** ** Guest-list import *)

(** [[a-z0-9]] *)
Definition is_alnum (c : ascii) : bool :=
  let n := nat_of_ascii c in
  (bool_decide (97 ≤ n) && bool_decide (n ≤ 122))
  || (bool_decide (48 ≤ n) && bool_decide (n ≤ 57)).

(** [.replace(/[^a-z0-9]+/g, '-')]; [in_run] tells that the previous
    character was already part of the run being replaced. *)
Fixpoint collapse_runs (in_run : bool) (s : string) : string :=
  match s with
  | EmptyString => EmptyString
  | String c s' =>
      if is_alnum c then String c (collapse_runs false s')
      else if in_run then collapse_runs true s'
      else String "-" (collapse_runs true s')
  end.

Fixpoint strip_leading_hyphens (s : string) : string :=
  match s with
  | String "-" s' => strip_leading_hyphens s'
  | _ => s
  end.

Fixpoint strip_trailing_hyphens (s : string) : string :=
  match s with
  | EmptyString => EmptyString
  | String c s' =>
      match c, strip_trailing_hyphens s' with
      | "-"%char, EmptyString => EmptyString
      | _, rest => String c rest
      end
  end.

(** [.replace(/^-+|-+$/g, '')] *)
Definition strip_hyphens (s : string) : string :=
  strip_trailing_hyphens (strip_leading_hyphens s).

(** [while (seenIds.has(`${baseId}-${suffix}`)) suffix += 1], run for at
    most [fuel] tests. *)
Fixpoint free_suffix (fuel : nat) (seenIds : list string) (baseId : string)
    (suffix : Z) : option Z :=
  match fuel with
  | O => None
  | S fuel' =>
      if has (baseId +:+ "-" +:+ pretty suffix) seenIds
      then free_suffix fuel' seenIds baseId (suffix + 1)
      else Some suffix
  end.

Section GuestImport.
(** [String.prototype.trim] and [String.prototype.toLowerCase]. *)
Variable trim : string → string.
Variable toLowerCase : string → string.

Definition fallback_id (rawName : string) : string :=
  strip_hyphens (collapse_runs false (toLowerCase rawName)).

(** What one record contributes before collision handling: its base id,
    its name and its details, or nothing. *)
Definition import_candidate (item : json) : option (string * string * option string) :=
  if negb (is_object (Some item)) then None else
  let rawName :=
    match prop "name" item with Some (JStr n) => trim n | _ => "" end in
  if bool_decide (rawName = "") then None else
  let providedId :=
    match prop "id" item with Some (JStr i) => trim i | _ => "" end in
  let fallbackId := fallback_id rawName in
  let baseId := if bool_decide (providedId = "") then fallbackId else providedId in
  if bool_decide (baseId = "") then None else
  Some (baseId, rawName,
        match prop "details" item with Some (JStr d) => Some d | _ => None end).

(** The body of the [forEach] over the raw records, on the pair
    [(seenIds, cleaned)].  [None] when the suffix search runs out of fuel. *)
Definition import_item (acc : option (list string * list Guest)) (item : json)
  : option (list string * list Guest) :=
  '(seenIds, cleaned) ← acc;
  match import_candidate item with
  | None => Some (seenIds, cleaned)
  | Some (baseId, rawName, details) =>
      candidateId ←
        (if has baseId seenIds
         then (λ suffix, baseId +:+ "-" +:+ pretty suffix)
                <$> free_suffix (S (length seenIds)) seenIds baseId 2
         else Some baseId);
      Some (seenIds ++ [candidateId],
            cleaned ++ [mkGuest candidateId rawName details])
  end.

Definition import_guests (raw : list json) : option (list Guest) :=
  snd <$> foldl import_item (Some ([], [])) raw.

(** The table loop of the import that rebuilds the assignment object. *)
Fixpoint rebuild_assignments (guestIds : list string) (old : Assignments)
    (ts : list Table) (next : Assignments) : option Assignments :=
  match ts with
  | [] => Some next
  | table :: rest =>
      idxs ← loop_indices (Fin 0%Z) (seatCount table);
      rebuild_assignments guestIds old rest
        (foldl (λ m seatIdx,
                  let key := seatKey (table_id table) seatIdx in
                  obj_set key
                    (match truthy (obj_get key old) with
                     | Some candidate =>
                         if has candidate guestIds then Some candidate else None
                     | None => None
                     end) m)
               next idxs)
  end.

(** [reader.onload] of [handleGuestFileImport] on the parsed file.  Both
    [throw]s are caught by the handler itself, which leaves the state as
    it is. *)
Definition handleGuestFileImport (raw : json) (st : AppState) : outcome AppState :=
  match raw with
  | JArr items =>
      match import_guests items with
      | None => Diverges
      | Some [] => Returns st
      | Some cleaned =>
          let guestIds := guest_id <$> cleaned in
          match rebuild_assignments guestIds (assignments st) (tables st) [] with
          | None => Diverges
          | Some nextAssignments =>
              let assignedSet := omap id (obj_values nextAssignments) in
              let nextPool := filter (λ i, i ∉ assignedSet) guestIds in
              Returns (mkApp cleaned (tables st) nextAssignments nextPool []
                             (menuState st))
          end
      end
  | _ => Returns st
  end.
End GuestImport.

(** ** Export *)

(** The value [JSON.parse] reads back from what [JSON.stringify] writes:
    a number that is not finite is written as [null], a missing [details]
    is left out. *)
Definition json_of_number (n : number) : json :=
  if Number_isFinite n then JNum n else JNull.

Definition json_of_whole (n : whole) : json :=
  match n with Fin z => JNum (Fin (inject_Z z)) | _ => JNull end.

Definition json_of_guest (g : Guest) : json :=
  JObj ([("id", JStr (guest_id g)); ("name", JStr (guest_name g))]
        ++ match guest_details g with
           | Some d => [("details", JStr d)]
           | None => []
           end).

Definition json_of_table (t : Table) : json :=
  JObj [("id", JStr (table_id t));
        ("seatCount", json_of_whole (seatCount t));
        ("position", JObj [("x", json_of_number (pos_x (position t)));
                           ("y", json_of_number (pos_y (position t)))])].

(** The entry written for a binding of the assignment object. *)
Definition json_of_binding (kv : string * option string) : string * json :=
  (kv.1, match kv.2 with Some g => JStr g | None => JNull end).

Definition json_of_assignments (m : Assignments) : json :=
  JObj (json_of_binding <$> m).

(** The snapshot of [handleLayoutExport], as the import reads it back. *)
Definition exportSnapshot (st : AppState) : json :=
  JObj [("version", JNum (Fin 1%Q));
        ("guests", JArr (json_of_guest <$> guests st));
        ("tables", JArr (json_of_table <$> tables st));
        ("assignments", json_of_assignments (assignments st));
        ("unassigned", JArr (JStr <$> pool st))].

(** ** The built-in layout *)

Definition DEFAULT_GUESTS : list Guest :=
  [ mkGuest "guest-1" "Alice" None; mkGuest "guest-2" "Bob" None;
    mkGuest "guest-3" "Charlie" None; mkGuest "guest-4" "Diana" None;
    mkGuest "guest-5" "Elliot" None; mkGuest "guest-6" "Fiona" None;
    mkGuest "guest-7" "George" None; mkGuest "guest-8" "Hannah" None;
    mkGuest "guest-9" "Isaac" None; mkGuest "guest-10" "Jasmine" None;
    mkGuest "guest-11" "Karl" None; mkGuest "guest-12" "Luna" None ].

Definition DEFAULT_TABLES : list Table :=
  [ mkTable "table-1" (Fin 8%Z) (mkPosition (Fin 120%Q) (Fin 100%Q));
    mkTable "table-2" (Fin 8%Z) (mkPosition (Fin 420%Q) (Fin 300%Q)) ].

(** The state [App] starts from: the saved layout when there is a valid
    one, the built-in layout otherwise.  [None] when building the empty
    assignment object does not end. *)
Definition initialState (saved : option LayoutState) : option AppState :=
  match saved with
  | Some state =>
      Some (mkApp (ls_guests state) (ls_tables state) (ls_assignments state)
                  (ls_pool state) [] None)
  | None =>
      m ← buildEmptyAssignments DEFAULT_TABLES;
      Some (mkApp DEFAULT_GUESTS DEFAULT_TABLES m (guest_id <$> DEFAULT_GUESTS) [] None)
  end.

Definition default_state : AppState :=
  mkApp DEFAULT_GUESTS DEFAULT_TABLES
        (default [] (buildEmptyAssignments DEFAULT_TABLES))
        (guest_id <$> DEFAULT_GUESTS) [] None.

(** ** Sequences of operations *)

(** The operations of the model.  [ReleaseSeats keys] is
    [releaseSelectedSeats] run with [keys] as the selection. *)
Inductive operation : Type :=
  | AssignGuest (guestId tableId : string) (seatIndex : Z)
                (fromSeatKey : option string)
  | ReleaseSeats (seatKeys : list string)
  | ResizeTable (tableId : string) (newSeatCount : number)
  | RemoveTable (tableId : string).

(** The handlers without the effects. *)
Definition handler (op : operation) (st : AppState) : option AppState :=
  match op with
  | AssignGuest g t i from => Some (assignGuestToSeat g t i from st)
  | ReleaseSeats keys => Some (releaseSelectedSeats (setSelectedSeatKeys keys st))
  | ResizeTable t n => updateSeatCount t n st
  | RemoveTable t => Some (handleRemoveTable t st)
  end.

(** An operation followed by the effects; [None] when it does not return. *)
Definition step (op : operation) (st : AppState) : option AppState :=
  settle <$> handler op st.

Fixpoint run (ops : list operation) (st : AppState) : option AppState :=
  match ops with
  | [] => Some st
  | op :: ops' => st1 ← step op st; run ops' st1
  end.

(** ** Selecting seats *)

(** The modifier keys of the mouse event of a click. *)
Record MouseEvent := mkMouseEvent {
  metaKey : bool;
  ctrlKey : bool;
  shiftKey : bool
}.

Definition handleSeatClick (tableId : string) (seatIndex : Z)
    (event : MouseEvent) (st : AppState) : AppState :=
  let key := seatKey tableId seatIndex in
  match truthy (obj_get key (assignments st)) with
  | None => setSelectedSeatKeys [] st
  | Some occupant =>
      let previous := selectedSeatKeys st in
      let alreadySelected := has key previous in
      setSelectedSeatKeys
        (if metaKey event || ctrlKey event then
           if alreadySelected then filter (λ seat, seat ≠ key) previous
           else previous ++ [key]
         else if shiftKey event then
           if alreadySelected then previous else previous ++ [key]
         else [key])
        st
  end.

(** The [keydown] listener; [key] is [event.key]. *)
Definition handleKeydown (key : string) (st : AppState) : AppState :=
  let st1 :=
    if bool_decide (key = "Delete" ∨ key = "Backspace")
    then releaseSelectedSeats st else st in
  if bool_decide (key = "Escape")
  then closeMenu (setSelectedSeatKeys [] st1) else st1.

(** ** The context menu of a table *)

Definition openTableMenu (tableId : string) (st : AppState) : AppState :=
  mkApp (guests st) (tables st) (assignments st) (pool st)
        (selectedSeatKeys st) (Some tableId).

(** The memo [activeTable]: the table the menu is shown for. *)
Definition activeTable (st : AppState) : option Table :=
  tableId ← menuState st;
  find (λ table, bool_decide (table_id table = tableId)) (tables st).

Definition SEAT_OPTIONS : list Z := [2; 4; 6; 8; 10; 12; 14; 16; 18; 20; 22; 24]%Z.

(** [Number(event.target.value) || 1], on the number the conversion gives:
    [NaN] and zero are falsy. *)
Definition or_one (n : number) : number :=
  match n with
  | NaN => Fin 1%Q
  | Fin q => if Qeq_bool q 0 then Fin 1%Q else n
  | _ => n
  end.

(** [Math.max] and [Math.min] on numbers that need not be whole. *)
Definition Math_maxQ (a b : number) : number :=
  match a, b with
  | NaN, _ | _, NaN => NaN
  | PosInf, _ | _, PosInf => PosInf
  | NegInf, x | x, NegInf => x
  | Fin p, Fin q => Fin (if Qle_bool p q then q else p)
  end.

Definition Math_minQ (a b : number) : number :=
  match a, b with
  | NaN, _ | _, NaN => NaN
  | NegInf, _ | _, NegInf => NegInf
  | PosInf, x | x, PosInf => x
  | Fin p, Fin q => Fin (if Qle_bool p q then p else q)
  end.

(** The memo [menuPosition] for an open menu at [(x, y)], in a window whose
    [innerWidth] and [innerHeight] are the given integers (both are of type
    [long], so the two subtractions are exact). *)
Definition menuPosition (x y : number) (innerWidth innerHeight : Z)
  : number * number :=
  let maxX := Math_maxQ (Fin 16%Q) (Fin (inject_Z (innerWidth - 240 - 16))) in
  let maxY := Math_maxQ (Fin 16%Q) (Fin (inject_Z (innerHeight - 240 - 16))) in
  (Math_minQ (Math_maxQ (Fin 16%Q) x) maxX,
   Math_minQ (Math_maxQ (Fin 16%Q) y) maxY).

(** ** Drag and drop of guests *)

(** The two formats the handlers store in [event.dataTransfer]; [getData]
    gives the empty string for a format that was not set. *)
Record DataTransfer := mkDataTransfer {
  data_guestId : string;
  data_fromSeat : string
}.

Definition no_data : DataTransfer := mkDataTransfer "" "".

Definition handleGuestDragStart (guestId : string) (dataTransfer : DataTransfer)
  : DataTransfer :=
  mkDataTransfer guestId (data_fromSeat dataTransfer).

Definition handleSeatGuestDragStart (guestId seatKeyValue : string)
    (dataTransfer : DataTransfer) : DataTransfer :=
  mkDataTransfer guestId seatKeyValue.

(** [fromSeat || undefined] *)
Definition or_undefined (s : string) : option string :=
  if decide (s = "") then None else Some s.

Definition handleSeatDrop (tableId : string) (seatIndex : Z)
    (dataTransfer : DataTransfer) (st : AppState) : AppState :=
  let guestId := data_guestId dataTransfer in
  let fromSeat := data_fromSeat dataTransfer in
  if decide (guestId = "") then st else
  assignGuestToSeat guestId tableId seatIndex (or_undefined fromSeat) st.

(** The loop of [getFirstAvailableSeatIndex], run for at most [fuel] tests
    of its condition. *)
Fixpoint first_available (fuel : nat) (m : Assignments) (tableId : string)
    (count : whole) (seatIndex : Z) : option Z :=
  match fuel with
  | O => None
  | S fuel' =>
      if num_lt (Fin seatIndex) count then
        match truthy (obj_get (seatKey tableId seatIndex) m) with
        | None => Some seatIndex
        | Some _ => first_available fuel' m tableId count (seatIndex + 1)
        end
      else Some (-1)%Z
  end.

(** [getFirstAvailableSeatIndex]; the object has finitely many keys, so the
    loop finds a free seat or reaches the seat count within one test more
    than there are keys. *)
Definition getFirstAvailableSeatIndex (table : Table) (st : AppState) : option Z :=
  first_available (S (length (assignments st))) (assignments st)
                  (table_id table) (seatCount table) 0.

(** [handleTableDrop]; [None] when the search for a seat does not return. *)
Definition handleTableDrop (tableId : string) (dataTransfer : DataTransfer)
    (st : AppState) : option AppState :=
  let guestId := data_guestId dataTransfer in
  let fromSeat := data_fromSeat dataTransfer in
  if decide (guestId = "") then Some st else
  match find (λ entry, bool_decide (table_id entry = tableId)) (tables st) with
  | None => Some st
  | Some table =>
      seatIndex ← getFirstAvailableSeatIndex table st;
      if decide (seatIndex = (-1)%Z) then Some st else
      Some (assignGuestToSeat guestId tableId seatIndex (or_undefined fromSeat) st)
  end.

(** The drag that the seat [renderSeats] draws for [seatIndex] of [table]
    can start: its inner element is draggable when the seat shows a guest,
    and [onDragStart] stores the occupant and the key of the seat. *)
Definition seat_drag (table : Table) (seatIndex : Z) (st : AppState)
  : option DataTransfer :=
  let key := seatKey (table_id table) seatIndex in
  match truthy (obj_get key (assignments st)) with
  | Some guestId =>
      if has guestId (guest_ids st)
      then Some (handleSeatGuestDragStart guestId key no_data)
      else None
  | None => None
  end.

(** The drag that the card of [guestId] in the pool can start: a card is
    drawn for the ids of the pool that [guestMap] knows. *)
Definition pool_drag (guestId : string) (st : AppState) : option DataTransfer :=
  if has guestId (pool st) && has guestId (guest_ids st)
  then Some (handleGuestDragStart guestId no_data)
  else None.

(** ** Dragging a table *)

(** The value of [draggingTableRef.current]. *)
Record Dragging := mkDragging {
  drag_tableId : string;
  originX : number;
  originY : number;
  pointerX : number;
  pointerY : number
}.

Section TableDrag.
(** [a + b] and [a - b] on numbers. *)
Variable num_add : number → number → number.
Variable num_sub : number → number → number.

Definition handleGlobalMouseMove (clientX clientY : number)
    (ref : option Dragging) (st : AppState) : AppState :=
  match ref with
  | None => st
  | Some dragging =>
      let deltaX := num_sub clientX (pointerX dragging) in
      let deltaY := num_sub clientY (pointerY dragging) in
      setTables
        ((λ table,
            if decide (table_id table = drag_tableId dragging)
            then mkTable (table_id table) (seatCount table)
                         (mkPosition (num_add (originX dragging) deltaX)
                                     (num_add (originY dragging) deltaY))
            else table) <$> tables st)
        st
  end.
End TableDrag.

Definition handleGlobalMouseUp (ref : option Dragging) : option Dragging := None.

(** [startTableDrag], on the pair of the ref and the state; [button] is
    [event.button]. *)
Definition startTableDrag (tableId : string) (button : Z)
    (clientX clientY : number) (ref : option Dragging) (st : AppState)
  : option Dragging * AppState :=
  if decide (button ≠ 0%Z) then (ref, st) else
  match find (λ entry, bool_decide (table_id entry = tableId)) (tables st) with
  | None => (ref, st)
  | Some table =>
      (Some (mkDragging tableId (pos_x (position table)) (pos_y (position table))
                        clientX clientY),
       closeMenu st)
  end.

(** [handleTableMouseDown]; [blocked] tells that the target of the event
    carries [data-drag="blocked"]. *)
Definition handleTableMouseDown (tableId : string) (blocked : bool)
    (button : Z) (clientX clientY : number) (ref : option Dragging)
    (st : AppState) : option Dragging * AppState :=
  if blocked then (ref, st) else startTableDrag tableId button clientX clientY ref st.

(** ** Loading and importing a layout *)

Section Loading.
Variable StringToNumber : string → number.
(** [JSON.parse]; [None] when it throws. *)
Variable JSON_parse : string → option json.

(** [loadInitialState]; [stored] is what [localStorage.getItem] gives,
    [None] for [null]. *)
Definition loadInitialState (has_window : bool) (stored : option string)
  : outcome (option LayoutState) :=
  if negb has_window then Returns None else
  match stored with
  | None => Returns None
  | Some text =>
      if decide (text = "") then Returns None else
      match JSON_parse text with
      | None => Returns None
      | Some parsed =>
          match normalizeLayoutPayload StringToNumber parsed with
          | Returns state => Returns state
          | Throws => Returns None
          | Diverges => Diverges
          end
      end
  end.

(** The state of the first render of [App]. *)
Definition App_initial (has_window : bool) (stored : option string)
  : outcome AppState :=
  match loadInitialState has_window stored with
  | Returns saved =>
      match initialState saved with
      | Some st => Returns st
      | None => Diverges
      end
  | Throws => Throws
  | Diverges => Diverges
  end.

(** [reader.onload] of [handleLayoutImport] on the text of the file.  What
    is thrown inside its [try] is caught and reported with [alert]. *)
Definition handleLayoutImport (text : string) (st : AppState) : outcome AppState :=
  match JSON_parse text with
  | None => Returns st
  | Some raw =>
      match normalizeLayoutPayload StringToNumber raw with
      | Returns (Some normalized) => Returns (applyLayoutState normalized st)
      | Returns None => Returns st
      | Throws => Returns st
      | Diverges => Diverges
      end
  end.
End Loading.

(** * Specification-side definitions and concrete inputs *)

(** ** Predicates on states *)

(** A guest id is seated when it is the value of some binding. *)
Definition seated (m : Assignments) (g : string) : Prop := Some g ∈ obj_values m.

Global Instance seated_dec m g : Decision (seated m g).
Proof. unfold seated. apply _. Defined.

(** The non-empty values of the assignment object, one per seat. *)
Definition seated_ids (st : AppState) : list string :=
  omap id (obj_values (assignments st)).

(** [k] is the key of a seat of one of the tables. *)
Definition is_seat_key (ts : list Table) (k : string) : Prop :=
  ∃ t n i, t ∈ ts ∧ seatCount t = Fin n ∧ (0 ≤ i < n)%Z
           ∧ k = seatKey (table_id t) i.

Definition all_empty (m : Assignments) : Prop := ∀ kv, kv ∈ m → kv.2 = None.

Definition one_seat_each (m : Assignments) : Prop :=
  ∀ k k' g, (k, Some g) ∈ m → (k', Some g) ∈ m → k = k'.

Definition shrinks (m m' : Assignments) : Prop :=
  ∀ k g, (k, Some g) ∈ m' → (k, Some g) ∈ m.

(** The assignment object is a well-formed object that names known guests
    only, and no loop over a seat count is endless. *)
Record well_formed (st : AppState) : Prop := {
  wf_keys : NoDup (obj_keys (assignments st));
  wf_known : ∀ k g, (k, Some g) ∈ assignments st → g ∈ guest_ids st;
  wf_counts : ∀ t, t ∈ tables st → seatCount t ≠ PosInf ∧ seatCount t ≠ NegInf
}.

(** The part of it that concerns the pool. *)
Definition pool_consistent (st : AppState) : Prop :=
  NoDup (pool st)
  ∧ ∀ g, g ∈ pool st ↔ g ∈ guest_ids st ∧ ¬ seated (assignments st) g.

(** The core invariant as the specification states it: pool and seated ids
    together are the guest ids, and no id occurs twice in the pool, on two
    seats, or both in the pool and on a seat. *)
Definition spec_core_invariant (st : AppState) : Prop :=
  (∀ g, g ∈ pool st ++ seated_ids st ↔ g ∈ guest_ids st)
  ∧ NoDup (pool st ++ seated_ids st).

(** The invariants of the data model (section 3 of the specification). *)
Record model_inv (st : AppState) : Prop := {
  inv_guest_ids : NoDup (guest_ids st);
  inv_guests : ∀ g, g ∈ guests st → guest_id g ≠ "" ∧ guest_name g ≠ "";
  inv_table_ids : NoDup (table_id <$> tables st);
  inv_seat_counts : ∀ t, t ∈ tables st → ∃ n, seatCount t = Fin n ∧ (1 ≤ n)%Z;
  inv_keys_NoDup : NoDup (obj_keys (assignments st));
  inv_keys : ∀ k, k ∈ obj_keys (assignments st) ↔ is_seat_key (tables st) k;
  inv_core : spec_core_invariant st;
  inv_selection :
    ∀ k, k ∈ selectedSeatKeys st → is_Some (truthy (obj_get k (assignments st)))
}.

(** What the normalizer asks of a table beyond the data model: a non-empty
    id and finite coordinates. *)
Definition exportable (t : Table) : Prop :=
  table_id t ≠ ""
  ∧ Number_isFinite (pos_x (position t)) = true
  ∧ Number_isFinite (pos_y (position t)) = true.

(** What the loop over the raw entries keeps true of the object. *)
Record fill_inv (K guestIds : list string) (o : plain_object) : Prop := {
  fill_keys_old : ∀ k, k ∈ K → k ∈ obj_keys (own o);
  fill_keys_new : ∀ k, k ∈ obj_keys (own o) → k ∈ K ∨ k ∈ Object_prototype_names;
  fill_known : ∀ k g, (k, Some g) ∈ own o → g ∈ guestIds;
  fill_NoDup : NoDup (obj_keys (own o))
}.

(** ** What the specification says of the operations *)

(** The pool the specification describes, from the guest ids, the
    assignment object and the previous pool: the ids of the previous pool
    that are still known and not seated, first occurrences in their order,
    then the other known ids that are not seated, in guest-list order. *)
Definition spec_kept_pool (guestIds : list string) (m : Assignments)
    (previousPool : list string) : list string :=
  uniq (filter (λ g, g ∈ guestIds ∧ ¬ seated m g) previousPool).

Definition spec_reconciled_pool (guestIds : list string) (m : Assignments)
    (previousPool : list string) : list string :=
  spec_kept_pool guestIds m previousPool
  ++ uniq (filter (λ g, ¬ seated m g ∧ g ∉ spec_kept_pool guestIds m previousPool)
                  guestIds).

(** How often [g] occurs across the pool and the non-empty values. *)
Definition occurrences (g : string) (st : LayoutState) : nat :=
  length (filter (λ x, x = g)
                 (ls_pool st ++ omap id (obj_values (ls_assignments st)))).

(** The result the specification promises: every non-empty entry is on the
    key of a seat of a cleaned table and names a cleaned guest, and every
    cleaned guest id occurs exactly once across pool and seats. *)
Definition spec_normalized (st : LayoutState) : Prop :=
  (∀ k g, (k, Some g) ∈ ls_assignments st →
          is_seat_key (ls_tables st) k ∧ g ∈ guest_id <$> ls_guests st)
  ∧ (∀ g, g ∈ guest_id <$> ls_guests st → occurrences g st = 1).

(** What the result does satisfy: every non-empty entry names a cleaned
    guest; its key is the key of a seat of a cleaned table unless it is a
    name inherited from [Object.prototype]; every seat has one entry; the
    pool has no duplicate and holds exactly the cleaned ids that no entry
    names. *)
Definition normalized_consistent (st : LayoutState) : Prop :=
  let G := guest_id <$> ls_guests st in
  (∀ k g, (k, Some g) ∈ ls_assignments st →
          g ∈ G ∧ (k ∉ Object_prototype_names → is_seat_key (ls_tables st) k))
  ∧ (∀ k, is_seat_key (ls_tables st) k → k ∈ obj_keys (ls_assignments st))
  ∧ NoDup (obj_keys (ls_assignments st))
  ∧ NoDup (ls_pool st)
  ∧ (∀ g, g ∈ ls_pool st ↔ g ∈ G ∧ ¬ seated (ls_assignments st) g).

(** What the specification says of a move from seat [A] to seat [B]. *)
Definition spec_moved (st st' : AppState) (g A B : string) : Prop :=
  obj_get A (assignments st') = Some None
  ∧ obj_get B (assignments st') = Some (Some g)
  ∧ (∀ k, k ≠ A → k ≠ B → obj_get k (assignments st') = obj_get k (assignments st))
  ∧ filter (λ x, x = g) (pool st') = filter (λ x, x = g) (pool st)
  ∧ (∀ d, truthy (obj_get B (assignments st)) = Some d → d ≠ g →
          d ∈ guest_ids st →
          pool st' = d :: filter (λ x, x ≠ d) (pool st))
  ∧ ((truthy (obj_get B (assignments st)) = None ∨
      truthy (obj_get B (assignments st)) = Some g) → pool st' = pool st)
  ∧ selectedSeatKeys st' = [B]
  ∧ guests st' = guests st ∧ tables st' = tables st.

(** The seats the shrinking loop visits and the guests it collects. *)
Definition seat_occupants (tid : string) (m : Assignments) (idxs : list Z)
  : list string :=
  omap (λ i, truthy (obj_get (seatKey tid i) m)) idxs.

(** What the specification says of a resize of table [tid] from [old]
    seats to [n] seats, [n] other than [old]. *)
Definition spec_resized (st st' : AppState) (tid : string) (old n : Z) : Prop :=
  let m := assignments st in
  let m' := assignments st' in
  let freed := seat_occupants tid m (seqZ n (old - n)) in
  guests st' = guests st
  ∧ selectedSeatKeys st' = selectedSeatKeys st
  ∧ tables st'
    = (λ t, if decide (table_id t = tid)
            then mkTable (table_id t) (Fin n) (position t) else t) <$> tables st
  ∧ (n < old →
       (∀ i, n ≤ i < old → obj_get (seatKey tid i) m' = None)
       ∧ (∀ k, (∀ i, n ≤ i < old → k ≠ seatKey tid i) → obj_get k m' = obj_get k m)
       ∧ pool st' = filter (λ g, g ∈ guest_ids st) (uniq freed)
                    ++ filter (λ g, g ∉ uniq freed) (pool st)
       ∧ ((∀ i, old ≤ i → obj_get (seatKey tid i) m = None) →
          ∀ i, n ≤ i → obj_get (seatKey tid i) m' = None))%Z
  ∧ (old < n →
       (∀ i, old ≤ i < n → obj_get (seatKey tid i) m' = Some None)
       ∧ (∀ k, (∀ i, old ≤ i < n → k ≠ seatKey tid i) → obj_get k m' = obj_get k m)
       ∧ pool st' = pool st)%Z
  ∧ (∀ i, i < Z.min n old → obj_get (seatKey tid i) m' = obj_get (seatKey tid i) m)%Z.

(** An [assignGuest] call as the interface issues it: the guest is dragged
    from the seat it sits on, or from the pool. *)
Definition op_from_interface (st : AppState) (op : operation) : Prop :=
  match op with
  | AssignGuest g t i (Some from) =>
      if decide (from = "") then ¬ seated (assignments st) g
      else obj_get from (assignments st) = Some (Some g)
  | AssignGuest g t i None => ¬ seated (assignments st) g
  | _ => True
  end.

Fixpoint from_interface (ops : list operation) (st : AppState) : Prop :=
  match ops with
  | [] => True
  | op :: ops' =>
      op_from_interface st op
      ∧ match step op st with
        | Some st1 => from_interface ops' st1
        | None => True
        end
  end.

(** What an export followed by an import gives back. *)
Definition same_model (st : AppState) (ls : LayoutState) : Prop :=
  ls_guests ls = guests st
  ∧ ls_tables ls = tables st
  ∧ ls_pool ls = pool st
  ∧ NoDup (obj_keys (ls_assignments ls))
  ∧ ∀ k, obj_get k (ls_assignments ls) = obj_get k (assignments st).

Definition suffixed (baseId : string) (k : Z) : string :=
  baseId +:+ "-" +:+ pretty k.

(** [k] is the smallest integer from [s] on whose suffixed id is free. *)
Definition least_free (seen : list string) (baseId : string) (s k : Z) : Prop :=
  (s ≤ k)%Z ∧ (suffixed baseId k ∉ seen)
  ∧ ∀ j, (s ≤ j < k)%Z → suffixed baseId j ∈ seen.

Section GuestImportSpec.
Variable trim : string → string.
Variable toLowerCase : string → string.

(** What a record contributes, in the words of the specification: it is an
    object; its name, trimmed, is not empty; its base id is its provided id,
    trimmed, or else the id derived from the trimmed name, and is not
    empty. *)
Definition spec_candidate (item : json) (c : string * string * option string) : Prop :=
  let '(baseId, name, details) := c in
  is_object (Some item) = true
  ∧ name = match prop "name" item with Some (JStr n) => trim n | _ => "" end
  ∧ name ≠ ""
  ∧ baseId = (let providedId :=
                match prop "id" item with Some (JStr i) => trim i | _ => "" end in
              if decide (providedId = "") then fallback_id toLowerCase name
              else providedId)
  ∧ baseId ≠ ""
  ∧ details = match prop "details" item with Some (JStr d) => Some d | _ => None end.

(** The import as the specification describes it: a record that contributes
    nothing is dropped; a base id that was not produced yet is taken as it
    is; one that was gets the smallest suffix from 2 on that is free. *)
Inductive spec_import : list string → list json → list Guest → Prop :=
  | spec_import_nil seen : spec_import seen [] []
  | spec_import_drop seen item raw gs :
      (∀ c, ¬ spec_candidate item c) →
      spec_import seen raw gs →
      spec_import seen (item :: raw) gs
  | spec_import_fresh seen item raw gs baseId name details :
      spec_candidate item (baseId, name, details) →
      baseId ∉ seen →
      spec_import (seen ++ [baseId]) raw gs →
      spec_import seen (item :: raw) (mkGuest baseId name details :: gs)
  | spec_import_collision seen item raw gs baseId name details k :
      spec_candidate item (baseId, name, details) →
      baseId ∈ seen →
      least_free seen baseId 2 k →
      spec_import (seen ++ [suffixed baseId k]) raw gs →
      spec_import seen (item :: raw)
                  (mkGuest (suffixed baseId k) name details :: gs).

End GuestImportSpec.

(** The id of a record as the specification words it: the provided id if
    it is not empty, otherwise the id derived from the name. *)
Definition stated_base_id (toLowerCase : string → string) (item : json) : string :=
  let derived :=
    strip_hyphens (collapse_runs false
                     (toLowerCase (string_or_empty (prop "name" item)))) in
  match prop "id" item with
  | Some (JStr i) => if decide (i = "") then derived else i
  | _ => derived
  end.

(** Groups of lower-case letters and digits separated by single hyphens. *)
Fixpoint slug_from (after_hyphen : bool) (s : string) : bool :=
  match s with
  | EmptyString => negb after_hyphen
  | String c s' =>
      if is_alnum c then slug_from false s'
      else if decide (c = "-"%char) then negb after_hyphen && slug_from true s'
      else false
  end.

Definition is_slug (s : string) : bool :=
  match s with
  | EmptyString => true
  | _ => slug_from true s
  end.

(** The same without the conditions on the two ends. *)
Fixpoint runs_collapsed (after_hyphen : bool) (s : string) : bool :=
  match s with
  | EmptyString => true
  | String c s' =>
      if is_alnum c then runs_collapsed false s'
      else if decide (c = "-"%char) then negb after_hyphen && runs_collapsed true s'
      else false
  end.

(** The letters and digits of a string, in order. *)
Fixpoint alnums (s : string) : string :=
  match s with
  | EmptyString => EmptyString
  | String c s' => if is_alnum c then String c (alnums s') else alnums s'
  end.

(** ** The built-ins on ASCII text *)

Fixpoint decimal_digits (acc : Z) (s : string) : option Z :=
  match s with
  | EmptyString => Some acc
  | String c s' =>
      let n := Z.of_nat (nat_of_ascii c) in
      if bool_decide (48 ≤ n ≤ 57)%Z
      then decimal_digits (10 * acc + (n - 48)) s'
      else None
  end.

(** [Number(s)] on the strings the examples below use: the empty string,
    unsigned decimal integers and the two infinities.  The examples do not
    depend on its value elsewhere. *)
Definition Number_of_decimal (s : string) : number :=
  if decide (s = "Infinity") then PosInf
  else if decide (s = "-Infinity") then NegInf
  else match decimal_digits 0 s with
       | Some z => Fin (inject_Z z)
       | None => NaN
       end.

Fixpoint strip_leading_space (s : string) : string :=
  match s with
  | String c s' => if Ascii.is_space c then strip_leading_space s' else s
  | EmptyString => EmptyString
  end.

Fixpoint strip_trailing_space (s : string) : string :=
  match s with
  | EmptyString => EmptyString
  | String c s' =>
      match Ascii.is_space c, strip_trailing_space s' with
      | true, EmptyString => EmptyString
      | _, rest => String c rest
      end
  end.

(** [s.trim()] for a string of ASCII characters. *)
Definition ascii_trim (s : string) : string :=
  strip_trailing_space (strip_leading_space s).

Definition ascii_lower (c : ascii) : ascii :=
  let n := nat_of_ascii c in
  if bool_decide (65 ≤ n) && bool_decide (n ≤ 90) then ascii_of_nat (n + 32) else c.

(** [s.toLowerCase()] for a string of ASCII characters. *)
Fixpoint ascii_toLowerCase (s : string) : string :=
  match s with
  | EmptyString => EmptyString
  | String c s' => String (ascii_lower c) (ascii_toLowerCase s')
  end.

(** ** Concrete inputs *)

Definition guest_json (i n : string) : json :=
  JObj [("id", JStr i); ("name", JStr n)].

Definition table_json (i : string) (count : json) : json :=
  JObj [("id", JStr i); ("seatCount", count);
        ("position", JObj [("x", JNum (Fin 10%Q)); ("y", JNum (Fin 20%Q))])].

Definition layout_json (gs ts : list json) (a : json) (u : list json) : json :=
  JObj [("version", JNum (Fin 1%Q)); ("guests", JArr gs); ("tables", JArr ts);
        ("assignments", a); ("unassigned", JArr u)].

(** [{"guests": [{"id": "g1", "name": "Ann"}], "tables": [],
      "assignments": null}] *)
Definition payload_null_assignments : json :=
  layout_json [guest_json "g1" "Ann"] [] JNull [].

(** [{"guests": [...], "tables": [{"id": "t1", "seatCount": 1e999}],
      "assignments": {}}]; [JSON.parse] reads [1e999] as [Infinity]. *)
Definition payload_infinite_table : json :=
  layout_json [guest_json "g1" "Ann"] [table_json "t1" (JNum PosInf)] (JObj []) [].

(** The same with [-1e999]. *)
Definition payload_minus_infinite_table : json :=
  layout_json [guest_json "g1" "Ann"] [table_json "t1" (JNum NegInf)] (JObj []) [].

(** [{"guests": [{"id": "g1", "name": "Ann"}],
      "tables": [{"id": "t1", "seatCount": 2, ...}],
      "assignments": {"t1:0": "g1", "t1:1": "g1"}}] *)
Definition payload_two_seats : json :=
  layout_json [guest_json "g1" "Ann"] [table_json "t1" (JNum (Fin 2%Q))]
              (JObj [("t1:0", JStr "g1"); ("t1:1", JStr "g1")]) [].

Definition state_two_seats : LayoutState :=
  mkLayoutState [mkGuest "g1" "Ann" None]
                [mkTable "t1" (Fin 2%Z) (mkPosition (Fin 10%Q) (Fin 20%Q))]
                [("t1:0", Some "g1"); ("t1:1", Some "g1")] [].

(** [{"guests": [g1, g2], "tables": [{"id": "a", "seatCount": 1},
      {"id": "a:b", "seatCount": 1}],
      "assignments": {"a:0": "g1", "a:b:0": "g2"}}] *)
Definition payload_nested_ids : json :=
  layout_json [guest_json "g1" "Ann"; guest_json "g2" "Bob"]
              [table_json "a" (JNum (Fin 1%Q)); table_json "a:b" (JNum (Fin 1%Q))]
              (JObj [("a:0", JStr "g1"); ("a:b:0", JStr "g2")]) [].

Definition state_nested_ids : AppState :=
  mkApp [mkGuest "g1" "Ann" None; mkGuest "g2" "Bob" None]
        [mkTable "a" (Fin 1%Z) (mkPosition (Fin 10%Q) (Fin 20%Q));
         mkTable "a:b" (Fin 1%Z) (mkPosition (Fin 10%Q) (Fin 20%Q))]
        [("a:0", Some "g1"); ("a:b:0", Some "g2")] [] [] None.

(** The state after dropping the first guest of the pool on seat 0 of the
    first table. *)
Definition state_one_seated : AppState :=
  settle (assignGuestToSeat "guest-1" "table-1" 0 None default_state).

(** The default layout with the first four guests on seats 0 to 3 of the
    first table. *)
Definition state_four_seated : AppState :=
  settle (assignGuestToSeat "guest-4" "table-1" 3 None
  (settle (assignGuestToSeat "guest-3" "table-1" 2 None
  (settle (assignGuestToSeat "guest-2" "table-1" 1 None state_one_seated))))).

(** A session on the default layout: seat a guest, move it, shrink the
    table, remove the other table, release the seat. *)
Definition sample_session : list operation :=
  [ AssignGuest "guest-1" "table-1" 0 None;
    AssignGuest "guest-1" "table-1" 1 (Some "table-1:0");
    AssignGuest "guest-2" "table-1" 1 None;
    ResizeTable "table-1" (Fin 4%Q);
    RemoveTable "table-2";
    ReleaseSeats ["table-1:1"] ].

Definition state_unnamed_table : AppState :=
  mkApp [mkGuest "g1" "Ann" None]
        [mkTable "" (Fin 1%Z) (mkPosition (Fin 10%Q) (Fin 20%Q))]
        [(":0", None)] ["g1"] [] None.

(** ** Seats of a table *)

Fixpoint has_colon (s : string) : bool :=
  match s with
  | EmptyString => false
  | String c s' => bool_decide (c = ":"%char) || has_colon s'
  end.

(** The seat holds a guest: its key is bound to a non-empty string. *)
Definition seat_taken (m : Assignments) (tableId : string) (i : Z) : Prop :=
  is_Some (truthy (obj_get (seatKey tableId i) m)).

(** [i] is an index the loops over the seats of a table visit. *)
Definition seat_index (count : whole) (i : Z) : Prop :=
  (0 ≤ i)%Z ∧ num_lt (Fin i) count = true.

(** [r] is the first seat of the table, from index [s] on, that holds no
    guest. *)
Definition first_free_seat (m : Assignments) (tableId : string) (count : whole)
    (s r : Z) : Prop :=
  (s ≤ r)%Z ∧ num_lt (Fin r) count = true ∧ ¬ seat_taken m tableId r
  ∧ ∀ i, (s ≤ i < r)%Z → seat_taken m tableId i.

(** Every seat of the table, from index [s] on, holds a guest. *)
Definition seats_full (m : Assignments) (tableId : string) (count : whole)
    (s : Z) : Prop :=
  ∀ i, (s ≤ i)%Z → num_lt (Fin i) count = true → seat_taken m tableId i.

(** ** Drags and drops the interface offers *)

(** Where a dragged guest can be dropped: on a seat, on a table, or on the
    pool. *)
Inductive drop_target : Type :=
  | OnSeat (tableId : string) (seatIndex : Z)
  | OnTable (tableId : string)
  | OnPool.

(** The [onDrop] handler of the target. *)
Definition drop (target : drop_target) (dataTransfer : DataTransfer)
    (st : AppState) : option AppState :=
  match target with
  | OnSeat tableId seatIndex => Some (handleSeatDrop tableId seatIndex dataTransfer st)
  | OnTable tableId => handleTableDrop tableId dataTransfer st
  | OnPool => Some (handlePoolDrop (data_fromSeat dataTransfer) st)
  end.

(** The data of a drag that starts on a seat or on a card of the pool. *)
Definition draggable (st : AppState) (dataTransfer : DataTransfer) : Prop :=
  (∃ table seatIndex, seat_drag table seatIndex st = Some dataTransfer)
  ∨ (∃ guestId, pool_drag guestId st = Some dataTransfer).

(** What a drop on the pool does, when the drag comes from the seat
    [fromSeat] and that seat holds [g]. *)
Definition dropped_on_pool (st st' : AppState) (fromSeat g : string) : Prop :=
  obj_get fromSeat (assignments st') = Some None
  ∧ (∀ k, k ≠ fromSeat → obj_get k (assignments st') = obj_get k (assignments st))
  ∧ obj_keys (assignments st') = obj_keys (assignments st)
  ∧ pool st' = (if decide (g ∈ guest_ids st) then [g] else [])
               ++ filter (λ x, x ≠ g) (pool st)
  ∧ selectedSeatKeys st' = []
  ∧ guests st' = guests st ∧ tables st' = tables st
  ∧ (well_formed st → spec_core_invariant st →
     pool (settle st') = g :: pool st).

(** ** Releasing seats *)

(** The guests on the seats [keys], in the order of the keys, a key that
    is listed twice counting once. *)
Definition occupants (m : Assignments) (keys : list string) : list string :=
  omap (λ k, truthy (obj_get k m)) (uniq keys).

(** What [releaseSelectedSeats] does: the selected seats that hold a guest
    are emptied, nothing else of the object changes, the guests that were on
    them are returned to the pool, and the selection is cleared. *)
Definition released (st st' : AppState) : Prop :=
  let sel := selectedSeatKeys st in
  let m := assignments st in
  let freed := uniq (occupants m sel) in
  (∀ k, obj_get k (assignments st')
        = if decide (k ∈ sel ∧ is_Some (truthy (obj_get k m)))
          then Some None else obj_get k m)
  ∧ obj_keys (assignments st') = obj_keys m
  ∧ pool st' = filter (λ g, g ∈ guest_ids st) freed
               ++ filter (λ g, g ∉ freed) (pool st)
  ∧ selectedSeatKeys st' = []
  ∧ guests st' = guests st ∧ tables st' = tables st
  ∧ menuState st' = menuState st.

(** ** Selecting seats *)

(** The key is bound to a guest. *)
Definition key_taken (m : Assignments) (k : string) : Prop :=
  is_Some (truthy (obj_get k m)).

(** The selection lists no key twice and only seats that hold a guest. *)
Definition selection_ok (st : AppState) : Prop :=
  NoDup (selectedSeatKeys st)
  ∧ ∀ k, k ∈ selectedSeatKeys st → key_taken (assignments st) k.

(** A click without modifier keys. *)
Definition plain_click : MouseEvent := mkMouseEvent false false false.

(** The state with [keys] as its selection. *)
Definition state_selected (keys : list string) : AppState :=
  setSelectedSeatKeys keys state_four_seated.

(** What releasing the one seat [key], which holds [g], gives in a state
    that satisfies the core invariant. *)
Definition released_one (st st' : AppState) (key g : string) : Prop :=
  assignments st' = obj_set key None (assignments st)
  ∧ pool st' = g :: pool st
  ∧ selectedSeatKeys st' = []
  ∧ guests st' = guests st ∧ tables st' = tables st.

(** ** Adding a table *)

(** The table [handleAddTable] appends when the clock reads [now] and there
    are [n] tables. *)
Definition added_table (now : Z) (n : nat) : Table :=
  mkTable ("table-" +:+ pretty now) (Fin 8%Z)
          (mkPosition (Fin (inject_Z (80 + Z.of_nat n * 60)))
                      (Fin (inject_Z (80 + Z.of_nat n * 40)))).

(** What adding a table gives when its id is new: the table at the end of
    the list with eight empty seats, and everything else as it was. *)
Definition table_added (st st' : AppState) (now : Z) : Prop :=
  let new := added_table now (length (tables st)) in
  tables st' = tables st ++ [new]
  ∧ (∀ i, (0 ≤ i < 8)%Z →
          obj_get (seatKey (table_id new) i) (assignments st') = Some None)
  ∧ (∀ k, k ∈ obj_keys (assignments st) →
          obj_get k (assignments st') = obj_get k (assignments st))
  ∧ (∀ k, k ∈ obj_keys (assignments st') ↔
          k ∈ obj_keys (assignments st)
          ∨ ∃ i, (0 ≤ i < 8)%Z ∧ k = seatKey (table_id new) i)
  ∧ guests st' = guests st ∧ pool st' = pool st
  ∧ selectedSeatKeys st' = selectedSeatKeys st.

(** What adding a table does to the seats whatever its id: the eight keys
    of the id are bound to [null], the other keys keep their values. *)
Definition seats_reset (st st' : AppState) (now : Z) : Prop :=
  let tid := "table-" +:+ pretty now in
  (∀ i, (0 ≤ i < 8)%Z → obj_get (seatKey tid i) (assignments st') = Some None)
  ∧ (∀ k, (∀ i, (0 ≤ i < 8)%Z → k ≠ seatKey tid i) →
          obj_get k (assignments st') = obj_get k (assignments st))
  ∧ tables st' = tables st ++ [added_table now (length (tables st))]
  ∧ guests st' = guests st.

(** The default layout after a table was added at clock value 7 and the
    first guest was seated on its first seat. *)
Definition state_clock_table : AppState :=
  settle (assignGuestToSeat "guest-1" "table-7" 0 None
            (settle (handleAddTable 7 default_state))).

(** ** Removing a table *)

(** No table has an id that starts with [tid] followed by a colon. *)
Definition no_nested_id (ts : list Table) (tid : string) : Prop :=
  ∀ t, t ∈ ts → String.prefix (tid +:+ ":") (table_id t) = false.

(** What removing table [tid] gives when no id is nested in it. *)
Definition table_removed (st st' : AppState) (tid : string) : Prop :=
  let m := assignments st in
  tables st' = filter (λ t, table_id t ≠ tid) (tables st)
  ∧ (∀ i, obj_get (seatKey tid i) (assignments st') = None)
  ∧ (∀ k, k ∈ obj_keys m → (∀ i, k ≠ seatKey tid i) →
          obj_get k (assignments st') = obj_get k m)
  ∧ (∃ returned,
       pool st' = returned ++ pool st
       ∧ ∀ g, g ∈ returned ↔ ∃ i, obj_get (seatKey tid i) m = Some (Some g))
  ∧ (∀ k, k ∈ selectedSeatKeys st' ↔
          k ∈ selectedSeatKeys st ∧ ∀ i, k ≠ seatKey tid i)
  ∧ menuState st' = None
  ∧ guests st' = guests st.

(** ** Resizing a table from its menu *)

(** [k] is the key of a seat of a table whose id is not [tid]. *)
Definition other_seat_key (ts : list Table) (tid k : string) : Prop :=
  ∃ t n i, t ∈ ts ∧ table_id t ≠ tid ∧ seatCount t = Fin n ∧ (0 ≤ i < n)%Z
           ∧ k = seatKey (table_id t) i.

(** The tables after the seat count of table [tid] was set to [n]. *)
Definition with_seat_count (tid : string) (n : whole) (ts : list Table)
  : list Table :=
  (λ t, if decide (table_id t = tid)
        then mkTable (table_id t) n (position t) else t) <$> ts.

(** ** Importing a guest list *)

(** The occupant the import keeps on key [k]: the previous occupant if its
    id is an id of the new guest list. *)
Definition kept_occupant (guestIds : list string) (old : Assignments)
    (k : string) : option string :=
  match truthy (obj_get k old) with
  | Some candidate => if has candidate guestIds then Some candidate else None
  | None => None
  end.

(** One step of the seat loop of the import. *)
Definition rebuild_seat (guestIds : list string) (old : Assignments)
    (tableId : string) (m : Assignments) (seatIdx : Z) : Assignments :=
  obj_set (seatKey tableId seatIdx)
          (kept_occupant guestIds old (seatKey tableId seatIdx)) m.

(** What a guest-list import that found guests leaves. *)
Definition guests_imported (st st' : AppState) : Prop :=
  let G := guest_ids st' in
  NoDup G
  ∧ (∀ g, g ∈ guests st' → guest_id g ≠ "" ∧ guest_name g ≠ "")
  ∧ tables st' = tables st
  ∧ NoDup (obj_keys (assignments st'))
  ∧ (∀ k, k ∈ obj_keys (assignments st') ↔ is_seat_key (tables st) k)
  ∧ (∀ k, is_seat_key (tables st) k →
          obj_get k (assignments st') = Some (kept_occupant G (assignments st) k))
  ∧ pool st' = filter (λ g, ¬ seated (assignments st') g) G
  ∧ selectedSeatKeys st' = []
  ∧ menuState st' = menuState st
  ∧ (∀ k g, (k, Some g) ∈ assignments st' → g ∈ G)
  ∧ pool_consistent st'
  ∧ (well_formed st → one_seat_each (assignments st) →
     well_formed st' ∧ spec_core_invariant st').

(** ** Dragging a table *)

(** The tables with the position of those whose id is [tid] set to
    [(x, y)]. *)
Definition moved_to (tid : string) (x y : number) (ts : list Table) : list Table :=
  (λ t, if decide (table_id t = tid)
        then mkTable (table_id t) (seatCount t) (mkPosition x y) else t) <$> ts.

(** ** The events of the interface *)

(** The state of the component that the handlers read and write: the model
    and the ref of the table drag. *)
Record ui_state := mkUi {
  ui_dragging : option Dragging;
  ui_app : AppState
}.

(** What the user can do, by the element that receives it: a click on a
    seat, a key, a guest dragged from a seat or from the pool and dropped on
    a target, the "Add table" button, the menu button of a table, the
    controls of the open menu, the guest-list file input, and the mouse
    events of a table drag. *)
Inductive ui_event : Type :=
  | SeatClick (table : Table) (seatIndex : Z) (event : MouseEvent)
  | KeyDown (key : string)
  | GuestDrop (dataTransfer : DataTransfer) (target : drop_target)
  | AddTableClick (now : Z)
  | MenuOpen (table : Table)
  | MenuClose
  | MenuPill (option : Z)
  | MenuInput (value : number)
  | MenuRemove
  | GuestFile (raw : json)
  | TableMouseDown (table : Table) (blocked : bool) (button : Z)
                   (clientX clientY : number)
  | MouseMove (clientX clientY : number)
  | MouseUp.

Section Interface.
Variable num_add : number → number → number.
Variable num_sub : number → number → number.
Variable trim : string → string.
Variable toLowerCase : string → string.

(** The handler the element calls; the controls of the menu are drawn, and
    act on [activeTable], only while there is one.  [None] when the handler
    does not return. *)
Definition ui_handle (ev : ui_event) (s : ui_state) : option ui_state :=
  let ref := ui_dragging s in
  let st := ui_app s in
  match ev with
  | SeatClick table seatIndex event =>
      Some (mkUi ref (handleSeatClick (table_id table) seatIndex event st))
  | KeyDown key => Some (mkUi ref (handleKeydown key st))
  | GuestDrop dataTransfer target => mkUi ref <$> drop target dataTransfer st
  | AddTableClick now => Some (mkUi ref (handleAddTable now st))
  | MenuOpen table => Some (mkUi ref (openTableMenu (table_id table) st))
  | MenuClose => Some (mkUi ref (closeMenu st))
  | MenuPill option =>
      match activeTable st with
      | Some table =>
          mkUi ref <$> updateSeatCount (table_id table) (Fin (inject_Z option)) st
      | None => Some s
      end
  | MenuInput value =>
      match activeTable st with
      | Some table => mkUi ref <$> updateSeatCount (table_id table) (or_one value) st
      | None => Some s
      end
  | MenuRemove =>
      match activeTable st with
      | Some table => Some (mkUi ref (handleRemoveTable (table_id table) st))
      | None => Some s
      end
  | GuestFile raw =>
      match handleGuestFileImport trim toLowerCase raw st with
      | Returns st' => Some (mkUi ref st')
      | _ => None
      end
  | TableMouseDown table blocked button clientX clientY =>
      let down := handleTableMouseDown (table_id table) blocked button
                                       clientX clientY ref st in
      Some (mkUi down.1 down.2)
  | MouseMove clientX clientY =>
      Some (mkUi ref (handleGlobalMouseMove num_add num_sub clientX clientY ref st))
  | MouseUp => Some (mkUi (handleGlobalMouseUp ref) st)
  end.

(** The handler followed by the effects. *)
Definition ui_step (ev : ui_event) (s : ui_state) : option ui_state :=
  (λ s', mkUi (ui_dragging s') (settle (ui_app s'))) <$> ui_handle ev s.

Fixpoint ui_run (evs : list ui_event) (s : ui_state) : option ui_state :=
  match evs with
  | [] => Some s
  | ev :: evs' => s1 ← ui_step ev s; ui_run evs' s1
  end.
End Interface.

(** The seat is drawn: it belongs to a table of the list. *)
Definition seat_drawn (st : AppState) (tableId : string) (seatIndex : Z) : Prop :=
  ∃ table n, table ∈ tables st ∧ table_id table = tableId
             ∧ seatCount table = Fin n ∧ (0 ≤ seatIndex < n)%Z.

(** The event can happen in the state: its element is drawn, a dragged
    guest comes from a seat or from a card that is drawn, and the clock of
    a new table gives an id that no table has. *)
Definition ui_enabled (s : ui_state) (ev : ui_event) : Prop :=
  let st := ui_app s in
  match ev with
  | SeatClick table seatIndex _ =>
      table ∈ tables st ∧ seat_drawn st (table_id table) seatIndex
  | GuestDrop dataTransfer target =>
      draggable st dataTransfer
      ∧ match target with
        | OnSeat tableId seatIndex => seat_drawn st tableId seatIndex
        | OnTable tableId => tableId ∈ table_id <$> tables st
        | OnPool => True
        end
  | AddTableClick now => ("table-" +:+ pretty now) ∉ table_id <$> tables st
  | MenuOpen table => table ∈ tables st
  | MenuPill option => option ∈ SEAT_OPTIONS
  | TableMouseDown table _ _ _ _ => table ∈ tables st
  | _ => True
  end.

(** What holds in every state the interface reaches from the built-in
    layout: the invariants of the data model, and table ids without a
    colon. *)
Definition ui_inv (s : ui_state) : Prop :=
  model_inv (ui_app s)
  ∧ ∀ tid, tid ∈ table_id <$> tables (ui_app s) → has_colon tid = false.

Section InterfaceRuns.
Variable num_add : number → number → number.
Variable num_sub : number → number → number.
Variable trim : string → string.
Variable toLowerCase : string → string.

(** Every event of the sequence can happen in the state it meets. *)
Fixpoint ui_enabled_run (evs : list ui_event) (s : ui_state) : Prop :=
  match evs with
  | [] => True
  | ev :: evs' =>
      ui_enabled s ev
      ∧ match ui_step num_add num_sub trim toLowerCase ev s with
        | Some s1 => ui_enabled_run evs' s1
        | None => True
        end
  end.
End InterfaceRuns.

(** Sum and difference without rounding, for the numbers of a session whose
    results the floating-point operations give exactly. *)
Definition exact_add (a b : number) : number :=
  match a, b with
  | NaN, _ | _, NaN => NaN
  | PosInf, NegInf | NegInf, PosInf => NaN
  | PosInf, _ | _, PosInf => PosInf
  | NegInf, _ | _, NegInf => NegInf
  | Fin p, Fin q => Fin (Qred (p + q))
  end.

Definition exact_sub (a b : number) : number :=
  match a, b with
  | NaN, _ | _, NaN => NaN
  | PosInf, PosInf | NegInf, NegInf => NaN
  | PosInf, _ | _, NegInf => PosInf
  | NegInf, _ | _, PosInf => NegInf
  | Fin p, Fin q => Fin (Qred (p - q))
  end.

Definition table_one : Table :=
  mkTable "table-1" (Fin 8%Z) (mkPosition (Fin 120%Q) (Fin 100%Q)).

Definition table_two : Table :=
  mkTable "table-2" (Fin 8%Z) (mkPosition (Fin 420%Q) (Fin 300%Q)).

(** A session at the interface, on the default layout with four guests at
    the first table: a guest is selected and sent back with the Delete key,
    one is dragged to the other table and one from the pool to the first
    table, a table is added, the menu of the first table sets its seat
    count twice and removes it, a guest list is imported, and the second
    table is dragged. *)
Definition sample_events : list ui_event :=
  [ SeatClick table_one 0 (mkMouseEvent false false false);
    KeyDown "Delete";
    GuestDrop (mkDataTransfer "guest-2" "table-1:1") (OnSeat "table-2" 0);
    GuestDrop (mkDataTransfer "guest-5" "") (OnTable "table-1");
    AddTableClick 1700000000000;
    MenuOpen table_one;
    MenuPill 2;
    MenuOpen (mkTable "table-1" (Fin 2%Z) (mkPosition (Fin 120%Q) (Fin 100%Q)));
    MenuInput NaN;
    MenuOpen (mkTable "table-1" (Fin 1%Z) (mkPosition (Fin 120%Q) (Fin 100%Q)));
    MenuRemove;
    GuestFile (JArr [guest_json "guest-2" "Bob"; guest_json "g-13" "Mia"]);
    TableMouseDown table_two false 0 (Fin 430%Q) (Fin 310%Q);
    MouseMove (Fin 500%Q) (Fin 250%Q);
    MouseUp ].

(** * Properties *)

(** ** Membership tests and first-occurrence lists *)

Lemma has_true x l : has x l = true ↔ x ∈ l.
Proof. unfold has. apply bool_decide_eq_true. Qed.

Lemma has_false x l : has x l = false ↔ x ∉ l.
Proof. unfold has. apply bool_decide_eq_false. Qed.

Lemma has_ext x l k : (x ∈ l ↔ x ∈ k) → has x l = has x k.
Proof. intros H. unfold has. by apply bool_decide_ext. Qed.

Lemma uniq_from_ext seen seen' xs :
  (∀ x, x ∈ seen ↔ x ∈ seen') → uniq_from seen xs = uniq_from seen' xs.
Proof.
  revert seen seen'. induction xs as [|x xs IH]; intros seen seen' Hs; [done|].
  simpl. rewrite (has_ext x seen seen') by apply Hs.
  destruct (has x seen').
  - by apply IH.
  - f_equal. apply IH. intros y. rewrite !elem_of_cons. by rewrite Hs.
Qed.

Lemma elem_of_uniq_from seen xs y :
  y ∈ uniq_from seen xs ↔ y ∈ xs ∧ y ∉ seen.
Proof.
  revert seen. induction xs as [|x xs IH]; intros seen; simpl.
  - rewrite elem_of_nil. tauto.
  - destruct (has x seen) eqn:Hx.
    + apply has_true in Hx. rewrite IH, elem_of_cons.
      split; [tauto|]. intros [[->|?] ?]; tauto.
    + apply has_false in Hx. rewrite !elem_of_cons, IH, elem_of_cons.
      split.
      * intros [->|[? ?]]; tauto.
      * intros [[->|?] ?]; [tauto|].
        destruct (decide (y = x)); tauto.
Qed.

Lemma NoDup_uniq_from seen xs : NoDup (uniq_from seen xs).
Proof.
  revert seen. induction xs as [|x xs IH]; intros seen; simpl.
  - constructor.
  - destruct (has x seen); [apply IH|].
    apply NoDup_cons. split; [|apply IH].
    rewrite elem_of_uniq_from, elem_of_cons. tauto.
Qed.

Lemma uniq_from_sublist seen xs : uniq_from seen xs `sublist_of` xs.
Proof.
  revert seen. induction xs as [|x xs IH]; intros seen; simpl; [done|].
  destruct (has x seen).
  - by apply sublist_cons.
  - by apply sublist_skip.
Qed.

Lemma uniq_from_id seen xs :
  NoDup xs → (∀ x, x ∈ xs → x ∉ seen) → uniq_from seen xs = xs.
Proof.
  revert seen. induction xs as [|x xs IH]; intros seen Hnd Hdis; [done|].
  apply NoDup_cons in Hnd as [Hx Hnd]. simpl.
  assert (has x seen = false) as ->.
  { apply has_false, Hdis. by left. }
  f_equal. apply IH; [done|].
  intros y Hy. rewrite elem_of_cons. intros [->|?]; [done|].
  eapply Hdis; [by right|done].
Qed.

Lemma uniq_from_app_filter seen acc xs :
  uniq_from (seen ++ acc) xs = uniq_from acc (filter (λ x, x ∉ seen) xs).
Proof.
  revert acc. induction xs as [|x xs IH]; intros acc; [done|].
  rewrite filter_cons. simpl. case_decide as Hx.
  - simpl. rewrite (has_ext x (seen ++ acc) acc).
    2:{ rewrite elem_of_app. tauto. }
    destruct (has x acc); [apply IH|].
    f_equal. rewrite <-IH. apply uniq_from_ext.
    intros y. rewrite !elem_of_cons, !elem_of_app, elem_of_cons. tauto.
  - assert (has x (seen ++ acc) = true) as ->.
    { apply has_true, elem_of_app. left. by destruct (decide (x ∈ seen)). }
    apply IH.
Qed.

Lemma uniq_from_filter seen xs :
  uniq_from seen xs = uniq (filter (λ x, x ∉ seen) xs).
Proof.
  unfold uniq. rewrite <-uniq_from_app_filter. by rewrite app_nil_r.
Qed.

Lemma uniq_id xs : NoDup xs → uniq xs = xs.
Proof.
  intros. apply uniq_from_id; [done|]. intros x _. apply not_elem_of_nil.
Qed.

(** ** Objects as insertion-ordered bindings *)

Section assoc_facts.
Context {A : Type}.
Implicit Types (l : list (string * A)) (k : string) (v : A).

Lemma assoc_None k l : assoc k l = None ↔ k ∉ l.*1.
Proof.
  induction l as [|[k' v'] l IH]; simpl.
  - split; [intros _; apply not_elem_of_nil|done].
  - rewrite not_elem_of_cons. destruct (decide (k = k')); [|tauto].
    split; [done|]. intros [? _]. done.
Qed.

Lemma assoc_is_Some k l : is_Some (assoc k l) ↔ k ∈ l.*1.
Proof.
  rewrite <-not_eq_None_Some, assoc_None.
  destruct (decide (k ∈ l.*1)); tauto.
Qed.

Lemma assoc_Some_elem k v l : assoc k l = Some v → (k, v) ∈ l.
Proof.
  induction l as [|[k' v'] l IH]; simpl; [done|].
  destruct (decide (k = k')) as [->|Hne].
  - intros [= ->]. by left.
  - intros Hl. right. by apply IH.
Qed.

Lemma assoc_NoDup k v l : NoDup l.*1 → (k, v) ∈ l → assoc k l = Some v.
Proof.
  induction l as [|[k' v'] l IH]; simpl.
  - intros _ Hl. by apply elem_of_nil in Hl.
  - rewrite NoDup_cons, elem_of_cons. intros [Hk Hnd] [Heq|Hin].
    + injection Heq as -> ->. by rewrite decide_True.
    + rewrite decide_False; [by apply IH|].
      intros ->. apply Hk. apply list_elem_of_fmap. by exists (k', v).
Qed.
End assoc_facts.

Lemma obj_get_set_eq k v m : obj_get k (obj_set k v m) = Some v.
Proof.
  unfold obj_get. induction m as [|[k' v'] m IH]; simpl.
  - by rewrite decide_True.
  - destruct (decide (k = k')) as [->|Hne]; simpl.
    + by rewrite decide_True.
    + by rewrite decide_False.
Qed.

Lemma obj_get_set_ne k k' v m :
  k ≠ k' → obj_get k' (obj_set k v m) = obj_get k' m.
Proof.
  intros Hne. unfold obj_get. induction m as [|[k0 v0] m IH]; simpl.
  - by rewrite decide_False.
  - destruct (decide (k = k0)) as [->|Hne0]; simpl.
    + by rewrite !decide_False.
    + destruct (decide (k' = k0)); [done|apply IH].
Qed.

Lemma obj_get_set k k' v m :
  obj_get k' (obj_set k v m) = if decide (k = k') then Some v else obj_get k' m.
Proof.
  case_decide as Hk; [subst; apply obj_get_set_eq|by apply obj_get_set_ne].
Qed.

Lemma obj_keys_set k v m :
  obj_keys (obj_set k v m)
  = if decide (k ∈ obj_keys m) then obj_keys m else obj_keys m ++ [k].
Proof.
  unfold obj_keys. induction m as [|[k' v'] m IH]; csimpl.
  - done.
  - destruct (decide (k = k')) as [->|Hne]; csimpl.
    + rewrite decide_True; [done|by left].
    + rewrite IH. destruct (decide (k ∈ m.*1)) as [Hin|Hin].
      * rewrite decide_True; [done|by right].
      * rewrite decide_False; [done|]. rewrite not_elem_of_cons. done.
Qed.

Lemma elem_of_obj_keys_set k k' v m :
  k' ∈ obj_keys (obj_set k v m) ↔ k' = k ∨ k' ∈ obj_keys m.
Proof.
  rewrite obj_keys_set. case_decide as Hk.
  - split; [tauto|]. intros [->|?]; done.
  - rewrite elem_of_app, list_elem_of_singleton. tauto.
Qed.

Lemma NoDup_obj_keys_set k v m : NoDup (obj_keys m) → NoDup (obj_keys (obj_set k v m)).
Proof.
  intros Hnd. rewrite obj_keys_set. case_decide as Hk; [done|].
  apply NoDup_app. split_and!; [done| |apply NoDup_singleton].
  intros x Hx ->%list_elem_of_singleton. done.
Qed.

Lemma elem_of_obj_set_1 k v m kv : kv ∈ obj_set k v m → kv = (k, v) ∨ kv ∈ m.
Proof.
  induction m as [|[k' v'] m IH]; simpl.
  - rewrite list_elem_of_singleton. tauto.
  - destruct (decide (k = k')) as [->|Hne]; rewrite !elem_of_cons; [tauto|].
    intros [->|Hin]; [tauto|]. destruct (IH Hin); tauto.
Qed.

Lemma elem_of_obj_set_new k v m : (k, v) ∈ obj_set k v m.
Proof.
  induction m as [|[k' v'] m IH]; simpl; [by left|].
  destruct (decide (k = k')); [by left|by right].
Qed.

Lemma elem_of_obj_set_old k v m kv : kv ∈ m → kv.1 ≠ k → kv ∈ obj_set k v m.
Proof.
  intros Hin Hne. induction m as [|[k' v'] m IH]; simpl.
  { by apply elem_of_nil in Hin. }
  apply elem_of_cons in Hin as [->|Hin].
  - simpl in Hne. rewrite decide_False by done. by left.
  - destruct (decide (k = k')); right; [done|by apply IH].
Qed.

Lemma obj_get_delete_eq k m : obj_get k (obj_delete k m) = None.
Proof.
  unfold obj_get. induction m as [|[k' v'] m IH]; simpl; [done|].
  destruct (decide (k = k')); [done|]. simpl. by rewrite decide_False.
Qed.

Lemma obj_get_delete_ne k k' m :
  k ≠ k' → obj_get k' (obj_delete k m) = obj_get k' m.
Proof.
  intros Hne. unfold obj_get. induction m as [|[k0 v0] m IH]; simpl; [done|].
  destruct (decide (k = k0)) as [->|Hne0]; simpl.
  - by rewrite decide_False.
  - destruct (decide (k' = k0)); [done|apply IH].
Qed.

Lemma elem_of_obj_delete k m kv : kv ∈ obj_delete k m ↔ kv ∈ m ∧ kv.1 ≠ k.
Proof.
  induction m as [|[k' v'] m IH]; simpl.
  - rewrite elem_of_nil. tauto.
  - destruct (decide (k = k')) as [->|Hne]; rewrite !elem_of_cons, ?IH.
    + split; [tauto|]. intros [[->|?] Hk]; [done|tauto].
    + split; [|tauto]. intros [->|?]; [|tauto]. split; [by left|]. simpl. congruence.
Qed.

Lemma obj_keys_delete k m :
  obj_keys (obj_delete k m) = filter (λ k', k' ≠ k) (obj_keys m).
Proof.
  unfold obj_keys. induction m as [|[k' v'] m IH]; csimpl; [done|].
  rewrite filter_cons. destruct (decide (k = k')) as [->|Hne].
  - by rewrite decide_False by tauto.
  - rewrite decide_True by congruence. csimpl. by rewrite IH.
Qed.

Lemma NoDup_obj_keys_delete k m :
  NoDup (obj_keys m) → NoDup (obj_keys (obj_delete k m)).
Proof. intros. rewrite obj_keys_delete. by apply NoDup_filter. Qed.

Lemma obj_get_None k m : obj_get k m = None ↔ k ∉ obj_keys m.
Proof. apply assoc_None. Qed.

Lemma obj_get_is_Some k m : is_Some (obj_get k m) ↔ k ∈ obj_keys m.
Proof. apply assoc_is_Some. Qed.

Lemma obj_get_elem k v m : obj_get k m = Some v → (k, v) ∈ m.
Proof. apply assoc_Some_elem. Qed.

Lemma obj_get_NoDup k v m : NoDup (obj_keys m) → (k, v) ∈ m → obj_get k m = Some v.
Proof. apply assoc_NoDup. Qed.

Lemma seated_elem m g : seated m g ↔ ∃ k, (k, Some g) ∈ m.
Proof.
  unfold seated, obj_values. rewrite list_elem_of_fmap. split.
  - intros [[k v] [Hv Hin]]. simpl in Hv. subst. by exists k.
  - intros [k Hin]. by exists (k, Some g).
Qed.

(** ** The pool loops *)

Lemma pool_pass_eq (test : string → bool) ids p :
  pool_pass test ids (p, p)
  = (p ++ uniq_from p (filter (λ g, test g) ids),
     p ++ uniq_from p (filter (λ g, test g) ids)).
Proof.
  revert p. induction ids as [|x ids IH]; intros p.
  - simpl. by rewrite app_nil_r.
  - unfold pool_pass in *. rewrite filter_cons. simpl.
    destruct (test x) eqn:Ht; simpl.
    + destruct (has x p) eqn:Hx; simpl.
      * apply IH.
      * rewrite IH, <-!app_assoc. simpl.
        rewrite (uniq_from_ext (p ++ [x]) (x :: p)); [done|].
        intros y. rewrite elem_of_app, !elem_of_cons, elem_of_nil. tauto.
    + apply IH.
Qed.

Section filter_facts.
Context {A : Type} (P Q : A → Prop) `{!∀ x, Decision (P x), !∀ x, Decision (Q x)}.

Lemma filter_ext_in (l : list A) :
  (∀ x, x ∈ l → (P x ↔ Q x)) → filter P l = filter Q l.
Proof.
  induction l as [|x l IH]; intros Hl; [done|].
  rewrite !filter_cons.
  assert (P x ↔ Q x) as Hx by (apply Hl; left).
  rewrite IH by (intros y Hy; apply Hl; by right).
  repeat case_decide; tauto.
Qed.

Lemma filter_all (l : list A) : (∀ x, x ∈ l → P x) → filter P l = l.
Proof.
  induction l as [|x l IH]; intros Hl; [done|].
  rewrite filter_cons_True by (apply Hl; left).
  f_equal. apply IH. intros y Hy. apply Hl. by right.
Qed.

Lemma filter_none (l : list A) : (∀ x, x ∈ l → ¬ P x) → filter P l = [].
Proof.
  induction l as [|x l IH]; intros Hl; [done|].
  rewrite filter_cons_False by (apply Hl; left).
  apply IH. intros y Hy. apply Hl. by right.
Qed.
End filter_facts.

Lemma elem_of_assigned_ids guestIds m g :
  g ∈ assigned_ids guestIds m ↔ seated m g ∧ g ∈ guestIds.
Proof.
  unfold assigned_ids, seated. rewrite list_elem_of_omap. split.
  - intros [[v|] [Hv Hg]]; [|done].
    destruct (has v guestIds) eqn:Hh; [|done].
    injection Hg as ->. by apply has_true in Hh.
  - intros [Hs Hg]. exists (Some g). split; [done|].
    apply has_true in Hg. by rewrite Hg.
Qed.

Lemma pool_of_setPool_same (a b : list string) st :
  pool (setPool (if bool_decide (a = b) then b else a) st) = a.
Proof. case_bool_decide; by subst. Qed.

Lemma first_pass_test G m g :
  negb (has g (assigned_ids G m)) && has g G ↔ g ∈ G ∧ ¬ seated m g.
Proof.
  rewrite andb_True, negb_True, !Is_true_true, !has_true.
  rewrite elem_of_assigned_ids. tauto.
Qed.

Lemma second_pass_test G m g :
  g ∈ G → negb (has g (assigned_ids G m)) ↔ ¬ seated m g.
Proof.
  intros Hg. rewrite negb_True, Is_true_true, has_true, elem_of_assigned_ids.
  tauto.
Qed.

(** The two loops that rebuild a pool, in [normalizeLayoutPayload] and in
    the reconciliation effect, compute the pool of the specification. *)
Lemma pool_passes_spec G m prev :
  (pool_pass (λ g, negb (has g (assigned_ids G m))) G
     (pool_pass (λ g, negb (has g (assigned_ids G m)) && has g G) prev ([], []))).1
  = spec_reconciled_pool G m prev.
Proof.
  rewrite (pool_pass_eq _ prev []). simpl.
  rewrite pool_pass_eq. simpl.
  assert (uniq_from [] (filter
            (λ g, negb (has g (assigned_ids G m)) && has g G) prev)
          = spec_kept_pool G m prev) as ->.
  { unfold spec_kept_pool, uniq. f_equal.
    apply list_filter_iff. intros g. apply first_pass_test. }
  unfold spec_reconciled_pool. f_equal.
  rewrite uniq_from_filter, list_filter_filter. f_equal.
  apply filter_ext_in. intros g Hg. rewrite second_pass_test by done. tauto.
Qed.

Lemma reconcilePool_pool st :
  pool (reconcilePool st)
  = spec_reconciled_pool (guest_ids st) (assignments st) (pool st).
Proof.
  unfold reconcilePool. rewrite pool_of_setPool_same. apply pool_passes_spec.
Qed.

Lemma elem_of_spec_kept_pool G m prev g :
  g ∈ spec_kept_pool G m prev ↔ g ∈ prev ∧ g ∈ G ∧ ¬ seated m g.
Proof.
  unfold spec_kept_pool, uniq.
  rewrite elem_of_uniq_from, list_elem_of_filter, elem_of_nil. tauto.
Qed.

Lemma elem_of_spec_reconciled_pool G m prev g :
  g ∈ spec_reconciled_pool G m prev ↔ g ∈ G ∧ ¬ seated m g.
Proof.
  unfold spec_reconciled_pool, uniq.
  rewrite elem_of_app, elem_of_uniq_from, list_elem_of_filter, elem_of_nil.
  rewrite elem_of_spec_kept_pool.
  destruct (decide (g ∈ prev)); tauto.
Qed.

Lemma NoDup_spec_reconciled_pool G m prev : NoDup (spec_reconciled_pool G m prev).
Proof.
  unfold spec_reconciled_pool. apply NoDup_app. split; [apply NoDup_uniq_from|].
  split; [|apply NoDup_uniq_from].
  intros g Hg. unfold uniq. rewrite elem_of_uniq_from, list_elem_of_filter. tauto.
Qed.

(** A pool that is already consistent is reproduced as it is. *)
Lemma spec_reconciled_pool_id G m prev :
  NoDup prev → (∀ g, g ∈ prev ↔ g ∈ G ∧ ¬ seated m g) →
  spec_reconciled_pool G m prev = prev.
Proof.
  intros Hnd Hmem.
  assert (spec_kept_pool G m prev = prev) as Hk.
  { unfold spec_kept_pool. rewrite filter_all; [by apply uniq_id|].
    intros g Hg. by apply Hmem. }
  unfold spec_reconciled_pool. rewrite Hk.
  rewrite filter_none; [by rewrite app_nil_r|].
  intros g Hg [Hs Hr]. apply Hr, Hmem. done.
Qed.

Lemma spec_reconciled_pool_fixed G m prev :
  spec_reconciled_pool G m (spec_reconciled_pool G m prev)
  = spec_reconciled_pool G m prev.
Proof.
  apply spec_reconciled_pool_id.
  - apply NoDup_spec_reconciled_pool.
  - intros g. apply elem_of_spec_reconciled_pool.
Qed.

(** C10.  The reconciliation effect sets the pool to the ids of the
    previous pool that are still known and not seated, first occurrences in
    their previous order, followed by the other known ids that are not
    seated, in guest-list order; the result has no duplicate, contains
    exactly the known ids that are not seated, and nothing but the pool is
    touched.  On a state whose pool already is that sequence the effect
    returns the state, pool included, as it is. *)
Theorem reconcilePool_spec st :
  let next := spec_reconciled_pool (guest_ids st) (assignments st) (pool st) in
  pool (reconcilePool st) = next
  ∧ spec_kept_pool (guest_ids st) (assignments st) (pool st) `sublist_of` pool st
  ∧ NoDup next
  ∧ (∀ g, g ∈ next ↔ g ∈ guest_ids st ∧ ¬ seated (assignments st) g)
  ∧ reconcilePool st = setPool next st
  ∧ reconcilePool (setPool next st) = setPool next st.
Proof.
  assert (∀ s, reconcilePool s
               = setPool (spec_reconciled_pool (guest_ids s) (assignments s) (pool s)) s)
    as Hset.
  { intros s. pose proof (reconcilePool_pool s) as Hp.
    unfold reconcilePool in *. unfold setPool in *. simpl in *. by rewrite Hp. }
  cbv zeta. rewrite reconcilePool_pool. split_and!.
  - done.
  - unfold spec_kept_pool, uniq.
    etrans; [apply uniq_from_sublist|apply sublist_filter].
  - apply NoDup_spec_reconciled_pool.
  - intros g. apply elem_of_spec_reconciled_pool.
  - apply Hset.
  - rewrite Hset. simpl. unfold guest_ids at 1. simpl.
    fold (guest_ids st). by rewrite spec_reconciled_pool_fixed.
Qed.

(** ** The normalizer: when it returns *)

(** C4.  On a payload whose [assignments] field is [null], with valid
    guests, the normalizer does not return a rejection: [typeof null] is
    ['object'], the guard lets it through and [Object.entries(null)] raises
    a [TypeError].  On a payload with a table whose seat count is
    [Infinity] it does not return at all, [buildEmptyAssignments] looping
    for ever.  (With an empty guest list the rejection comes first.) *)
Theorem normalize_null_assignments_throws :
  (∀ N, normalizeLayoutPayload N payload_null_assignments = Throws)
  ∧ typeof (prop "assignments" payload_null_assignments) = TObject
  ∧ (∀ N, normalizeLayoutPayload N payload_infinite_table = Diverges)
  ∧ (∀ N, normalizeLayoutPayload N (layout_json [] [] JNull []) = Returns None).
Proof. split_and!; try intros N; reflexivity. Qed.

(** C9.  A table whose seat count is [-Infinity] is not dropped: only [NaN]
    is tested for, and the table comes out with seat count 1.  A table whose
    seat count is [Infinity] is not dropped either, and building its seats
    never ends, so that the whole import is lost.  The two coordinates, on
    the other hand, are tested with [Number.isFinite]. *)
Theorem normalize_keeps_infinite_seat_count :
  (∀ N, ∃ st, normalizeLayoutPayload N payload_minus_infinite_table = Returns (Some st)
              ∧ ls_tables st = [mkTable "t1" (Fin 1%Z) (mkPosition (Fin 10%Q) (Fin 20%Q))])
  ∧ (∀ N, clean_table N (table_json "t1" (JNum PosInf))
          = Some (mkTable "t1" PosInf (mkPosition (Fin 10%Q) (Fin 20%Q))))
  ∧ (∀ N, normalizeLayoutPayload N payload_infinite_table = Diverges)
  ∧ Number_isFinite (@NegInf Q) = false.
Proof.
  split_and!; try done.
  intros N. eexists. split; reflexivity.
Qed.

(** What does hold of the rejections: the normalizer returns the rejection
    value exactly when one of the guards fails or no guest survives
    cleaning, where "not a record" is [typeof] not being ['object']. *)
Lemma normalize_rejects_iff N payload :
  normalizeLayoutPayload N payload = Returns None
  ↔ is_object (Some payload) = false
    ∨ Array_isArray (prop "tables" payload) = false
    ∨ Array_isArray (prop "guests" payload) = false
    ∨ typeof (prop "assignments" payload) ≠ TObject
    ∨ omap clean_guest (array_items (prop "guests" payload)) = [].
Proof.
  unfold normalizeLayoutPayload.
  destruct (is_object (Some payload)); simpl; [|by split; [left|]].
  destruct (Array_isArray (prop "tables" payload)); simpl;
    [|split; [right; by left|done]].
  destruct (Array_isArray (prop "guests" payload)); simpl;
    [|split; [right; right; by left|done]].
  case_bool_decide as Ht; simpl; [|split; [tauto|done]].
  case_bool_decide as Hg; [split; [tauto|done]|].
  split.
  - intros Hr. exfalso.
    destruct (buildEmptyAssignments _); [|done].
    destruct (Object_entries _); done.
  - intros [?|[?|[?|[?|?]]]]; done.
Qed.

(** ** The normalizer: the assignment object it builds *)

Lemma is_seat_key_intro ts t n i :
  t ∈ ts → seatCount t = Fin n → (0 ≤ i < n)%Z →
  is_seat_key ts (seatKey (table_id t) i).
Proof. intros. by exists t, n, i. Qed.

Lemma loop_indices_from_0 hi idxs :
  loop_indices (Fin 0%Z) hi = Some idxs →
  ∀ i, i ∈ idxs ↔ ∃ n, hi = Fin n ∧ (0 ≤ i < n)%Z.
Proof.
  destruct hi as [| | |n]; unfold loop_indices; intros [= <-] i.
  - rewrite elem_of_nil. split; [done|]. by intros (? & ? & ?).
  - rewrite elem_of_nil. split; [done|]. by intros (? & ? & ?).
  - rewrite elem_of_seqZ. split.
    + intros ?. exists n. split; [done|lia].
    + intros (? & [= <-] & ?). lia.
Qed.

Lemma empty_seats_keys tid idxs m k :
  k ∈ obj_keys (foldl (λ m i, obj_set (seatKey tid i) None m) m idxs)
  ↔ k ∈ obj_keys m ∨ ∃ i, i ∈ idxs ∧ k = seatKey tid i.
Proof.
  revert m. induction idxs as [|i idxs IH]; intros m; simpl.
  - split; [tauto|]. intros [?|(i & Hi & _)]; [done|]. by apply elem_of_nil in Hi.
  - rewrite IH, elem_of_obj_keys_set. split.
    + intros [[->|?]|(j & Hj & ->)]; [|tauto|].
      * right. exists i. split; [by left|done].
      * right. exists j. split; [by right|done].
    + intros [?|(j & Hj & ->)]; [tauto|].
      apply elem_of_cons in Hj as [->|Hj]; [tauto|]. right. by exists j.
Qed.

Lemma empty_seats_NoDup tid idxs m :
  NoDup (obj_keys m) →
  NoDup (obj_keys (foldl (λ m i, obj_set (seatKey tid i) None m) m idxs)).
Proof.
  revert m. induction idxs as [|i idxs IH]; intros m Hnd; simpl; [done|].
  by apply IH, NoDup_obj_keys_set.
Qed.

Lemma empty_seats_all_empty tid idxs m :
  all_empty m →
  all_empty (foldl (λ m i, obj_set (seatKey tid i) None m) m idxs).
Proof.
  revert m. induction idxs as [|i idxs IH]; intros m Hm; simpl; [done|].
  apply IH. intros kv [->|Hin]%elem_of_obj_set_1; [done|by apply Hm].
Qed.

Lemma buildEmptyAssignments_from_spec ts m0 m :
  buildEmptyAssignments_from ts m0 = Some m →
  (∀ k, k ∈ obj_keys m ↔ k ∈ obj_keys m0 ∨ is_seat_key ts k)
  ∧ (NoDup (obj_keys m0) → NoDup (obj_keys m))
  ∧ (all_empty m0 → all_empty m).
Proof.
  revert m0. induction ts as [|t ts IH]; intros m0; simpl.
  - intros [= <-]. split_and!; [|done..].
    intros k. split; [tauto|]. intros [?|(t & n & i & Ht & _)]; [done|].
    by apply elem_of_nil in Ht.
  - destruct (loop_indices (Fin 0%Z) (seatCount t)) as [idxs|] eqn:Hidx; [|done].
    intros Hb. destruct (IH _ Hb) as (Hk & Hnd & He).
    pose proof (loop_indices_from_0 _ _ Hidx) as Hi.
    split_and!.
    + intros k. rewrite Hk, empty_seats_keys. split.
      * intros [[?|(i & Hin & ->)]|(t' & n & i & Ht' & Hc & Hr & ->)]; [tauto| |].
        -- right. apply Hi in Hin as (n & Hn & Hr).
           eapply is_seat_key_intro; [by left|done..].
        -- right. eapply is_seat_key_intro; [by right|done..].
      * intros [?|(t' & n & i & Ht' & Hc & Hr & ->)]; [tauto|].
        apply elem_of_cons in Ht' as [->|Ht'].
        -- left. right. exists i. split; [|done]. apply Hi. by exists n.
        -- right. by eapply is_seat_key_intro.
    + intros ?. by apply Hnd, empty_seats_NoDup.
    + intros ?. by apply He, empty_seats_all_empty.
Qed.

Lemma buildEmptyAssignments_spec ts m :
  buildEmptyAssignments ts = Some m →
  (∀ k, k ∈ obj_keys m ↔ is_seat_key ts k) ∧ NoDup (obj_keys m) ∧ all_empty m.
Proof.
  intros (Hk & Hnd & He)%buildEmptyAssignments_from_spec. split_and!.
  - intros k. rewrite Hk. split; [|tauto]. intros [Hn|?]; [|done].
    by apply elem_of_nil in Hn.
  - apply Hnd. constructor.
  - apply He. intros kv Hkv. by apply elem_of_nil in Hkv.
Qed.

Lemma put_inv K G k v o :
  fill_inv K G o → key_in k o = true →
  (∀ g, v = Some g → g ∈ G) →
  fill_inv K G (put k v o).
Proof.
  intros [H1 H2 H3 H4] Hin Hv. unfold put.
  destruct (bool_decide (k = "__proto__") && has_prototype o
            && negb (has k (obj_keys (own o)))); [by split|].
  split; simpl.
  - intros k' Hk'. apply elem_of_obj_keys_set. right. by apply H1.
  - intros k' [->|Hk']%elem_of_obj_keys_set; [|by apply H2].
    unfold key_in in Hin. apply orb_true_iff in Hin as [Hin|Hin].
    + apply has_true in Hin. by apply H2.
    + apply andb_true_iff in Hin as [_ Hin]. apply has_true in Hin. by right.
  - intros k' g [[= -> <-]|Hin']%elem_of_obj_set_1; [by apply Hv|by eapply H3].
  - by apply NoDup_obj_keys_set.
Qed.

Lemma fill_entry_inv K G o entry :
  fill_inv K G o → fill_inv K G (fill_entry G o entry).
Proof.
  intros Ho. destruct entry as [key value]. unfold fill_entry.
  destruct (key_in key o) eqn:Hin; simpl; [|done].
  destruct value; try (apply put_inv; [done..|by intros ? [=]]).
  destruct (has s G) eqn:Hs; apply put_inv; try done.
  intros g [= <-]. by apply has_true.
Qed.

Lemma fill_entries_inv K G o entries :
  fill_inv K G o → fill_inv K G (foldl (fill_entry G) o entries).
Proof.
  revert o. induction entries as [|e entries IH]; intros o Ho; simpl; [done|].
  by apply IH, fill_entry_inv.
Qed.

(** The shape of an accepted payload's result. *)
Lemma normalize_accepts N payload st :
  normalizeLayoutPayload N payload = Returns (Some st) →
  ∃ empty entries,
    let G := guest_id <$> ls_guests st in
    ls_guests st ≠ []
    ∧ ls_guests st = omap clean_guest (array_items (prop "guests" payload))
    ∧ ls_tables st = omap (clean_table N) (array_items (prop "tables" payload))
    ∧ buildEmptyAssignments (ls_tables st) = Some empty
    ∧ Object_entries (prop "assignments" payload) = Some entries
    ∧ ls_assignments st = own (foldl (fill_entry G) (mkPlain empty true) entries)
    ∧ ls_pool st
      = spec_reconciled_pool G (ls_assignments st)
          (if Array_isArray (prop "unassigned" payload)
           then strings_of (array_items (prop "unassigned" payload)) else []).
Proof.
  unfold normalizeLayoutPayload.
  destruct (_ || _); [done|].
  case_bool_decide as Hg; [done|].
  destruct (buildEmptyAssignments _) as [empty|] eqn:Hb; [|done].
  destruct (Object_entries _) as [entries|] eqn:He; [|done].
  intros [= <-]. exists empty, entries. simpl.
  split_and!; try done.
  apply pool_passes_spec.
Qed.


(** The assignment object of an accepted payload. *)
Lemma normalized_assignments N payload st :
  normalizeLayoutPayload N payload = Returns (Some st) →
  NoDup (obj_keys (ls_assignments st))
  ∧ (∀ k, is_seat_key (ls_tables st) k → k ∈ obj_keys (ls_assignments st))
  ∧ (∀ k, k ∈ obj_keys (ls_assignments st) →
          is_seat_key (ls_tables st) k ∨ k ∈ Object_prototype_names)
  ∧ (∀ k g, (k, Some g) ∈ ls_assignments st → g ∈ guest_id <$> ls_guests st).
Proof.
  intros (empty & entries & _ & _ & _ & Hb & _ & Ha & _)%normalize_accepts.
  apply buildEmptyAssignments_spec in Hb as (Hk & Hnd & Hempty).
  set (G := guest_id <$> ls_guests st) in *.
  assert (fill_inv (obj_keys empty) G (mkPlain empty true)) as Hinv.
  { split; simpl; [done|tauto| |done].
    intros k g Hin. by apply Hempty in Hin. }
  apply (fill_entries_inv _ _ _ entries) in Hinv as [H1 H2 H3 H4].
  rewrite <-Ha in *. split_and!; [done| | |done].
  - intros k Hs. by apply H1, Hk.
  - intros k Hin. destruct (H2 k Hin) as [?|?]; [left; by apply Hk|by right].
Qed.

(** The pool of an accepted payload. *)
Lemma normalized_pool N payload st :
  normalizeLayoutPayload N payload = Returns (Some st) →
  NoDup (ls_pool st)
  ∧ ∀ g, g ∈ ls_pool st
         ↔ g ∈ guest_id <$> ls_guests st ∧ ¬ seated (ls_assignments st) g.
Proof.
  intros (empty & entries & _ & _ & _ & _ & _ & _ & Hp)%normalize_accepts.
  rewrite Hp. split.
  - apply NoDup_spec_reconciled_pool.
  - intros g. apply elem_of_spec_reconciled_pool.
Qed.



(** A raw entry under a name that every object inherits is let in by the
    [in] test and becomes an entry that is on no seat. *)
Lemma normalize_inherited_key :
  normalizeLayoutPayload Number_of_decimal
    (layout_json [guest_json "g1" "Ann"] [] (JObj [("constructor", JStr "g1")]) [])
  = Returns (Some (mkLayoutState [mkGuest "g1" "Ann" None] []
                                 [("constructor", Some "g1")] [])).
Proof. reflexivity. Qed.

(** ** Removing a table *)

(** C7.  [state_nested_ids] is what importing a layout with the tables ["a"]
    and ["a:b"] gives.  Removing table ["a"] from it also deletes the entry
    of the seat of table ["a:b"], whose key starts with ["a:"] too, and
    sends its occupant to the pool, while table ["a:b"] stays in the table
    list. *)
Theorem removeTable_takes_other_tables_seats :
  (∃ ls, normalizeLayoutPayload Number_of_decimal payload_nested_ids = Returns (Some ls)
         ∧ settle (applyLayoutState ls state_nested_ids) = state_nested_ids)
  ∧ obj_get (seatKey "a:b" 0) (assignments state_nested_ids) = Some (Some "g2")
  ∧ settle (handleRemoveTable "a" state_nested_ids)
    = mkApp (guests state_nested_ids)
            [mkTable "a:b" (Fin 1%Z) (mkPosition (Fin 10%Q) (Fin 20%Q))]
            [] ["g1"; "g2"] [] None
  ∧ obj_get (seatKey "a:b" 0) (assignments (handleRemoveTable "a" state_nested_ids))
    = None.
Proof.
  split_and!; [|reflexivity..].
  eexists. split; reflexivity.
Qed.

(** ** Returning guests to the pool *)

Lemma elem_of_uniq xs x : x ∈ uniq xs ↔ x ∈ xs.
Proof. unfold uniq. rewrite elem_of_uniq_from, elem_of_nil. tauto. Qed.

Lemma NoDup_uniq xs : NoDup (uniq xs).
Proof. apply NoDup_uniq_from. Qed.

(** The batch is put in front of what is left of the pool. *)
Lemma returnGuestsToPool_eq ids st :
  returnGuestsToPool ids st
  = setPool (filter (λ g, g ∈ guest_ids st) (uniq ids)
             ++ filter (λ g, g ∉ uniq ids) (pool st)) st.
Proof.
  unfold returnGuestsToPool. case_bool_decide as Hu.
  - rewrite Hu. simpl. rewrite filter_all; [by destruct st|].
    intros g _. apply not_elem_of_nil.
  - case_bool_decide as Hm; [|done]. by rewrite Hm.
Qed.

Lemma returnGuestsToPool_nil st : returnGuestsToPool [] st = st.
Proof. done. Qed.

Lemma returnGuestsToPool_one d st :
  pool (returnGuestsToPool [d] st)
  = (if decide (d ∈ guest_ids st) then [d] else [])
    ++ filter (λ g, g ≠ d) (pool st).
Proof.
  rewrite returnGuestsToPool_eq. simpl.
  change (uniq [d]) with [d]. f_equal.
  apply list_filter_iff. intros g.
  rewrite elem_of_cons, elem_of_nil. tauto.
Qed.

(** ** Seat keys *)

Lemma seatKey_inj_index t i j : seatKey t i = seatKey t j → i = j.
Proof.
  unfold seatKey. intros H.
  apply (inj (String.app t)) in H. apply (inj (String.app ":")) in H.
  by apply (inj pretty) in H.
Qed.

Lemma seatKey_nonempty t i : seatKey t i ≠ "".
Proof. unfold seatKey. destruct t; discriminate. Qed.

(** ** The effects after a handler *)

Lemma closeStaleMenu_frame st :
  guests (closeStaleMenu st) = guests st
  ∧ tables (closeStaleMenu st) = tables st
  ∧ assignments (closeStaleMenu st) = assignments st
  ∧ pool (closeStaleMenu st) = pool st
  ∧ selectedSeatKeys (closeStaleMenu st) = selectedSeatKeys st.
Proof.
  unfold closeStaleMenu. destruct (menuState st); [|done].
  by case_bool_decide.
Qed.

Lemma settle_frame st :
  guests (settle st) = guests st
  ∧ tables (settle st) = tables st
  ∧ assignments (settle st) = assignments st.
Proof.
  destruct (closeStaleMenu_frame st) as (Hg & Ht & Ha & _).
  unfold settle. simpl. done.
Qed.

Lemma settle_pool st :
  pool (settle st) = spec_reconciled_pool (guest_ids st) (assignments st) (pool st).
Proof.
  destruct (closeStaleMenu_frame st) as (Hg & Ht & Ha & Hp & _).
  unfold settle, clearSelectionIfMissing, setSelectedSeatKeys. cbn [pool].
  rewrite reconcilePool_pool.
  unfold guest_ids. by rewrite Hg, Ha, Hp.
Qed.

Lemma settle_selection st :
  selectedSeatKeys (settle st)
  = filter (λ key, is_Some (truthy (obj_get key (assignments st))))
           (selectedSeatKeys st).
Proof.
  destruct (closeStaleMenu_frame st) as (Hg & Ht & Ha & Hp & Hs).
  unfold settle. simpl. by rewrite Ha, Hs.
Qed.

(** ** Moving a guest *)

Lemma initialState_default : initialState None = Some default_state.
Proof. reflexivity. Qed.

(** C3, as stated, fails when the two seats are the same one: dropping a
    seated guest on the seat it sits on writes the guest and then clears
    the origin, which is the same key, and the seat ends up empty. *)
Lemma assignGuest_same_seat_empties :
  "guest-1" ∈ guest_ids state_one_seated
  ∧ obj_get (seatKey "table-1" 0) (assignments state_one_seated)
    = Some (Some "guest-1")
  ∧ obj_get (seatKey "table-1" 0)
      (assignments (assignGuestToSeat "guest-1" "table-1" 0
                      (Some (seatKey "table-1" 0)) state_one_seated))
    ≠ Some (Some "guest-1").
Proof.
  split_and!; [by left|reflexivity|by vm_compute].
Qed.

Lemma assignGuestToSeat_unknown g t i from st :
  g ∉ guest_ids st → assignGuestToSeat g t i from st = st.
Proof.
  intros Hg. unfold assignGuestToSeat.
  apply has_false in Hg. by rewrite Hg.
Qed.

(** The handler on a known guest, piece by piece. *)
Lemma assignGuestToSeat_known g t i from st :
  g ∈ guest_ids st →
  let key := seatKey t i in
  let written := obj_set key (Some g) (assignments st) in
  let st' := assignGuestToSeat g t i from st in
  guests st' = guests st ∧ tables st' = tables st
  ∧ menuState st' = menuState st
  ∧ selectedSeatKeys st' = [key]
  ∧ assignments st'
    = match from with
      | Some f => if decide (f = "") then written else obj_set f None written
      | None => written
      end
  ∧ pool st'
    = match truthy (obj_get key (assignments st)) with
      | Some d =>
          if decide (d = g) then pool st
          else (if decide (d ∈ guest_ids st) then [d] else [])
               ++ filter (λ x, x ≠ d) (pool st)
      | None => pool st
      end.
Proof.
  intros Hg. cbv zeta. unfold assignGuestToSeat.
  apply has_true in Hg. rewrite Hg. simpl.
  destruct (truthy (obj_get (seatKey t i) (assignments st))) as [d|]; [|done].
  destruct (decide (d = g)); [done|].
  rewrite <-returnGuestsToPool_one. rewrite returnGuestsToPool_eq. done.
Qed.

Lemma assignGuest_move_raw st g tA iA tB iB :
  let A := seatKey tA iA in
  let B := seatKey tB iB in
  let st' := assignGuestToSeat g tB iB (Some A) st in
  g ∈ guest_ids st →
  obj_get A (assignments st) = Some (Some g) →
  A ≠ B →
  spec_moved st st' g A B.
Proof.
  intros A B st' Hg HA Hne.
  destruct (assignGuestToSeat_known g tB iB (Some A) st Hg)
    as (Hgs & Hts & _ & Hsel & Hm & Hp).
  fold B in Hsel, Hm, Hp. fold st' in Hgs, Hts, Hsel, Hm, Hp.
  rewrite decide_False in Hm by apply seatKey_nonempty.
  unfold spec_moved. split_and!; try done.
  - by rewrite Hm, obj_get_set_eq.
  - rewrite Hm, obj_get_set_ne by done. apply obj_get_set_eq.
  - intros k HkA HkB. rewrite Hm, !obj_get_set_ne by done. done.
  - rewrite Hp. destruct (truthy _) as [d|]; [|done].
    destruct (decide (d = g)) as [->|Hd]; [done|].
    rewrite filter_app, list_filter_filter.
    rewrite (filter_none _ (if decide (d ∈ guest_ids st) then [d] else [])).
    + simpl. apply list_filter_iff. intros x. split; [tauto|].
      intros ->. split; [done|congruence].
    + intros x Hx ->. case_decide; [|by apply elem_of_nil in Hx].
      by apply list_elem_of_singleton in Hx.
  - intros d Hd Hdg Hknown. rewrite Hp, Hd.
    by rewrite decide_False, decide_True.
  - intros [Hn|Hs]; rewrite Hp; [by rewrite Hn|].
    rewrite Hs. by rewrite decide_True.
Qed.

(** After the effects that follow the move, [g] is not in the pool and,
    unless its id is the empty string, seat [B] is still the selection. *)
Lemma assignGuest_move_settled st g tA iA tB iB :
  let A := seatKey tA iA in
  let B := seatKey tB iB in
  let st' := settle (assignGuestToSeat g tB iB (Some A) st) in
  g ∈ guest_ids st → A ≠ B →
  (g ∉ pool st')
  ∧ obj_get A (assignments st') = Some None
  ∧ obj_get B (assignments st') = Some (Some g)
  ∧ (g ≠ "" → selectedSeatKeys st' = [B]).
Proof.
  intros A B st' Hg Hne.
  destruct (assignGuestToSeat_known g tB iB (Some A) st Hg)
    as (Hgs & Hts & _ & Hsel & Hm & Hp).
  fold B in Hsel, Hm, Hp.
  rewrite decide_False in Hm by apply seatKey_nonempty.
  destruct (settle_frame (assignGuestToSeat g tB iB (Some A) st)) as (_ & _ & Ha).
  fold st' in Ha. rewrite Hm in Ha.
  assert (obj_get B (assignments st') = Some (Some g)) as HB.
  { rewrite Ha, obj_get_set_ne by done. apply obj_get_set_eq. }
  split_and!.
  - unfold st'. rewrite settle_pool, elem_of_spec_reconciled_pool.
    intros [_ Hs]. apply Hs.
    apply seated_elem. exists B. apply obj_get_elem.
    rewrite Hm, obj_get_set_ne by done. apply obj_get_set_eq.
  - by rewrite Ha, obj_get_set_eq.
  - done.
  - intros Hg0. unfold st'. rewrite settle_selection, Hsel, Hm.
    rewrite filter_cons, filter_nil.
    rewrite obj_get_set_ne by done. rewrite obj_get_set_eq. simpl.
    destruct (decide (g = "")); [done|]. by rewrite decide_True.
Qed.

(** C3, amended.  For a known guest [g] sitting on seat [A] and a seat [B]
    other than [A], the move leaves [A] empty and [B] holding [g], touches
    no other seat, leaves the occurrences of [g] in the pool as they were
    (and after the effects that follow, [g] is not in the pool), puts a
    displaced occupant of [B] that is a known guest other than [g] at the
    front of the pool, and sets the selection to exactly [B]; guests and
    tables are not touched.  With an unknown guest id the call returns the
    state as it is. *)
Theorem assignGuest_move st g tA iA tB iB :
  let A := seatKey tA iA in
  let B := seatKey tB iB in
  let st' := assignGuestToSeat g tB iB (Some A) st in
  g ∈ guest_ids st →
  obj_get A (assignments st) = Some (Some g) →
  A ≠ B →
  spec_moved st st' g A B
  ∧ (g ∉ pool (settle st'))
  ∧ (g ≠ "" → selectedSeatKeys (settle st') = [B])
  ∧ (∀ g' t i from, g' ∉ guest_ids st → assignGuestToSeat g' t i from st = st).
Proof.
  intros A B st' Hg HA Hne. split_and!.
  - by apply assignGuest_move_raw.
  - by apply (assignGuest_move_settled st g tA iA tB iB).
  - by apply (assignGuest_move_settled st g tA iA tB iB).
  - intros. by apply assignGuestToSeat_unknown.
Qed.

Lemma assignGuest_move_witness :
  "guest-1" ∈ guest_ids state_one_seated
  ∧ obj_get (seatKey "table-1" 0) (assignments state_one_seated)
    = Some (Some "guest-1")
  ∧ seatKey "table-1" 0 ≠ seatKey "table-1" 1
  ∧ spec_moved state_one_seated
      (assignGuestToSeat "guest-1" "table-1" 1 (Some (seatKey "table-1" 0))
                         state_one_seated)
      "guest-1" (seatKey "table-1" 0) (seatKey "table-1" 1).
Proof.
  assert ("guest-1" ∈ guest_ids state_one_seated) as H1 by (by left).
  assert (seatKey "table-1" 0 ≠ seatKey "table-1" 1) as H3 by (by vm_compute).
  split_and!; [done|reflexivity|done|].
  exact (proj1 (assignGuest_move state_one_seated "guest-1" "table-1" 0
                  "table-1" 1 H1 eq_refl H3)).
Defined.

(** ** Resizing a table *)

Lemma sanitize_range x :
  x ≠ NaN → ∃ n, sanitize x = Fin n ∧ (1 ≤ n ≤ 24)%Z.
Proof.
  intros Hx. destruct x as [| | |q]; [done|..].
  - exists 24%Z. split; [done|lia].
  - exists 1%Z. split; [done|lia].
  - exists (Z.max 1 (Z.min 24 (Qfloor q))). split; [done|lia].
Qed.

Lemma sanitize_finite q :
  sanitize (Fin q) = Fin (Z.max 1 (Z.min 24 (Qfloor q))).
Proof. done. Qed.

Lemma omap_ext_in {A B} (f g : A → option B) (l : list A) :
  (∀ x, x ∈ l → f x = g x) → omap f l = omap g l.
Proof.
  induction l as [|x l IH]; intros Hl; [done|]. csimpl.
  rewrite (Hl x) by (by left). rewrite IH; [done|].
  intros y Hy. apply Hl. by right.
Qed.

Lemma drop_seats_get tid idxs m r k :
  obj_get k (foldl (drop_seat tid) (m, r) idxs).1
  = if decide (k ∈ seatKey tid <$> idxs) then None else obj_get k m.
Proof.
  revert m r. induction idxs as [|i idxs IH]; intros m r; csimpl.
  - done.
  - rewrite IH. destruct (decide (k = seatKey tid i)) as [->|Hne].
    + rewrite obj_get_delete_eq.
      rewrite (decide_True (P := _ ∈ _ :: _)) by (by left).
      by case_decide.
    + rewrite obj_get_delete_ne by done.
      destruct (decide (k ∈ seatKey tid <$> idxs)) as [Hin|Hin].
      * rewrite decide_True; [done|by right].
      * rewrite decide_False; [done|]. rewrite not_elem_of_cons. done.
Qed.

Lemma drop_seats_returning tid idxs m r :
  NoDup idxs →
  (foldl (drop_seat tid) (m, r) idxs).2 = r ++ seat_occupants tid m idxs.
Proof.
  revert m r. induction idxs as [|i idxs IH]; intros m r Hnd; csimpl.
  - by rewrite app_nil_r.
  - apply NoDup_cons in Hnd as [Hi Hnd]. rewrite IH by done.
    assert (seat_occupants tid (obj_delete (seatKey tid i) m) idxs
            = seat_occupants tid m idxs) as ->.
    { unfold seat_occupants. apply omap_ext_in. intros j Hj.
      rewrite obj_get_delete_ne; [done|].
      intros ->%seatKey_inj_index. done. }
    unfold seat_occupants at 2. csimpl.
    destruct (truthy (obj_get (seatKey tid i) m)); simpl; [|done].
    by rewrite <-app_assoc.
Qed.

Lemma add_seats_get tid idxs m k :
  obj_get k (foldl (λ next i, obj_set (seatKey tid i) None next) m idxs)
  = if decide (k ∈ seatKey tid <$> idxs) then Some None else obj_get k m.
Proof.
  revert m. induction idxs as [|i idxs IH]; intros m; csimpl.
  - done.
  - rewrite IH. destruct (decide (k ∈ seatKey tid <$> idxs)) as [Hin|Hin].
    + rewrite decide_True; [done|by right].
    + rewrite obj_get_set. destruct (decide (seatKey tid i = k)) as [<-|Hne].
      * rewrite decide_True; [done|by left].
      * rewrite decide_False; [done|]. rewrite not_elem_of_cons. done.
Qed.

Lemma elem_of_seat_range tid a len k :
  k ∈ seatKey tid <$> seqZ a len ↔ ∃ i, (a ≤ i < a + len)%Z ∧ k = seatKey tid i.
Proof.
  rewrite list_elem_of_fmap. split.
  - intros (i & -> & Hi%elem_of_seqZ). by exists i.
  - intros (i & Hi & ->). exists i. by rewrite elem_of_seqZ.
Qed.

Lemma find_table tid ts table :
  find (λ entry, bool_decide (table_id entry = tid)) ts = Some table →
  table ∈ ts ∧ table_id table = tid.
Proof.
  intros [Hin Hid]%find_some. split.
  - by apply list_elem_of_In.
  - by apply bool_decide_eq_true in Hid.
Qed.

Lemma updateSeatCount_resized st tid x table old n :
  find (λ entry, bool_decide (table_id entry = tid)) (tables st) = Some table →
  seatCount table = Fin old →
  sanitize x = Fin n →
  n ≠ old →
  ∃ st', updateSeatCount tid x st = Some st' ∧ spec_resized st st' tid old n.
Proof.
  intros Hfind Hold Hn Hne. unfold updateSeatCount.
  rewrite Hfind, Hn, Hold. simpl.
  destruct (find_table _ _ _ Hfind) as [_ Hid]. rewrite Hid.
  rewrite bool_decide_eq_false_2 by done.
  case_bool_decide as Hlt.
  - unfold loop_indices. simpl.
    destruct (foldl (drop_seat tid) (assignments st, []) (seqZ n (old - n)))
      as [next returning] eqn:Hfold.
    eexists. split; [done|].
    pose proof (drop_seats_get tid (seqZ n (old - n)) (assignments st) []) as Hget.
    pose proof (drop_seats_returning tid (seqZ n (old - n)) (assignments st) []
                  (NoDup_seqZ _ _)) as Hret.
    rewrite Hfold in Hget, Hret. simpl in Hget, Hret.
    unfold spec_resized. rewrite returnGuestsToPool_eq. simpl.
    split_and!; try done.
    + intros _. split_and!.
      * intros i Hi. rewrite Hget, decide_True; [done|].
        apply elem_of_seat_range. exists i. split; [lia|done].
      * intros k Hk. rewrite Hget, decide_False; [done|].
        intros (i & Hi & ->)%elem_of_seat_range. apply (Hk i); [lia|done].
      * by rewrite Hret.
      * intros Hstale i Hi. rewrite Hget. case_decide; [done|].
        destruct (decide (i < old)%Z) as [Hio|Hio].
        -- exfalso. match goal with H : _ ∉ _ |- _ => apply H end.
           apply elem_of_seat_range. exists i. split; [lia|done].
        -- apply Hstale. lia.
    + intros ?. lia.
    + intros i Hi. rewrite Hget, decide_False; [done|].
      intros (j & Hj & ->%seatKey_inj_index)%elem_of_seat_range. lia.
  - unfold loop_indices. simpl. eexists. split; [done|].
    unfold spec_resized. simpl.
    split_and!; try done.
    + intros _. split_and!; [| |done].
      * intros i Hi. rewrite add_seats_get, decide_True; [done|].
        apply elem_of_seat_range. exists i. split; [lia|done].
      * intros k Hk. rewrite add_seats_get, decide_False; [done|].
        intros (i & Hi & ->)%elem_of_seat_range. apply (Hk i); [lia|done].
    + intros i Hi. rewrite add_seats_get, decide_False; [done|].
      intros (j & Hj & ->%seatKey_inj_index)%elem_of_seat_range. lia.
Qed.



Example shrink_returns_guests :
  (λ st, (tables st, assignments st, pool st))
    <$> updateSeatCount "table-1" (Fin (5 # 2)%Q) state_four_seated
  = Some ([mkTable "table-1" (Fin 2%Z) (mkPosition (Fin 120%Q) (Fin 100%Q));
           mkTable "table-2" (Fin 8%Z) (mkPosition (Fin 420%Q) (Fin 300%Q))],
          [("table-1:0", Some "guest-1"); ("table-1:1", Some "guest-2");
           ("table-2:0", None); ("table-2:1", None); ("table-2:2", None);
           ("table-2:3", None); ("table-2:4", None); ("table-2:5", None);
           ("table-2:6", None); ("table-2:7", None)],
          ["guest-3"; "guest-4"; "guest-5"; "guest-6"; "guest-7"; "guest-8";
           "guest-9"; "guest-10"; "guest-11"; "guest-12"]).
Proof. reflexivity. Qed.


(** ** Removing a table: what it does *)

Lemma remove_keys_get t keys m r k :
  obj_get k (foldl (remove_key t) (m, r) keys).1
  = if decide (k ∈ keys ∧ String.prefix (t +:+ ":") k) then None else obj_get k m.
Proof.
  revert m r. induction keys as [|key keys IH]; intros m r; simpl.
  - done.
  - destruct (String.prefix (t +:+ ":") key) eqn:Hp.
    + rewrite IH. destruct (decide (k = key)) as [->|Hne].
      * rewrite obj_get_delete_eq.
        rewrite (decide_True (P := key ∈ key :: keys ∧ _)).
        2:{ split; [by left|by rewrite Hp]. }
        by case_decide.
      * rewrite obj_get_delete_ne by done.
        apply decide_ext. rewrite elem_of_cons. split; [tauto|].
        intros [[?|?] ?]; done.
    + rewrite IH. apply decide_ext. rewrite elem_of_cons. split; [tauto|].
      intros [[->|?] Hk]; [|done]. by rewrite Hp in Hk.
Qed.

(** What removing a table does: the entries under the keys that start with
    the table id and a colon are deleted, all other entries stay; the
    tables with that id leave the table list; the selection loses the keys
    with that prefix; the menu is closed; the guests are not touched. *)
Lemma handleRemoveTable_spec t st :
  let st' := handleRemoveTable t st in
  guests st' = guests st
  ∧ tables st' = filter (λ table, table_id table ≠ t) (tables st)
  ∧ (∀ k, obj_get k (assignments st')
          = if String.prefix (t +:+ ":") k then None else obj_get k (assignments st))
  ∧ selectedSeatKeys st'
    = filter (λ key, ¬ String.prefix (t +:+ ":") key) (selectedSeatKeys st)
  ∧ menuState st' = None.
Proof.
  cbv zeta. unfold handleRemoveTable.
  pose proof (remove_keys_get t (obj_keys (assignments st)) (assignments st) [])
    as Hget.
  destruct (foldl (remove_key t) (assignments st, []) (obj_keys (assignments st)))
    as [next r].
  rewrite returnGuestsToPool_eq. simpl in *. split_and!; try done.
  intros k. rewrite Hget. destruct (String.prefix (t +:+ ":") k) eqn:Hp.
  - case_decide as Hk; [done|]. apply obj_get_None. intros Hin. by apply Hk.
  - rewrite decide_False; [done|]. by intros [_ Hk].
Qed.

(** ** Sequences of operations *)

Lemma same_elements (l k : list string) :
  l ⊆ k → k ⊆ l → ∀ x, x ∈ l ↔ x ∈ k.
Proof. intros Hl Hk x. split; [apply Hl|apply Hk]. Qed.

(** C1, as stated, fails: [assignGuest] called twice for the same guest of
    the default layout, without an origin seat, leaves the guest on two
    seats. *)
Lemma assign_twice_two_seats :
  ∃ st, run [AssignGuest "guest-1" "table-1" 0 None;
             AssignGuest "guest-1" "table-1" 1 None] (settle default_state)
        = Some st
        ∧ spec_core_invariant (settle default_state)
        ∧ ¬ spec_core_invariant st.
Proof.
  eexists. split; [reflexivity|]. split.
  - split.
    + apply same_elements; apply (bool_decide_unpack _); by vm_compute.
    + apply (bool_decide_unpack _). by vm_compute.
  - intros [_ Hnd]. revert Hnd. apply (bool_decide_eq_false _). by vm_compute.
Qed.

(** *** Objects that only lose occupants *)

Lemma shrinks_refl m : shrinks m m.
Proof. by intros k g. Qed.

Lemma shrinks_trans m1 m2 m3 : shrinks m1 m2 → shrinks m2 m3 → shrinks m1 m3.
Proof. intros H12 H23 k g Hin. by apply H12, H23. Qed.

Lemma shrinks_set_None k m : shrinks m (obj_set k None m).
Proof. intros k' g [[=]|Hin]%elem_of_obj_set_1. done. Qed.

Lemma shrinks_delete k m : shrinks m (obj_delete k m).
Proof. intros k' g [Hin _]%elem_of_obj_delete. done. Qed.

Lemma shrinks_known m m' (G : list string) :
  shrinks m m' → (∀ k g, (k, Some g) ∈ m → g ∈ G) → ∀ k g, (k, Some g) ∈ m' → g ∈ G.
Proof. intros Hs Hk k g Hin. eapply Hk, Hs, Hin. Qed.

Lemma shrinks_one_seat m m' : shrinks m m' → one_seat_each m → one_seat_each m'.
Proof. intros Hs H1 k k' g Hk Hk'. eapply H1; by apply Hs. Qed.

Lemma release_seats_shrinks keys m r :
  shrinks m (foldl release_seat (m, r) keys).1
  ∧ (NoDup (obj_keys m) → NoDup (obj_keys (foldl release_seat (m, r) keys).1)).
Proof.
  revert m r. induction keys as [|key keys IH]; intros m r; simpl.
  - split; [apply shrinks_refl|done].
  - destruct (truthy (obj_get key m)) as [g|].
    + destruct (IH (obj_set key None m) (r ++ [g])) as [Hs Hnd]. split.
      * eapply shrinks_trans; [apply shrinks_set_None|done].
      * intros ?. by apply Hnd, NoDup_obj_keys_set.
    + apply IH.
Qed.

Lemma drop_seats_shrinks tid idxs m r :
  shrinks m (foldl (drop_seat tid) (m, r) idxs).1
  ∧ (NoDup (obj_keys m) → NoDup (obj_keys (foldl (drop_seat tid) (m, r) idxs).1)).
Proof.
  revert m r. induction idxs as [|i idxs IH]; intros m r; simpl.
  - split; [apply shrinks_refl|done].
  - match goal with |- context [foldl _ (?m1, ?r1) idxs] =>
      destruct (IH m1 r1) as [Hs Hnd] end.
    split.
    + eapply shrinks_trans; [apply shrinks_delete|done].
    + intros ?. by apply Hnd, NoDup_obj_keys_delete.
Qed.

Lemma add_seats_shrinks tid idxs m :
  shrinks m (foldl (λ next i, obj_set (seatKey tid i) None next) m idxs)
  ∧ (NoDup (obj_keys m) →
     NoDup (obj_keys (foldl (λ next i, obj_set (seatKey tid i) None next) m idxs))).
Proof.
  revert m. induction idxs as [|i idxs IH]; intros m; simpl.
  - split; [apply shrinks_refl|done].
  - destruct (IH (obj_set (seatKey tid i) None m)) as [Hs Hnd]. split.
    + eapply shrinks_trans; [apply shrinks_set_None|done].
    + intros ?. by apply Hnd, NoDup_obj_keys_set.
Qed.

Lemma remove_keys_shrinks tid keys m r :
  shrinks m (foldl (remove_key tid) (m, r) keys).1
  ∧ (NoDup (obj_keys m) → NoDup (obj_keys (foldl (remove_key tid) (m, r) keys).1)).
Proof.
  revert m r. induction keys as [|key keys IH]; intros m r; simpl.
  - split; [apply shrinks_refl|done].
  - destruct (String.prefix (tid +:+ ":") key); [|apply IH].
    match goal with |- context [foldl _ (?m1, ?r1) keys] =>
      destruct (IH m1 r1) as [Hs Hnd] end.
    split.
    + eapply shrinks_trans; [apply shrinks_delete|done].
    + intros ?. by apply Hnd, NoDup_obj_keys_delete.
Qed.

(** *** The pool after the effects *)

Lemma settle_pool_consistent st : pool_consistent (settle st).
Proof.
  destruct (settle_frame st) as (Hg & _ & Ha).
  unfold pool_consistent, guest_ids. rewrite Hg, Ha, settle_pool. split.
  - apply NoDup_spec_reconciled_pool.
  - intros g. apply elem_of_spec_reconciled_pool.
Qed.

Lemma settle_well_formed st : well_formed st → well_formed (settle st).
Proof.
  destruct (settle_frame st) as (Hg & Ht & Ha).
  intros [H1 H2 H3]. split; unfold guest_ids; rewrite ?Hg, ?Ht, ?Ha; done.
Qed.

(** *** The invariant of the specification, in parts *)

Lemma elem_of_seated_ids st g : g ∈ seated_ids st ↔ seated (assignments st) g.
Proof.
  unfold seated_ids, seated. rewrite list_elem_of_omap. split.
  - intros ([x|] & Hin & Hx); simplify_eq/=. done.
  - intros Hin. by exists (Some g).
Qed.

Lemma NoDup_seated_one_seat (m : Assignments) :
  NoDup (obj_keys m) →
  NoDup (omap id (obj_values m)) ↔ one_seat_each m.
Proof.
  unfold obj_keys, obj_values, one_seat_each.
  induction m as [|[k v] m IH]; csimpl; intros Hk.
  - split; [|constructor]. intros _ k k' g Hin. by apply elem_of_nil in Hin.
  - apply NoDup_cons in Hk as [Hk Hnd]. specialize (IH Hnd).
    assert (∀ k' g, (k', Some g) ∈ m → g ∈ omap id m.*2) as Hval.
    { intros k' g Hin. apply list_elem_of_omap. exists (Some g). split; [|done].
      apply list_elem_of_fmap. by exists (k', Some g). }
    assert (∀ g, g ∈ omap id m.*2 → ∃ k', (k', Some g) ∈ m) as Hval'.
    { intros g ([x|] & Hin & Hx)%list_elem_of_omap; simplify_eq/=.
      apply list_elem_of_fmap in Hin as ([k' v'] & -> & Hin). by exists k'. }
    assert (∀ v', (k, v') ∉ m) as Hkm.
    { intros v' Hin. apply Hk, list_elem_of_fmap. by exists (k, v'). }
    destruct v as [g|]; simpl.
    + rewrite NoDup_cons, IH. split.
      * intros [Hg H1] k1 k2 g' [?|H1g]%elem_of_cons [?|H2g]%elem_of_cons;
          simplify_eq; try done.
        -- destruct Hg. by eapply Hval.
        -- destruct Hg. by eapply Hval.
        -- by eapply H1.
      * intros H1. split.
        -- intros (k' & Hin)%Hval'.
           assert (k = k') as <- by (eapply H1; [by left|by right]).
           by eapply Hkm.
        -- intros k1 k2 g' ? ?. eapply H1; by right.
    + rewrite IH. split.
      * intros H1 k1 k2 g' [[=]|H1g]%elem_of_cons [[=]|H2g]%elem_of_cons.
        by eapply H1.
      * intros H1 k1 k2 g' ? ?. eapply H1; by right.
Qed.

Lemma spec_core_invariant_parts st :
  well_formed st →
  spec_core_invariant st
  ↔ pool_consistent st ∧ one_seat_each (assignments st).
Proof.
  intros [Hk Hknown _]. unfold spec_core_invariant, pool_consistent.
  rewrite NoDup_app, <-NoDup_seated_one_seat by done.
  fold (seated_ids st).
  setoid_rewrite elem_of_app. setoid_rewrite elem_of_seated_ids.
  split.
  - intros [Hm (Hp & Hd & Hs)]. split_and!; try done.
    intros g. split.
    + intros Hg. split; [apply Hm; by left|by apply Hd].
    + intros [Hg Hns]. apply Hm in Hg as [?|?]; done.
  - intros [[Hp Hm] Hs]. split_and!; try done.
    + intros g. split.
      * intros [Hg|(k & Hin)%seated_elem]; [by apply Hm|by eapply Hknown].
      * intros Hg. destruct (decide (seated (assignments st) g)); [by right|].
        left. by apply Hm.
    + intros g Hg Hsg. by apply Hm in Hg as [_ ?].
Qed.

(** *** One operation *)

Lemma obj_keys_unique (m : Assignments) k v v' :
  NoDup (obj_keys m) → (k, v) ∈ m → (k, v') ∈ m → v = v'.
Proof.
  intros Hnd H1 H2.
  apply (obj_get_NoDup _ _ _ Hnd) in H1. apply (obj_get_NoDup _ _ _ Hnd) in H2.
  congruence.
Qed.

Lemma elem_of_obj_set_NoDup k v m kv :
  NoDup (obj_keys m) →
  kv ∈ obj_set k v m ↔ kv = (k, v) ∨ (kv ∈ m ∧ kv.1 ≠ k).
Proof.
  intros Hnd. split.
  - intros Hin. destruct (decide (kv.1 = k)) as [Hk|Hk].
    + left. destruct kv as [k' v']. simpl in Hk. subst k'. f_equal.
      eapply obj_keys_unique; [by apply NoDup_obj_keys_set|done|].
      apply elem_of_obj_set_new.
    + right. apply elem_of_obj_set_1 in Hin as [->|?]; done.
  - intros [->|[Hin Hk]]; [apply elem_of_obj_set_new|by apply elem_of_obj_set_old].
Qed.

(** Writing guest [g] on seat [B]. *)
Lemma write_known B g m (G : list string) :
  g ∈ G → (∀ k x, (k, Some x) ∈ m → x ∈ G) →
  ∀ k x, (k, Some x) ∈ obj_set B (Some g) m → x ∈ G.
Proof.
  intros Hg Hm k x [[= -> ->]|Hin]%elem_of_obj_set_1; [done|by eapply Hm].
Qed.

Lemma write_from_pool B g m :
  NoDup (obj_keys m) → one_seat_each m → ¬ seated m g →
  one_seat_each (obj_set B (Some g) m).
Proof.
  intros Hnd H1 Hns k k' x.
  rewrite !elem_of_obj_set_NoDup by done.
  intros [?|[Hin Hk]] [?|[Hin' Hk']]; simplify_eq/=; try done.
  - destruct Hns. apply seated_elem. by exists k'.
  - destruct Hns. apply seated_elem. by exists k.
  - by eapply H1.
Qed.

Lemma write_from_seat A B g m :
  NoDup (obj_keys m) → one_seat_each m → obj_get A m = Some (Some g) →
  one_seat_each (obj_set A None (obj_set B (Some g) m)).
Proof.
  intros Hnd H1 HA%obj_get_elem k k' x.
  rewrite !elem_of_obj_set_NoDup by (by try apply NoDup_obj_keys_set).
  intros [?|[[?|[Hin Hk]] HkA]] [?|[[?|[Hin' Hk']] HkA']]; simplify_eq/=; try done.
  - destruct HkA'. by eapply H1.
  - destruct HkA. by eapply H1.
  - by eapply H1.
Qed.

Lemma sanitize_cases x : sanitize x = NaN ∨ ∃ n, sanitize x = Fin n.
Proof.
  destruct x as [| | |q]; [by left|right..].
  - by exists 24%Z.
  - by exists 1%Z.
  - by eexists.
Qed.

Lemma loop_indices_total lo hi :
  lo ≠ NegInf → hi ≠ PosInf → is_Some (loop_indices lo hi).
Proof. destruct lo, hi; done. Qed.

Lemma step_handler op st : step op st = settle <$> handler op st.
Proof. done. Qed.

Lemma assign_preserves g t i from st :
  well_formed st →
  let st1 := assignGuestToSeat g t i from st in
  well_formed st1 ∧ guests st1 = guests st
  ∧ (one_seat_each (assignments st) →
     op_from_interface st (AssignGuest g t i from) →
     one_seat_each (assignments st1)).
Proof.
  intros [Hk Hknown Hc]. cbv zeta.
  destruct (decide (g ∈ guest_ids st)) as [Hg|Hg].
  2:{ rewrite assignGuestToSeat_unknown by done. by split_and!. }
  destruct (assignGuestToSeat_known g t i from st Hg) as (Hgs & Hts & _ & _ & Hm & _).
  set (st1 := assignGuestToSeat g t i from st) in *.
  set (B := seatKey t i) in *.
  assert (∀ k x, (k, Some x) ∈ obj_set B (Some g) (assignments st) → x ∈ guest_ids st)
    as Hw by (by apply write_known).
  split_and!; [split| |].
  - rewrite Hm. destruct from as [f|]; [case_decide|];
      repeat apply NoDup_obj_keys_set; done.
  - unfold guest_ids. rewrite Hgs, Hm. fold (guest_ids st).
    destruct from as [f|]; [case_decide|]; try done.
    eapply shrinks_known; [apply shrinks_set_None|done].
  - by rewrite Hts.
  - done.
  - intros H1 Hop. rewrite Hm. simpl in Hop.
    destruct from as [f|]; [case_decide|].
    + by apply write_from_pool.
    + by apply write_from_seat.
    + by apply write_from_pool.
Qed.

Lemma release_preserves keys st :
  well_formed st →
  let st1 := releaseSelectedSeats (setSelectedSeatKeys keys st) in
  well_formed st1 ∧ guests st1 = guests st
  ∧ shrinks (assignments st) (assignments st1).
Proof.
  intros [Hk Hknown Hc]. cbv zeta. unfold releaseSelectedSeats.
  case_bool_decide as Hsel.
  { split_and!; [by split|done|apply shrinks_refl]. }
  simpl.
  destruct (release_seats_shrinks keys (assignments st) []) as [Hs Hnd].
  destruct (foldl release_seat (assignments st, []) keys) as [next r].
  rewrite returnGuestsToPool_eq. simpl in *.
  split_and!; [split| |]; simpl; try done.
  - by apply Hnd.
  - by eapply shrinks_known.
Qed.

Lemma remove_preserves t st :
  well_formed st →
  let st1 := handleRemoveTable t st in
  well_formed st1 ∧ guests st1 = guests st
  ∧ shrinks (assignments st) (assignments st1).
Proof.
  intros [Hk Hknown Hc]. cbv zeta. unfold handleRemoveTable.
  destruct (remove_keys_shrinks t (obj_keys (assignments st)) (assignments st) [])
    as [Hs Hnd].
  destruct (foldl (remove_key t) (assignments st, []) (obj_keys (assignments st)))
    as [next r].
  rewrite returnGuestsToPool_eq. simpl in *.
  split_and!; [split| |]; simpl; try done.
  - by apply Hnd.
  - by eapply shrinks_known.
  - intros t' [_ Ht']%list_elem_of_filter. by apply Hc.
Qed.

Lemma resize_preserves t x st :
  well_formed st →
  ∃ st1, updateSeatCount t x st = Some st1
         ∧ well_formed st1 ∧ guests st1 = guests st
         ∧ shrinks (assignments st) (assignments st1).
Proof.
  intros [Hk Hknown Hc]. unfold updateSeatCount.
  destruct (find _ (tables st)) as [table|] eqn:Hfind.
  2:{ exists st. split_and!; [done|by split|done|apply shrinks_refl]. }
  destruct (find_table _ _ _ Hfind) as [Hin Hid].
  destruct (Hc _ Hin) as [Hpos Hneg].
  destruct (num_eq _ _).
  { exists st. split_and!; [done|by split|done|apply shrinks_refl]. }
  assert (∀ t', t' ∈ (λ entry, if decide (table_id entry = t)
                               then mkTable (table_id entry) (sanitize x) (position entry)
                               else entry) <$> tables st →
                seatCount t' ≠ PosInf ∧ seatCount t' ≠ NegInf) as Hc'.
  { intros t' (t0 & -> & Ht0)%list_elem_of_fmap. case_decide; [|by apply Hc].
    simpl. destruct (sanitize_cases x) as [->|[n ->]]; done. }
  assert (sanitize x ≠ NegInf ∧ sanitize x ≠ PosInf) as [Hs1 Hs2]
    by (destruct (sanitize_cases x) as [->|[n ->]]; done).
  destruct (num_lt _ _).
  - destruct (loop_indices_total (sanitize x) (seatCount table)) as [idxs ->];
      [done..|]. simpl.
    destruct (drop_seats_shrinks (table_id table) idxs (assignments st) [])
      as [Hs Hnd].
    destruct (foldl (drop_seat (table_id table)) (assignments st, []) idxs)
      as [next r].
    eexists. split; [done|]. rewrite returnGuestsToPool_eq. simpl in *.
    split_and!; [split| |]; simpl; try done.
    + by apply Hnd.
    + by eapply shrinks_known.
  - destruct (loop_indices_total (seatCount table) (sanitize x)) as [idxs ->];
      [done..|]. simpl.
    destruct (add_seats_shrinks (table_id table) idxs (assignments st))
      as [Hs Hnd].
    eexists. split; [done|].
    split_and!; [split| |]; simpl; try done.
    + by apply Hnd.
    + by eapply shrinks_known.
Qed.

Lemma handler_preserves op st :
  well_formed st →
  ∃ st1, handler op st = Some st1
         ∧ well_formed st1 ∧ guests st1 = guests st
         ∧ (one_seat_each (assignments st) → op_from_interface st op →
            one_seat_each (assignments st1)).
Proof.
  intros Hwf. destruct op as [g t i from|keys|t x|t]; simpl.
  - eexists. split; [done|]. by apply assign_preserves.
  - destruct (release_preserves keys st Hwf) as (? & ? & Hs).
    eexists. split_and!; try done. intros ? _. by eapply shrinks_one_seat.
  - destruct (resize_preserves t x st Hwf) as (st1 & ? & ? & ? & Hs).
    exists st1. split_and!; try done. intros ? _. by eapply shrinks_one_seat.
  - destruct (remove_preserves t st Hwf) as (? & ? & Hs).
    eexists. split_and!; try done. intros ? _. by eapply shrinks_one_seat.
Qed.

Lemma step_preserves op st :
  well_formed st →
  ∃ st', step op st = Some st'
         ∧ well_formed st' ∧ pool_consistent st' ∧ guests st' = guests st
         ∧ (one_seat_each (assignments st) → op_from_interface st op →
            one_seat_each (assignments st')).
Proof.
  intros Hwf. destruct (handler_preserves op st Hwf) as (st1 & Hh & Hwf1 & Hg & H1).
  exists (settle st1). rewrite step_handler, Hh.
  destruct (settle_frame st1) as (Hg' & _ & Ha').
  split_and!; try done.
  - by apply settle_well_formed.
  - apply settle_pool_consistent.
  - by rewrite Hg'.
  - by rewrite Ha'.
Qed.

(** *** Sequences *)

Lemma run_preserves ops st :
  well_formed st →
  ∃ st', run ops st = Some st'
         ∧ well_formed st' ∧ guests st' = guests st
         ∧ (pool_consistent st → pool_consistent st')
         ∧ (one_seat_each (assignments st) → from_interface ops st →
            one_seat_each (assignments st')).
Proof.
  revert st. induction ops as [|op ops IH]; intros st Hwf.
  - exists st. by split_and!.
  - destruct (step_preserves op st Hwf) as (st1 & Hstep & Hwf1 & Hp1 & Hg1 & H1).
    destruct (IH st1 Hwf1) as (st' & Hrun & Hwf' & Hg' & Hp' & H1').
    exists st'. simpl. rewrite Hstep. simpl. split_and!; try done.
    + by rewrite Hg'.
    + intros _. by apply Hp'.
    + intros Hone Hfi. cbn [from_interface] in Hfi.
      destruct Hfi as [Hop Hrest]. apply H1'; [|done]. by apply H1.
Qed.

(** C1, amended.  From a state whose assignment object names known guests
    only and that satisfies the core invariant, every sequence of
    [assignGuest], [releaseSeats], [resizeTable] and [removeTable], each
    followed by the effects, runs to a state with the same guests in which
    the pool has no duplicate and holds exactly the guest ids that are on no
    seat (so that pool and seated ids together are the guest ids, and are
    disjoint).  No guest is on two seats in that state, and the core
    invariant holds in full, when every [assignGuest] of the sequence names
    a guest that is in the pool, or the seat the guest sits on as its
    origin. *)
Theorem core_invariant_preserved st ops :
  well_formed st → spec_core_invariant st →
  ∃ st', run ops st = Some st'
         ∧ well_formed st'
         ∧ guest_ids st' = guest_ids st
         ∧ pool_consistent st'
         ∧ (∀ g, g ∈ pool st' ++ seated_ids st' ↔ g ∈ guest_ids st')
         ∧ (from_interface ops st → spec_core_invariant st').
Proof.
  intros Hwf [Hp H1]%spec_core_invariant_parts; [|done].
  destruct (run_preserves ops st Hwf) as (st' & Hrun & Hwf' & Hg & Hp' & H1').
  specialize (Hp' Hp). exists st'. split_and!; try done.
  - unfold guest_ids. by rewrite Hg.
  - intros g. rewrite elem_of_app, elem_of_seated_ids.
    destruct Hp' as [_ Hm]. rewrite Hm. split.
    + intros [[? _]|(k & Hin)%seated_elem]; [done|].
      by eapply (wf_known _ Hwf').
    + intros Hg'. destruct (decide (seated (assignments st') g)); tauto.
  - intros Hops. apply spec_core_invariant_parts; [done|]. split; [done|].
    by apply H1'.
Qed.

Lemma default_state_well_formed : well_formed (settle default_state).
Proof.
  apply settle_well_formed.
  assert (buildEmptyAssignments DEFAULT_TABLES = Some (assignments default_state))
    as (_ & Hnd & He)%buildEmptyAssignments_spec by reflexivity.
  split; [done| |].
  - intros k g Hin. by apply He in Hin.
  - intros t Ht. unfold default_state, DEFAULT_TABLES in Ht. simpl in Ht.
    repeat (apply elem_of_cons in Ht as [->|Ht]; [done|]).
    by apply elem_of_nil in Ht.
Qed.

Lemma core_invariant_preserved_witness :
  well_formed (settle default_state)
  ∧ spec_core_invariant (settle default_state)
  ∧ ∃ st', run sample_session (settle default_state) = Some st'
           ∧ well_formed st'
           ∧ guest_ids st' = guest_ids (settle default_state)
           ∧ pool_consistent st'
           ∧ (∀ g, g ∈ pool st' ++ seated_ids st' ↔ g ∈ guest_ids st')
           ∧ (from_interface sample_session (settle default_state) →
              spec_core_invariant st').
Proof.
  assert (spec_core_invariant (settle default_state)) as Hinv.
  { split.
    - apply same_elements; apply (bool_decide_unpack _); by vm_compute.
    - apply (bool_decide_unpack _). by vm_compute. }
  split_and!; [apply default_state_well_formed|done|].
  exact (core_invariant_preserved (settle default_state) sample_session
           default_state_well_formed Hinv).
Defined.

Example sample_session_from_interface :
  from_interface sample_session (settle default_state).
Proof.
  unfold sample_session.
  repeat (split; [first [reflexivity | exact I
                        | apply (bool_decide_unpack _); by vm_compute]|];
          cbn [from_interface]; 
          match goal with
          | |- context [step ?op ?st] =>
              let r := eval vm_compute in (step op st) in
              change (step op st) with r; cbv iota beta
          end).
  exact I.
Qed.

(** ** The tables of a normalized layout *)

Lemma clean_table_spec N item t :
  clean_table N item = Some t →
  table_id t ≠ ""
  ∧ (seatCount t = PosInf ∨ ∃ n, seatCount t = Fin n ∧ (1 ≤ n)%Z)
  ∧ Number_isFinite (pos_x (position t)) = true
  ∧ Number_isFinite (pos_y (position t)) = true.
Proof.
  unfold clean_table. destruct (is_object (Some item)); simpl; [|done].
  case_bool_decide as Hid; simpl; [done|].
  destruct (number_or N NaN (prop "seatCount" item)) as [| | |q] eqn:Hc;
    simpl; [done|..]; intros [= <-]; simpl.
  all: split_and!; try done.
  all: try (unfold finite_or_zero; by destruct (number_or N (Fin 0%Q) _)).
  - by left.
  - right. exists 1%Z. done.
  - right. eexists. split; [done|lia].
Qed.

Lemma buildEmptyAssignments_from_finite ts m0 m :
  buildEmptyAssignments_from ts m0 = Some m →
  ∀ t, t ∈ ts → seatCount t ≠ PosInf.
Proof.
  revert m0. induction ts as [|t ts IH]; intros m0 Hb t' Ht'.
  - by apply elem_of_nil in Ht'.
  - simpl in Hb.
    destruct (loop_indices (Fin 0%Z) (seatCount t)) as [idxs|] eqn:Hidx; [|done].
    apply elem_of_cons in Ht' as [->|Ht'].
    + intros Hinf. by rewrite Hinf in Hidx.
    + by eapply IH.
Qed.

(** The tables of an accepted payload all have a non-empty id, an integer
    seat count of at least 1, and finite coordinates. *)
Lemma normalized_tables N payload ls :
  normalizeLayoutPayload N payload = Returns (Some ls) →
  ∀ t, t ∈ ls_tables ls →
    table_id t ≠ ""
    ∧ (∃ n, seatCount t = Fin n ∧ (1 ≤ n)%Z)
    ∧ Number_isFinite (pos_x (position t)) = true
    ∧ Number_isFinite (pos_y (position t)) = true.
Proof.
  intros (empty & entries & _ & _ & Ht & Hb & _)%normalize_accepts t Hin.
  pose proof (buildEmptyAssignments_from_finite _ _ _ Hb t Hin) as Hfin.
  rewrite Ht in Hin. apply list_elem_of_omap in Hin as (item & _ & Hc).
  apply clean_table_spec in Hc as (? & [?|?] & ? & ?); done.
Qed.

(** An imported layout is a well-formed state with a consistent pool. *)
Lemma normalized_well_formed N payload ls st0 :
  normalizeLayoutPayload N payload = Returns (Some ls) →
  well_formed (applyLayoutState ls st0)
  ∧ pool_consistent (applyLayoutState ls st0).
Proof.
  intros Hn. pose proof (normalized_tables _ _ _ Hn) as Ht.
  destruct (normalized_assignments _ _ _ Hn) as (Hnd & _ & _ & Hknown).
  destruct (normalized_pool _ _ _ Hn) as (Hpnd & Hpool).
  split; [split|split]; simpl; try done.
  intros t Hin. destruct (Ht t Hin) as (_ & (n & -> & _) & _). done.
Qed.

(** ** Export followed by import *)

Lemma json_of_guest_props g :
  is_object (Some (json_of_guest g)) = true
  ∧ prop "id" (json_of_guest g) = Some (JStr (guest_id g))
  ∧ prop "name" (json_of_guest g) = Some (JStr (guest_name g))
  ∧ prop "details" (json_of_guest g) = JStr <$> guest_details g.
Proof. destruct g as [i n [d|]]; by split_and!. Qed.

Lemma clean_guest_export g :
  guest_id g ≠ "" → guest_name g ≠ "" → clean_guest (json_of_guest g) = Some g.
Proof.
  intros Hi Hn. destruct (json_of_guest_props g) as (Ho & Hpi & Hpn & Hpd).
  unfold clean_guest. rewrite Ho, Hpi, Hpn, Hpd. simpl.
  rewrite !bool_decide_eq_false_2 by done. simpl.
  by destruct g as [i n [d|]].
Qed.

Lemma clean_guests_export (gs : list Guest) :
  (∀ g, g ∈ gs → guest_id g ≠ "" ∧ guest_name g ≠ "") →
  omap clean_guest (json_of_guest <$> gs) = gs.
Proof.
  induction gs as [|g gs IH]; intros Hgs; [done|]. csimpl.
  destruct (Hgs g) as [? ?]; [by left|].
  rewrite clean_guest_export by done. simpl. f_equal.
  apply IH. intros g' ?. apply Hgs. by right.
Qed.

Lemma Qfloor_inject_Z z : Qfloor (inject_Z z) = z.
Proof. unfold Qfloor, inject_Z. simpl. apply Z.div_1_r. Qed.

Lemma json_of_table_props t :
  let p := JObj [("x", json_of_number (pos_x (position t)));
                 ("y", json_of_number (pos_y (position t)))] in
  is_object (Some (json_of_table t)) = true
  ∧ prop "id" (json_of_table t) = Some (JStr (table_id t))
  ∧ prop "seatCount" (json_of_table t) = Some (json_of_whole (seatCount t))
  ∧ prop "position" (json_of_table t) = Some p
  ∧ prop "x" p = Some (json_of_number (pos_x (position t)))
  ∧ prop "y" p = Some (json_of_number (pos_y (position t))).
Proof. by split_and!. Qed.

Lemma clean_table_export N t n :
  seatCount t = Fin n → (1 ≤ n)%Z → exportable t →
  clean_table N (json_of_table t) = Some t.
Proof.
  intros Hc Hn (Hi & Hx & Hy).
  destruct (json_of_table_props t) as (Ho & Hpi & Hpc & Hpp & Hpx & Hpy).
  unfold clean_table. rewrite Ho, Hpi, Hpc, Hpp. simpl.
  rewrite Hc. simpl.
  rewrite bool_decide_eq_false_2 by done. simpl.
  rewrite Z.div_1_r, Z.max_r by lia.
  destruct t as [i c [x y]]. simpl in *. subst c.
  destruct x, y; done.
Qed.

Lemma clean_tables_export N (ts : list Table) :
  (∀ t, t ∈ ts → (∃ n, seatCount t = Fin n ∧ (1 ≤ n)%Z) ∧ exportable t) →
  omap (clean_table N) (json_of_table <$> ts) = ts.
Proof.
  induction ts as [|t ts IH]; intros Hts; [done|]. csimpl.
  destruct (Hts t) as [(n & Hc & Hn) Hex]; [by left|].
  rewrite (clean_table_export N t n) by done. simpl. f_equal.
  apply IH. intros t' ?. apply Hts. by right.
Qed.

Lemma buildEmptyAssignments_from_total ts m0 :
  (∀ t, t ∈ ts → seatCount t ≠ PosInf) →
  is_Some (buildEmptyAssignments_from ts m0).
Proof.
  revert m0. induction ts as [|t ts IH]; intros m0 Hts; simpl; [done|].
  destruct (loop_indices_total (Fin 0%Z) (seatCount t)) as [idxs ->];
    [done|apply Hts; by left|].
  apply IH. intros t' ?. apply Hts. by right.
Qed.

Lemma fill_entry_export (G : list string) o kv :
  kv.1 ∈ obj_keys (own o) →
  (∀ g, kv.2 = Some g → g ∈ G) →
  fill_entry G o (json_of_binding kv)
  = mkPlain (obj_set kv.1 kv.2 (own o)) (has_prototype o).
Proof.
  destruct kv as [k v]. simpl. intros Hk Hv.
  unfold fill_entry, json_of_binding, key_in. simpl.
  apply has_true in Hk as Hk'. rewrite Hk'. simpl.
  assert (∀ v', put k v' o = mkPlain (obj_set k v' (own o)) (has_prototype o)) as Hput.
  { intros v'. unfold put. rewrite Hk'. simpl. by rewrite !andb_false_r. }
  destruct v as [g|]; [|apply Hput].
  assert (has g G = true) as -> by (by apply has_true, Hv). apply Hput.
Qed.

Lemma fill_entries_export (G : list string) m o :
  (∀ k, k ∈ obj_keys m → k ∈ obj_keys (own o)) →
  (∀ k g, (k, Some g) ∈ m → g ∈ G) →
  foldl (fill_entry G) o (json_of_binding <$> m)
  = mkPlain (foldl (λ acc kv, obj_set kv.1 kv.2 acc) (own o) m) (has_prototype o).
Proof.
  revert o. induction m as [|[k v] m IH]; intros o Hk Hv.
  - by destruct o.
  - rewrite fmap_cons. cbn [foldl].
    rewrite (fill_entry_export G o (k, v)); simpl.
    + rewrite IH; [done| |].
      * intros k' Hk'. simpl. apply elem_of_obj_keys_set. right.
        apply Hk. by right.
      * intros k' g ?. eapply Hv. by right.
    + apply Hk. by left.
    + intros g ->. eapply Hv. by left.
Qed.

Lemma write_back_get (m e : Assignments) k :
  NoDup (obj_keys m) →
  obj_get k (foldl (λ acc kv, obj_set kv.1 kv.2 acc) e m)
  = match obj_get k m with
    | Some v => Some v
    | None => obj_get k e
    end.
Proof.
  revert e. induction m as [|[k0 v0] m IH]; intros e Hnd; [done|].
  unfold obj_keys in Hnd. csimpl in Hnd. apply NoDup_cons in Hnd as [Hk0 Hnd].
  simpl. rewrite IH by done. unfold obj_get at 3. simpl.
  destruct (decide (k = k0)) as [->|Hne].
  - assert (obj_get k0 m = None) as -> by (by apply obj_get_None).
    apply obj_get_set_eq.
  - fold (obj_get k m). destruct (obj_get k m); [done|].
    by apply obj_get_set_ne.
Qed.

Lemma write_back_NoDup (m e : Assignments) :
  NoDup (obj_keys e) →
  NoDup (obj_keys (foldl (λ acc kv, obj_set kv.1 kv.2 acc) e m)).
Proof.
  revert e. induction m as [|[k0 v0] m IH]; intros e Hnd; [done|].
  simpl. by apply IH, NoDup_obj_keys_set.
Qed.

Lemma strings_of_export (p : list string) : strings_of (JStr <$> p) = p.
Proof. induction p as [|x p IH]; [done|]. csimpl. by rewrite IH. Qed.

Lemma seated_get (m : Assignments) g :
  NoDup (obj_keys m) → seated m g ↔ ∃ k, obj_get k m = Some (Some g).
Proof.
  intros Hnd. rewrite seated_elem. split; intros [k Hk]; exists k.
  - by apply obj_get_NoDup.
  - by apply obj_get_elem.
Qed.

Lemma exportSnapshot_props st :
  let p := exportSnapshot st in
  is_object (Some p) = true
  ∧ prop "tables" p = Some (JArr (json_of_table <$> tables st))
  ∧ prop "guests" p = Some (JArr (json_of_guest <$> guests st))
  ∧ prop "assignments" p = Some (json_of_assignments (assignments st))
  ∧ prop "unassigned" p = Some (JArr (JStr <$> pool st)).
Proof. by split_and!. Qed.

(** C2, amended.  For every state that satisfies the invariants of the data
    model, has at least one guest, and whose tables all have a non-empty id
    and finite coordinates, normalizing the exported snapshot returns a
    layout with the same guest list, the same table list, the pool in the
    same order, and an assignment object with the same value under every
    key. *)
Theorem export_import_roundtrip N st :
  model_inv st → guests st ≠ [] → (∀ t, t ∈ tables st → exportable t) →
  ∃ ls, normalizeLayoutPayload N (exportSnapshot st) = Returns (Some ls)
        ∧ same_model st ls.
Proof.
  intros [Hgid Hg Htid Hc Hknd Hkeys Hcore Hsel] Hne Hex.
  destruct (exportSnapshot_props st) as (Ho & Hpt & Hpg & Hpa & Hpu).
  assert (well_formed st) as Hwf.
  { split; [done| |].
    - intros k g Hin. apply Hcore. apply elem_of_app. right.
      apply elem_of_seated_ids, seated_elem. by exists k.
    - intros t Ht. destruct (Hc t Ht) as (n & -> & _). done. }
  apply spec_core_invariant_parts in Hcore as [[Hpnd Hpm] H1]; [|done].
  unfold normalizeLayoutPayload. rewrite Ho, Hpt, Hpg, Hpa, Hpu. simpl.
  rewrite clean_guests_export by done.
  rewrite clean_tables_export.
  2:{ intros t Ht. split; [by apply Hc|by apply Hex]. }
  rewrite bool_decide_eq_false_2 by done.
  destruct (buildEmptyAssignments_from_total (tables st) []) as [e He].
  { intros t Ht. destruct (Hc t Ht) as (n & -> & _). done. }
  fold (buildEmptyAssignments (tables st)) in He. rewrite He.
  apply buildEmptyAssignments_spec in He as (Hek & Hend & Hee).
  rewrite fill_entries_export; simpl.
  2:{ intros k Hk. by apply Hek, Hkeys. }
  2:{ intros k g Hin. by eapply (wf_known _ Hwf). }
  set (m' := foldl (λ acc kv, obj_set kv.1 kv.2 acc) e (assignments st)).
  assert (∀ k, obj_get k m' = obj_get k (assignments st)) as Hget.
  { intros k. unfold m'. rewrite write_back_get by done.
    destruct (obj_get k (assignments st)) eqn:Hk; [done|].
    apply obj_get_None. rewrite Hek, <-Hkeys. by apply obj_get_None. }
  assert (NoDup (obj_keys m')) as Hnd' by (by apply write_back_NoDup).
  eexists. split; [done|]. unfold same_model. simpl. split_and!; try done.
  rewrite strings_of_export.
  change (pool_pass ?t2 ?G (pool_pass ?t1 ?p ([], []))).1
    with (pool_pass t2 G (pool_pass t1 p ([], []))).1.
  rewrite (pool_passes_spec (guest_id <$> guests st) m' (pool st)).
  apply spec_reconciled_pool_id; [done|].
  intros g. rewrite Hpm. unfold guest_ids.
  rewrite !seated_get by done. by setoid_rewrite Hget.
Qed.

Lemma model_inv_intro st e :
  buildEmptyAssignments (tables st) = Some e →
  obj_keys (assignments st) = obj_keys e →
  NoDup (guest_ids st) →
  Forall (λ g, guest_id g ≠ "" ∧ guest_name g ≠ "") (guests st) →
  NoDup (table_id <$> tables st) →
  Forall (λ t, ∃ n, seatCount t = Fin n ∧ (1 ≤ n)%Z) (tables st) →
  pool st ++ seated_ids st ⊆ guest_ids st →
  guest_ids st ⊆ pool st ++ seated_ids st →
  NoDup (pool st ++ seated_ids st) →
  Forall (λ k, is_Some (truthy (obj_get k (assignments st)))) (selectedSeatKeys st) →
  model_inv st.
Proof.
  intros (Hk & Hnd & _)%buildEmptyAssignments_spec Hkeys ? Hg ? Ht ? ? ? Hs.
  split; try done.
  - by apply Forall_forall.
  - by apply Forall_forall.
  - by rewrite Hkeys.
  - intros k. by rewrite Hkeys.
  - split; [by apply same_elements|done].
  - by apply Forall_forall.
Qed.

(** C2, as stated, fails on a state that satisfies the invariants of the
    data model and has a table whose id is the empty string: the normalizer
    drops that table. *)
Lemma roundtrip_drops_unnamed_table :
  model_inv state_unnamed_table
  ∧ guests state_unnamed_table ≠ []
  ∧ ∃ ls, normalizeLayoutPayload Number_of_decimal (exportSnapshot state_unnamed_table)
          = Returns (Some ls)
          ∧ ls_tables ls ≠ tables state_unnamed_table.
Proof.
  split_and!; [|done|by eexists].
  eapply model_inv_intro; try reflexivity;
    try (apply (bool_decide_unpack _); by vm_compute).
  simpl. constructor; [by exists 1%Z|constructor].
Qed.

(** A coordinate that is not finite does not survive either: it is written
    as [null] and read back as 0. *)
Example roundtrip_resets_infinite_coordinate :
  ls_tables <$>
    match normalizeLayoutPayload Number_of_decimal
            (exportSnapshot
               (mkApp [mkGuest "g1" "Ann" None]
                      [mkTable "t1" (Fin 1%Z) (mkPosition PosInf (Fin 20%Q))]
                      [("t1:0", None)] ["g1"] [] None)) with
    | Returns (Some ls) => Some ls
    | _ => None
    end
  = Some [mkTable "t1" (Fin 1%Z) (mkPosition (Fin 0%Q) (Fin 20%Q))].
Proof. reflexivity. Qed.

Lemma state_four_seated_inv : model_inv state_four_seated.
Proof.
  eapply model_inv_intro; try reflexivity;
    try (apply (bool_decide_unpack _); by vm_compute).
  change (tables state_four_seated) with DEFAULT_TABLES.
  repeat (constructor; [by exists 8%Z|]). constructor.
Qed.

Lemma export_import_roundtrip_witness :
  model_inv state_four_seated
  ∧ guests state_four_seated ≠ []
  ∧ (∀ t, t ∈ tables state_four_seated → exportable t)
  ∧ ∃ ls, normalizeLayoutPayload Number_of_decimal (exportSnapshot state_four_seated)
          = Returns (Some ls)
          ∧ same_model state_four_seated ls.
Proof.
  assert (∀ t, t ∈ tables state_four_seated → exportable t) as Hex.
  { intros t Ht. change (tables state_four_seated) with DEFAULT_TABLES in Ht.
    unfold DEFAULT_TABLES in Ht.
    repeat (apply elem_of_cons in Ht as [->|Ht]; [done|]).
    by apply elem_of_nil in Ht. }
  assert (guests state_four_seated ≠ []) as Hne by done.
  split_and!; [apply state_four_seated_inv|done|done|].
  exact (export_import_roundtrip Number_of_decimal state_four_seated
           state_four_seated_inv Hne Hex).
Defined.

(** ** Guest-list import: the ids *)

Lemma suffixed_inj baseId j k : suffixed baseId j = suffixed baseId k → j = k.
Proof.
  unfold suffixed. intros H.
  apply (inj (String.app baseId)) in H. apply (inj (String.app "-")) in H.
  by apply (inj pretty) in H.
Qed.

Lemma free_suffix_ext fuel seen seen' baseId s :
  (∀ j, (s ≤ j)%Z → suffixed baseId j ∈ seen ↔ suffixed baseId j ∈ seen') →
  free_suffix fuel seen baseId s = free_suffix fuel seen' baseId s.
Proof.
  revert s. induction fuel as [|fuel IH]; intros s Hs; [done|]. simpl.
  fold (suffixed baseId s).
  rewrite (has_ext _ seen seen') by (apply Hs; lia).
  destruct (has _ seen'); [|done].
  apply IH. intros j Hj. apply Hs. lia.
Qed.

(** The search ends before its fuel does, on the smallest free suffix. *)
Lemma free_suffix_least fuel seen baseId s :
  length seen < fuel →
  ∃ k, free_suffix fuel seen baseId s = Some k ∧ least_free seen baseId s k.
Proof.
  revert seen s. induction fuel as [|fuel IH]; intros seen s Hlen; [lia|].
  simpl. fold (suffixed baseId s).
  destruct (has (suffixed baseId s) seen) eqn:Hs.
  - apply has_true in Hs.
    set (seen' := filter (λ x, x ≠ suffixed baseId s) seen).
    assert (length seen' < length seen) as Hlt.
    { unfold seen'. clear -Hs. induction seen as [|x seen IH].
      - by apply elem_of_nil in Hs.
      - rewrite filter_cons. case_decide as Hx; simpl.
        + apply elem_of_cons in Hs as [Heq|Hs]; [congruence|].
          specialize (IH Hs). lia.
        + pose proof (length_filter (λ x, x ≠ suffixed baseId s) seen). lia. }
    assert (∀ j, (s + 1 ≤ j)%Z →
                 suffixed baseId j ∈ seen ↔ suffixed baseId j ∈ seen') as Hext.
    { intros j Hj. unfold seen'. rewrite list_elem_of_filter.
      split; [|tauto]. intros Hin. split; [|done].
      intros Heq%suffixed_inj. lia. }
    destruct (IH seen' (s + 1)%Z) as (k & Hk & Hs1 & Hfree & Hused); [lia|].
    exists k. rewrite (free_suffix_ext _ seen seen') by done.
    split; [done|]. split_and!; [lia| |].
    + rewrite Hext by done. done.
    + intros j Hj. destruct (decide (j = s)) as [->|Hne]; [done|].
      apply Hext; [lia|]. apply Hused. lia.
  - apply has_false in Hs. exists s. split; [done|].
    split_and!; [lia|done|]. intros j Hj. lia.
Qed.

Lemma least_free_unique seen baseId s k k' :
  least_free seen baseId s k → least_free seen baseId s k' → k = k'.
Proof.
  intros (H1 & H2 & H3) (H1' & H2' & H3').
  destruct (Z.lt_trichotomy k k') as [Hlt|[->|Hgt]]; [|done|].
  - destruct H2. apply H3'. lia.
  - destruct H2'. apply H3. lia.
Qed.

Lemma app_nonempty (a b : string) : a ≠ "" → a +:+ b ≠ "".
Proof. by destruct a. Qed.

Section GuestImportProofs.
Variable trim : string → string.
Variable toLowerCase : string → string.

Local Abbreviation spec_candidate := (spec_candidate trim toLowerCase).
Local Abbreviation spec_import := (spec_import trim toLowerCase).

Lemma import_candidate_spec item c :
  import_candidate trim toLowerCase item = Some c ↔ spec_candidate item c.
Proof.
  destruct c as [[baseId name] details]. unfold import_candidate, spec_candidate.
  destruct (is_object (Some item)); simpl; [|by split; [|intros (? & _)]].
  set (n := match prop "name" item with Some (JStr n) => trim n | _ => "" end).
  set (i := match prop "id" item with Some (JStr i) => trim i | _ => "" end).
  case_bool_decide as Hn.
  { split; [done|]. intros (_ & -> & ? & _). done. }
  assert ((if bool_decide (i = "") then fallback_id toLowerCase n else i)
          = (if decide (i = "") then fallback_id toLowerCase n else i)) as ->
    by (by case_bool_decide; case_decide).
  case_bool_decide as Hb.
  { split; [done|]. intros (_ & -> & _ & -> & ? & _). done. }
  split.
  - intros [= <- <- <-]. by split_and!.
  - intros (_ & -> & _ & -> & _ & ->). done.
Qed.

Lemma import_candidate_None item :
  import_candidate trim toLowerCase item = None → ∀ c, ¬ spec_candidate item c.
Proof. intros Hn c Hc%import_candidate_spec. congruence. Qed.

Lemma spec_candidate_functional item c c' :
  spec_candidate item c → spec_candidate item c' → c = c'.
Proof. intros H%import_candidate_spec H'%import_candidate_spec. congruence. Qed.

Lemma import_item_drop seen cleaned item :
  import_candidate trim toLowerCase item = None →
  import_item trim toLowerCase (Some (seen, cleaned)) item = Some (seen, cleaned).
Proof. intros Hc. unfold import_item. simpl. by rewrite Hc. Qed.

Lemma import_item_fresh seen cleaned item baseId name details :
  import_candidate trim toLowerCase item = Some (baseId, name, details) →
  baseId ∉ seen →
  import_item trim toLowerCase (Some (seen, cleaned)) item
  = Some (seen ++ [baseId], cleaned ++ [mkGuest baseId name details]).
Proof.
  intros Hc Hs%has_false. unfold import_item. simpl. by rewrite Hc, Hs.
Qed.

Lemma import_item_collision seen cleaned item baseId name details :
  import_candidate trim toLowerCase item = Some (baseId, name, details) →
  baseId ∈ seen →
  ∃ k, least_free seen baseId 2 k
       ∧ import_item trim toLowerCase (Some (seen, cleaned)) item
         = Some (seen ++ [suffixed baseId k],
                 cleaned ++ [mkGuest (suffixed baseId k) name details]).
Proof.
  intros Hc Hs%has_true.
  destruct (free_suffix_least (S (length seen)) seen baseId 2)
    as (k & Hk & Hleast); [lia|].
  exists k. split; [done|].
  unfold import_item. cbn [mbind option_bind]. rewrite Hc, Hs, Hk. done.
Qed.

Lemma import_items_spec raw seen cleaned :
  ∃ gs, foldl (import_item trim toLowerCase) (Some (seen, cleaned)) raw
        = Some (seen ++ (guest_id <$> gs), cleaned ++ gs)
        ∧ spec_import seen raw gs.
Proof.
  revert seen cleaned. induction raw as [|item raw IH]; intros seen cleaned.
  - exists []. simpl. rewrite !app_nil_r. split; [done|constructor].
  - cbn [foldl].
    destruct (import_candidate trim toLowerCase item) as [[[baseId name] details]|]
      eqn:Hc.
    + destruct (decide (baseId ∈ seen)) as [Hseen|Hseen].
      * destruct (import_item_collision seen cleaned item _ _ _ Hc Hseen)
          as (k & Hleast & ->).
        destruct (IH (seen ++ [suffixed baseId k])
                     (cleaned ++ [mkGuest (suffixed baseId k) name details]))
          as (gs & Hfold & Hspec).
        exists (mkGuest (suffixed baseId k) name details :: gs).
        rewrite Hfold. csimpl. rewrite <-!app_assoc. split; [done|].
        apply import_candidate_spec in Hc. by eapply spec_import_collision.
      * rewrite (import_item_fresh seen cleaned item _ _ _ Hc Hseen).
        destruct (IH (seen ++ [baseId]) (cleaned ++ [mkGuest baseId name details]))
          as (gs & Hfold & Hspec).
        exists (mkGuest baseId name details :: gs).
        rewrite Hfold. csimpl. rewrite <-!app_assoc. split; [done|].
        apply import_candidate_spec in Hc. by eapply spec_import_fresh.
    + rewrite (import_item_drop seen cleaned item Hc).
      destruct (IH seen cleaned) as (gs & Hfold & Hspec).
      exists gs. split; [done|].
      apply spec_import_drop; [by apply import_candidate_None|done].
Qed.

Lemma spec_import_functional seen raw gs gs' :
  spec_import seen raw gs → spec_import seen raw gs' → gs = gs'.
Proof.
  intros H. revert gs'.
  induction H as [seen|seen item raw gs Hc _ IH
                  |seen item raw gs baseId name details Hc Hfresh _ IH
                  |seen item raw gs baseId name details k Hc Hin Hleast _ IH];
    intros gs' H'; inversion H' as [|? ? ? ? Hc'|? ? ? ? ? ? ? Hc'|? ? ? ? ? ? ? k' Hc' ? Hleast'];
    subst; try done;
    try (by destruct (Hc _ Hc')); try (by destruct (Hc' _ Hc));
    try (pose proof (spec_candidate_functional _ _ _ Hc Hc'); simplify_eq; try done).
  - by apply IH.
  - f_equal. by apply IH.
  - assert (k = k') as -> by (by eapply least_free_unique).
    f_equal. by apply IH.
Qed.

Lemma spec_import_ids seen raw gs :
  spec_import seen raw gs → NoDup seen →
  NoDup (seen ++ (guest_id <$> gs))
  ∧ Forall (λ g, guest_id g ≠ "" ∧ guest_name g ≠ "") gs.
Proof.
  induction 1 as [seen|seen item raw gs Hc _ IH
                  |seen item raw gs baseId name details Hc Hfresh _ IH
                  |seen item raw gs baseId name details k Hc Hin Hleast _ IH];
    intros Hnd.
  - rewrite app_nil_r. split; [done|constructor].
  - by apply IH.
  - destruct Hc as (_ & _ & Hn & _ & Hb & _).
    destruct IH as [IH1 IH2].
    { apply NoDup_app. split_and!; [done| |apply NoDup_singleton].
      intros x Hx ->%list_elem_of_singleton. done. }
    csimpl. rewrite <-app_assoc in IH1. split; [done|].
    constructor; [done|done].
  - destruct Hc as (_ & _ & Hn & _ & Hb & _).
    destruct Hleast as (_ & Hfree & _).
    destruct IH as [IH1 IH2].
    { apply NoDup_app. split_and!; [done| |apply NoDup_singleton].
      intros x Hx ->%list_elem_of_singleton. done. }
    csimpl. rewrite <-app_assoc in IH1. split; [done|].
    constructor; [|done]. simpl. split; [|done].
    unfold suffixed. by apply app_nonempty.
Qed.

(** C8, amended.  The import of a guest list returns, for every sequence of
    records, the list the specification describes, where the name and the
    provided id of a record are trimmed first and a record whose trimmed
    name is empty is dropped: the id of a record is its trimmed provided id
    if that is not empty, and otherwise the id derived from its trimmed
    name; a record with no base id is dropped; an id that was produced
    before gets the suffix [-k] with the smallest [k] from 2 on for which
    the suffixed id was not produced before.  That list is the only one the
    description allows; its ids are pairwise distinct and, like its names,
    not empty. *)
Theorem import_guests_spec raw :
  ∃ cleaned, import_guests trim toLowerCase raw = Some cleaned
             ∧ spec_import [] raw cleaned
             ∧ (∀ gs, spec_import [] raw gs → gs = cleaned)
             ∧ NoDup (guest_id <$> cleaned)
             ∧ Forall (λ g, guest_id g ≠ "" ∧ guest_name g ≠ "") cleaned.
Proof.
  destruct (import_items_spec raw [] []) as (gs & Hfold & Hspec).
  exists gs. unfold import_guests. rewrite Hfold. simpl.
  destruct (spec_import_ids _ _ _ Hspec) as [Hnd Hne]; [constructor|].
  split_and!; try done.
  intros gs' Hspec'. by eapply spec_import_functional.
Qed.
End GuestImportProofs.

(** *** Examples *)

(** The example of the specification:
    [[{"name": "Alice"}, {"name": "Alice"}]]. *)
Example import_alice_twice :
  import_guests ascii_trim ascii_toLowerCase
    [JObj [("name", JStr "Alice")]; JObj [("name", JStr "Alice")]]
  = Some [mkGuest "alice" "Alice" None; mkGuest "alice-2" "Alice" None].
Proof. reflexivity. Qed.

Example import_derives_ids :
  guest_id <$>
    default [] (import_guests ascii_trim ascii_toLowerCase
      [JObj [("name", JStr "  Mary-Jane O'Neil  ")];
       JObj [("name", JStr "Bob"); ("id", JStr "b1")];
       JObj [("name", JStr "!!!")];
       JObj [("name", JStr "B 1"); ("id", JStr "")];
       JObj [("name", JStr "b--1")];
       JObj [("name", JStr "Carl"); ("id", JStr "b1-2")];
       JNull;
       JObj [("id", JStr "x")]])
  = ["mary-jane-o-neil"; "b1"; "b-1"; "b-1-2"; "b1-2"].
Proof. reflexivity. Qed.

(** C8, as stated, fails on a provided id with blanks around it: the id of
    the record is the trimmed id.  ([[{"id": " x ", "name": "Ann"}]].) *)
Lemma import_trims_provided_id :
  let record := JObj [("id", JStr " x "); ("name", JStr "Ann")] in
  import_guests ascii_trim ascii_toLowerCase [record]
  = Some [mkGuest "x" "Ann" None]
  ∧ stated_base_id ascii_toLowerCase record = " x "
  ∧ "x" ≠ " x ".
Proof. by split_and!. Qed.

(** A record with an id and an empty name is dropped, although not both
    are empty. *)
Example import_drops_nameless :
  import_guests ascii_trim ascii_toLowerCase
    [JObj [("id", JStr "x"); ("name", JStr " ")]; JObj [("name", JStr "Ann")]]
  = Some [mkGuest "ann" "Ann" None].
Proof. reflexivity. Qed.

(** *** The id derived from a name *)

Lemma strip_leading_hyphens_cons c s :
  strip_leading_hyphens (String c s)
  = if decide (c = "-"%char) then strip_leading_hyphens s else String c s.
Proof. destruct c as [[] [] [] [] [] [] [] []]; by case_decide. Qed.

Lemma strip_trailing_hyphens_cons c s :
  strip_trailing_hyphens (String c s)
  = if decide (c = "-"%char)
    then match strip_trailing_hyphens s with
         | EmptyString => EmptyString
         | rest => String c rest
         end
    else String c (strip_trailing_hyphens s).
Proof.
  destruct c as [[] [] [] [] [] [] [] []]; case_decide; try done;
    simpl; by destruct (strip_trailing_hyphens s).
Qed.

Lemma collapse_runs_collapsed b s : runs_collapsed b (collapse_runs b s) = true.
Proof.
  revert b. induction s as [|c s IH]; intros b; [done|]. simpl.
  destruct (is_alnum c) eqn:Hc; simpl.
  - by rewrite Hc.
  - destruct b; [done|]. simpl. apply IH.
Qed.

Lemma strip_leading_collapsed b s :
  runs_collapsed b s = true → runs_collapsed true (strip_leading_hyphens s) = true.
Proof.
  revert b. induction s as [|c s IH]; intros b; [done|].
  rewrite strip_leading_hyphens_cons. simpl.
  destruct (is_alnum c) eqn:Hc.
  - case_decide as Hh; [by subst|]. simpl. by rewrite Hc.
  - case_decide as Hh; [|done]. intros [_ H]%andb_true_iff. by eapply IH.
Qed.

Lemma strip_leading_no_hyphen s c s' :
  strip_leading_hyphens s = String c s' → c ≠ "-"%char.
Proof.
  induction s as [|c0 s IH]; [done|].
  rewrite strip_leading_hyphens_cons. case_decide; [done|]. by intros [= <- _].
Qed.

Lemma strip_trailing_slug b s :
  runs_collapsed b s = true →
  strip_trailing_hyphens s = "" ∨ slug_from b (strip_trailing_hyphens s) = true.
Proof.
  revert b. induction s as [|c s IH]; intros b; [by left|].
  rewrite strip_trailing_hyphens_cons. simpl.
  destruct (is_alnum c) eqn:Hc.
  - case_decide as Hh; [by subst|]. intros Hr. right. simpl. rewrite Hc.
    destruct (IH false Hr) as [->|?]; done.
  - case_decide as Hh; [|done]. intros [Hb Hr]%andb_true_iff.
    destruct (IH true Hr) as [->|Hs]; [by left|].
    destruct (strip_trailing_hyphens s) eqn:Hst; [by left|]. right.
    simpl. rewrite Hc. rewrite decide_True by done. by rewrite Hb.
Qed.

Lemma alnums_collapse b s : alnums (collapse_runs b s) = alnums s.
Proof.
  revert b. induction s as [|c s IH]; intros b; [done|]. simpl.
  destruct (is_alnum c) eqn:Hc; simpl.
  - by rewrite Hc, IH.
  - destruct b; simpl; by rewrite ?IH.
Qed.

Lemma alnums_strip_leading s : alnums (strip_leading_hyphens s) = alnums s.
Proof.
  induction s as [|c s IH]; [done|].
  rewrite strip_leading_hyphens_cons. case_decide as Hh; [|done].
  subst. by rewrite IH.
Qed.

Lemma alnums_strip_trailing s : alnums (strip_trailing_hyphens s) = alnums s.
Proof.
  induction s as [|c s IH]; [done|].
  rewrite strip_trailing_hyphens_cons. case_decide as Hh.
  - subst. simpl. rewrite <-IH. by destruct (strip_trailing_hyphens s).
  - simpl. by rewrite IH.
Qed.

(** The derived id consists of groups of lower-case letters and digits
    separated by single hyphens, without a hyphen at either end, and has
    the letters and digits of the lower-cased name, in order. *)
Lemma fallback_id_slug toLowerCase name :
  is_slug (fallback_id toLowerCase name) = true
  ∧ alnums (fallback_id toLowerCase name) = alnums (toLowerCase name).
Proof.
  unfold fallback_id, strip_hyphens. split.
  - pose proof (collapse_runs_collapsed false (toLowerCase name)) as H1.
    apply strip_leading_collapsed in H1.
    destruct (strip_trailing_slug _ _ H1) as [->|Hs]; [done|].
    by destruct (strip_trailing_hyphens _).
  - by rewrite alnums_strip_trailing, alnums_strip_leading, alnums_collapse.
Qed.

(** * Further properties of the handlers *)

(** ** Seat keys identify seats *)

Lemma pretty_N_char_no_colon x : pretty_N_char x ≠ ":"%char.
Proof. unfold pretty_N_char. by repeat case_match. Qed.

Lemma pretty_N_go_no_colon x s :
  has_colon s = false → has_colon (pretty_N_go x s) = false.
Proof.
  revert s. induction (N.lt_wf_0 x) as [x _ IH]; intros s Hs.
  assert (x = 0 ∨ 0 < x)%N as [->|Hx] by lia.
  - by rewrite pretty_N_go_0.
  - rewrite pretty_N_go_step by done. apply IH.
    + by apply N.div_lt.
    + simpl. rewrite Hs, orb_false_r. apply bool_decide_eq_false.
      apply pretty_N_char_no_colon.
Qed.

Lemma pretty_N_no_colon (x : N) : has_colon (pretty x) = false.
Proof.
  unfold pretty, pretty_N. case_decide; [done|]. by apply pretty_N_go_no_colon.
Qed.

Lemma pretty_Z_no_colon (i : Z) : has_colon (pretty i) = false.
Proof.
  destruct i as [|p|p]; [done|apply pretty_N_no_colon|].
  unfold pretty, pretty_Z. simpl. apply (pretty_N_no_colon (Npos p)).
Qed.

Lemma string_app_cons c a b : String c a +:+ b = String c (a +:+ b).
Proof. done. Qed.

Lemma string_app_nil b : "" +:+ b = b.
Proof. done. Qed.

Lemma has_colon_app a b : has_colon (a +:+ b) = has_colon a || has_colon b.
Proof.
  induction a as [|c a IH]; [done|].
  rewrite string_app_cons. simpl. by rewrite IH, orb_assoc.
Qed.

(** The part before the last colon and the part after it determine each
    other. *)
Lemma split_at_last_colon t t' p p' :
  has_colon p = false → has_colon p' = false →
  t +:+ ":" +:+ p = t' +:+ ":" +:+ p' → t = t' ∧ p = p'.
Proof.
  intros Hp Hp'. revert t'.
  induction t as [|c t IH]; intros [|c' t'] Heq;
    rewrite ?string_app_cons, ?string_app_nil in Heq; simplify_eq.
  - done.
  - rewrite has_colon_app in Hp. cbn in Hp. by rewrite orb_true_r in Hp.
  - rewrite has_colon_app in Hp'. cbn in Hp'. by rewrite orb_true_r in Hp'.
  - destruct (IH t') as [-> ->]; done.
Qed.

Lemma seatKey_inj t i t' j : seatKey t i = seatKey t' j → t = t' ∧ i = j.
Proof.
  unfold seatKey. intros Heq.
  apply split_at_last_colon in Heq as [-> Hp]; try apply pretty_Z_no_colon.
  split; [done|]. by apply (inj pretty).
Qed.

(** X1: two seats have the same key only when they are the same seat of the
    same table: [seatKey] is injective in the table id and the index
    together, whatever characters the table ids contain. *)
Theorem seatKey_injective tableId seatIndex tableId' seatIndex' :
  seatKey tableId seatIndex = seatKey tableId' seatIndex' ↔
  tableId = tableId' ∧ seatIndex = seatIndex'.
Proof.
  split.
  - apply seatKey_inj.
  - by intros [-> ->].
Qed.

(** ** The empty assignment object *)

Lemma infinite_table_cases (ts : list Table) :
  (∀ t, t ∈ ts → seatCount t ≠ PosInf) ∨ ∃ t, t ∈ ts ∧ seatCount t = PosInf.
Proof.
  induction ts as [|t ts [IH|(t' & Ht' & Hc)]].
  - left. by intros t Ht%elem_of_nil.
  - destruct (seatCount t) eqn:Hc;
      [left|right; exists t; split; [left|done]|left..];
      intros t' [->|Ht']%elem_of_cons; try (by apply IH); by rewrite Hc.
  - right. exists t'. split; [by right|done].
Qed.


(** ** The first free seat of a table *)

Lemma num_lt_mono i j count :
  (i ≤ j)%Z → num_lt (Fin j) count = true → num_lt (Fin i) count = true.
Proof.
  destruct count as [| | |n]; simpl; try done.
  rewrite !bool_decide_eq_true. lia.
Qed.

Lemma truthy_Some_get k m g :
  truthy (obj_get k m) = Some g ↔ obj_get k m = Some (Some g) ∧ g ≠ "".
Proof.
  unfold truthy. destruct (obj_get k m) as [[x|]|]; try (split; [done|by intros [? _]]).
  case_decide; split; try done.
  - intros [[= ->] ?]. done.
  - intros [= ->]. done.
  - intros [[= ->] _]. done.
Qed.

Lemma length_obj_delete k m :
  k ∈ obj_keys m → length (obj_delete k m) < length m.
Proof.
  unfold obj_keys. induction m as [|[k' v] m IH]; csimpl.
  - by intros ?%elem_of_nil.
  - intros Hin. case_decide.
    + assert (length (obj_delete k m) ≤ length m); [|lia].
      clear. induction m as [|[k' v'] m IH]; simpl; [done|].
      case_decide; simpl; lia.
    + apply elem_of_cons in Hin as [?|Hin]; [done|]. simpl.
      specialize (IH Hin). lia.
Qed.

Lemma first_available_ext fuel m m' tid count s :
  (∀ j, (s ≤ j)%Z →
        truthy (obj_get (seatKey tid j) m) = truthy (obj_get (seatKey tid j) m')) →
  first_available fuel m tid count s = first_available fuel m' tid count s.
Proof.
  revert s. induction fuel as [|fuel IH]; intros s Hext; [done|].
  cbn [first_available]. rewrite (Hext s) by lia.
  destruct (num_lt (Fin s) count); [|done].
  destruct (truthy _); [|done].
  apply IH. intros j Hj. apply Hext. lia.
Qed.

(** The search ends before its fuel does: on the first free seat, or on
    [-1] when every seat from [s] on is taken. *)
Lemma first_available_found fuel m tid count s :
  length m < fuel →
  ∃ r, first_available fuel m tid count s = Some r
       ∧ ((r = (-1)%Z ∧ seats_full m tid count s)
          ∨ first_free_seat m tid count s r).
Proof.
  revert m s. induction fuel as [|fuel IH]; intros m s Hlen; [lia|].
  cbn [first_available]. destruct (num_lt (Fin s) count) eqn:Hlt.
  2:{ exists (-1)%Z. split; [done|]. left. split; [done|].
      intros i Hi Hin. rewrite (num_lt_mono s i) in Hlt; done. }
  destruct (truthy (obj_get (seatKey tid s) m)) as [g|] eqn:Hs.
  2:{ exists s. split; [done|]. right. split_and!; [lia|done| |].
      - unfold seat_taken. rewrite Hs. by intros [? ?].
      - intros i Hi. lia. }
  set (m' := obj_delete (seatKey tid s) m).
  assert (length m' < length m) as Hm'.
  { apply length_obj_delete, obj_get_is_Some.
    apply truthy_Some_get in Hs as [-> _]. done. }
  assert (∀ j, (s + 1 ≤ j)%Z →
               truthy (obj_get (seatKey tid j) m)
               = truthy (obj_get (seatKey tid j) m')) as Hext.
  { intros j Hj. unfold m'. rewrite obj_get_delete_ne; [done|].
    intros Heq%seatKey_inj_index. lia. }
  destruct (IH m' (s + 1)%Z) as (r & Hr & Hspec); [lia|].
  exists r. rewrite (first_available_ext _ m m') by done.
  split; [done|].
  assert (seat_taken m tid s) as Htaken by (unfold seat_taken; by rewrite Hs).
  assert (∀ i, (s + 1 ≤ i)%Z → seat_taken m tid i ↔ seat_taken m' tid i) as Hiff.
  { intros i Hi. unfold seat_taken. by rewrite Hext. }
  destruct Hspec as [[-> Hfull]|(Hsr & Hlt' & Hfree & Hbefore)].
  - left. split; [done|]. intros i Hi Hin.
    destruct (decide (i = s)) as [->|Hne]; [done|].
    apply Hiff; [lia|]. apply Hfull; [lia|done].
  - right. split_and!; [lia|done| |].
    + by rewrite Hiff.
    + intros i Hi. destruct (decide (i = s)) as [->|Hne]; [done|].
      apply Hiff; [lia|]. apply Hbefore. lia.
Qed.

Lemma first_free_seat_unique m tid count s r r' :
  first_free_seat m tid count s r → first_free_seat m tid count s r' → r = r'.
Proof.
  intros (H1 & _ & H2 & H3) (H1' & _ & H2' & H3').
  destruct (Z.lt_trichotomy r r') as [Hlt|[->|Hgt]]; [|done|].
  - destruct H2. apply H3'. lia.
  - destruct H2'. apply H3. lia.
Qed.

(** X3: [getFirstAvailableSeatIndex] always returns, whatever the seat
    count of the table is (also [Infinity]: the object has finitely many
    keys), and with any bound on the number of tests above the number of
    keys the loop gives the same result.  The result is [-1] exactly when
    every seat of the table holds a guest (so for a seat count that is
    [NaN], zero or negative); otherwise it is the smallest index
    [0 ≤ r < seatCount] whose seat holds no guest. *)
Theorem getFirstAvailableSeatIndex_spec (table : Table) (st : AppState) :
  ∃ r, getFirstAvailableSeatIndex table st = Some r
       ∧ (∀ fuel, length (assignments st) < fuel →
            first_available fuel (assignments st) (table_id table)
                            (seatCount table) 0 = Some r)
       ∧ (r = (-1)%Z ↔ seats_full (assignments st) (table_id table) (seatCount table) 0)
       ∧ (r ≠ (-1)%Z ↔
          first_free_seat (assignments st) (table_id table) (seatCount table) 0 r).
Proof.
  unfold getFirstAvailableSeatIndex.
  destruct (first_available_found (S (length (assignments st))) (assignments st)
              (table_id table) (seatCount table) 0) as (r & Hr & Hspec); [lia|].
  exists r. split; [done|].
  assert (∀ r', first_free_seat (assignments st) (table_id table) (seatCount table) 0 r' →
                ¬ seats_full (assignments st) (table_id table) (seatCount table) 0)
    as Hexcl.
  { intros r' (H0 & Hlt & Hfree & _) Hfull. apply Hfree. by apply Hfull. }
  split_and!.
  - intros fuel Hfuel.
    destruct (first_available_found fuel (assignments st) (table_id table)
                (seatCount table) 0 Hfuel) as (r' & Hr' & Hspec').
    rewrite Hr'. f_equal.
    destruct Hspec as [[-> Hfull]|Hfree], Hspec' as [[-> Hfull']|Hfree']; try done.
    + by destruct (Hexcl _ Hfree').
    + by destruct (Hexcl _ Hfree).
    + by eapply first_free_seat_unique.
  - split.
    + intros ->. destruct Hspec as [[_ ?]|(? & _)]; [done|lia].
    + intros Hfull. destruct Hspec as [[? _]|Hfree]; [done|].
      by destruct (Hexcl _ Hfree).
  - split.
    + intros Hne. by destruct Hspec as [[? _]|?].
    + intros (? & _). lia.
Qed.

(** ** Dropping a guest on a table *)

Lemma getFirstAvailableSeatIndex_cases table st :
  ∃ r, getFirstAvailableSeatIndex table st = Some r
       ∧ ((r = (-1)%Z
           ∧ seats_full (assignments st) (table_id table) (seatCount table) 0)
          ∨ (r ≠ (-1)%Z
             ∧ first_free_seat (assignments st) (table_id table) (seatCount table) 0 r)).
Proof.
  destruct (first_available_found (S (length (assignments st))) (assignments st)
              (table_id table) (seatCount table) 0) as (r & Hr & Hspec); [lia|].
  exists r. split; [done|].
  destruct Hspec as [?|Hfree]; [by left|right]. split; [|done].
  destruct Hfree as (? & _). lia.
Qed.

(** X4: [handleTableDrop] always returns.  It changes nothing when the drag
    carries no guest id, when no table has the id, when the guest is not
    known, or when every seat of the table holds a guest.  Otherwise the
    guest is written on the first seat of the table that holds no guest,
    the origin seat (if the drag names one) is emptied after that, the
    selection becomes that seat, and the pool is left alone: a drop on a
    table displaces nobody. *)
Theorem handleTableDrop_spec (tableId : string) (dataTransfer : DataTransfer)
    (st : AppState) :
  let g := data_guestId dataTransfer in
  let m := assignments st in
  ∃ st', handleTableDrop tableId dataTransfer st = Some st'
    ∧ match find (λ entry, bool_decide (table_id entry = tableId)) (tables st) with
      | None => st' = st
      | Some table =>
          (g = "" ∨ g ∉ guest_ids st ∨ seats_full m tableId (seatCount table) 0 →
           st' = st)
          ∧ (g ≠ "" → g ∈ guest_ids st →
             ∀ r, first_free_seat m tableId (seatCount table) 0 r →
               assignments st'
               = match or_undefined (data_fromSeat dataTransfer) with
                 | Some from => obj_set from None (obj_set (seatKey tableId r) (Some g) m)
                 | None => obj_set (seatKey tableId r) (Some g) m
                 end
               ∧ pool st' = pool st
               ∧ selectedSeatKeys st' = [seatKey tableId r]
               ∧ guests st' = guests st ∧ tables st' = tables st)
      end.
Proof.
  intros g m. unfold handleTableDrop. fold g.
  destruct (find _ (tables st)) as [table|] eqn:Hfind.
  2:{ exists st. by case_decide. }
  apply find_table in Hfind as [_ Hid].
  destruct (getFirstAvailableSeatIndex_cases table st) as (r & Hr & Hspec).
  rewrite Hid in Hspec. fold m in Hspec.
  case_decide as Hg.
  { exists st. split; [done|]. split; [done|]. intros Hg'. done. }
  rewrite Hr. simpl.
  destruct Hspec as [[-> Hfull]|[Hne Hfree]].
  - exists st. split; [done|]. split; [done|].
    intros _ _ r (H0 & Hlt & Hnt & _). destruct Hnt. by apply Hfull.
  - rewrite decide_False by done. eexists. split; [done|]. split.
    + intros [?|[Hunknown|Hfull]]; [done| |].
      * by apply assignGuestToSeat_unknown.
      * destruct Hfree as (H0 & Hlt & Hnt & _). destruct Hnt. by apply Hfull.
    + intros _ Hknown r' Hfree'.
      assert (r' = r) as -> by (by eapply first_free_seat_unique).
      destruct (assignGuestToSeat_known g tableId r
                  (or_undefined (data_fromSeat dataTransfer)) st Hknown)
        as (Hgs & Hts & _ & Hsel & Hm & Hp).
      split_and!; try done.
      * rewrite Hm. unfold or_undefined. case_decide; [done|].
        by rewrite decide_False.
      * rewrite Hp. destruct Hfree as (_ & _ & Hnt & _).
        unfold seat_taken in Hnt. fold m.
        destruct (truthy (obj_get (seatKey tableId r) m)); [|done].
        destruct Hnt. by eexists.
Qed.

(** ** Drag and drop keeps the invariant *)

Lemma model_inv_well_formed st : model_inv st → well_formed st.
Proof.
  intros [_ _ _ Hc Hnd _ [Hcore _] _]. split; [done| |].
  - intros k g Hin. apply Hcore, elem_of_app. right.
    apply elem_of_seated_ids, seated_elem. by exists k.
  - intros t Ht. destruct (Hc t Ht) as (n & -> & _). done.
Qed.

Lemma settled_invariant st :
  well_formed st → one_seat_each (assignments st) →
  well_formed (settle st) ∧ spec_core_invariant (settle st).
Proof.
  intros Hwf H1. pose proof (settle_well_formed st Hwf) as Hwf'.
  split; [done|]. apply spec_core_invariant_parts; [done|]. split.
  - apply settle_pool_consistent.
  - destruct (settle_frame st) as (_ & _ & ->). done.
Qed.

Lemma default_state_invariant : spec_core_invariant (settle default_state).
Proof.
  split.
  - apply same_elements; apply (bool_decide_unpack _); by vm_compute.
  - apply (bool_decide_unpack _). by vm_compute.
Qed.

Lemma assignGuestToSeat_tables g t i from st :
  tables (assignGuestToSeat g t i from st) = tables st.
Proof.
  destruct (decide (g ∈ guest_ids st)) as [Hg|Hg].
  - by destruct (assignGuestToSeat_known g t i from st Hg) as (_ & -> & _).
  - by rewrite assignGuestToSeat_unknown.
Qed.

Lemma poolDrop_preserves from st :
  well_formed st →
  let st1 := handlePoolDrop from st in
  well_formed st1 ∧ guests st1 = guests st ∧ tables st1 = tables st
  ∧ shrinks (assignments st) (assignments st1).
Proof.
  intros [Hk Hknown Hc]. cbv zeta. unfold handlePoolDrop.
  case_decide; [by split_and!; [split|..]; try apply shrinks_refl|].
  destruct (truthy _) as [g|].
  - rewrite returnGuestsToPool_eq. simpl.
    split_and!; [split|..]; simpl; try done.
    + by apply NoDup_obj_keys_set.
    + eapply shrinks_known; [apply shrinks_set_None|done].
    + apply shrinks_set_None.
  - by split_and!; [split|..]; try apply shrinks_refl.
Qed.

(** The drags of the interface are calls as [op_from_interface] asks. *)
Lemma draggable_from_interface st dataTransfer t i :
  pool_consistent st → draggable st dataTransfer →
  op_from_interface st
    (AssignGuest (data_guestId dataTransfer) t i
                 (or_undefined (data_fromSeat dataTransfer))).
Proof.
  intros [_ Hpool] [(table & j & Hdrag)|(g & Hdrag)].
  - unfold seat_drag in Hdrag.
    destruct (truthy _) as [g|] eqn:Hg; [|done].
    destruct (has g (guest_ids st)); simplify_eq/=.
    apply truthy_Some_get in Hg as [Hget Hne].
    unfold or_undefined. rewrite decide_False by apply seatKey_nonempty.
    by rewrite decide_False by apply seatKey_nonempty.
  - unfold pool_drag in Hdrag.
    destruct (has g (pool st)) eqn:Hp; [|done].
    destruct (has g (guest_ids st)); simplify_eq/=.
    apply has_true in Hp. by apply Hpool in Hp as [_ Hns].
Qed.

(** X5: a drag that the interface lets start (from a seat that shows a
    guest, or from a card of the pool), dropped on any seat, on any table or
    on the pool, keeps the core invariant: from a state whose assignment
    object names known guests only and in which every guest id occurs
    exactly once across the pool and the seats, the drop handler returns,
    and after the effects the same holds again, with the same guests and
    tables. *)
Theorem drag_and_drop_keeps_invariant (st : AppState)
    (dataTransfer : DataTransfer) (target : drop_target) :
  well_formed st → spec_core_invariant st → draggable st dataTransfer →
  ∃ st', drop target dataTransfer st = Some st'
         ∧ well_formed (settle st')
         ∧ spec_core_invariant (settle st')
         ∧ guests (settle st') = guests st
         ∧ tables (settle st') = tables st.
Proof.
  intros Hwf Hinv Hdrag.
  pose proof Hinv as [Hp H1]%spec_core_invariant_parts; [|done].
  assert (∀ st', well_formed st' → one_seat_each (assignments st') →
                 guests st' = guests st → tables st' = tables st →
                 well_formed (settle st') ∧ spec_core_invariant (settle st')
                 ∧ guests (settle st') = guests st
                 ∧ tables (settle st') = tables st) as Hfin.
  { intros st' Hwf' H1' Hg Ht. destruct (settled_invariant st' Hwf' H1').
    destruct (settle_frame st') as (-> & -> & _). done. }
  assert (∀ t i,
            let st' := assignGuestToSeat (data_guestId dataTransfer) t i
                         (or_undefined (data_fromSeat dataTransfer)) st in
            well_formed (settle st') ∧ spec_core_invariant (settle st')
            ∧ guests (settle st') = guests st
            ∧ tables (settle st') = tables st) as Hassign.
  { intros t i. cbv zeta.
    destruct (assign_preserves (data_guestId dataTransfer) t i
                (or_undefined (data_fromSeat dataTransfer)) st Hwf)
      as (Hwf' & Hg & H1').
    apply Hfin; try done.
    - apply H1'; [done|]. by apply draggable_from_interface.
    - apply assignGuestToSeat_tables. }
  destruct target as [t i|t|]; simpl.
  - eexists. split; [done|]. unfold handleSeatDrop.
    case_decide; [by apply Hfin|apply Hassign].
  - unfold handleTableDrop. case_decide; [exists st; split; [done|by apply Hfin]|].
    destruct (find _ (tables st)) as [table|];
      [|exists st; split; [done|by apply Hfin]].
    destruct (getFirstAvailableSeatIndex_cases table st) as (r & -> & _). simpl.
    case_decide; [exists st; split; [done|by apply Hfin]|].
    eexists. split; [done|]. apply Hassign.
  - eexists. split; [done|].
    destruct (poolDrop_preserves (data_fromSeat dataTransfer) st Hwf)
      as (Hwf' & Hg & Ht & Hs).
    apply Hfin; try done. by eapply shrinks_one_seat.
Qed.

Lemma drag_and_drop_keeps_invariant_witness :
  well_formed (settle default_state)
  ∧ spec_core_invariant (settle default_state)
  ∧ draggable (settle default_state) (mkDataTransfer "guest-1" "")
  ∧ ∃ st', drop (OnTable "table-2") (mkDataTransfer "guest-1" "")
                (settle default_state) = Some st'
           ∧ well_formed (settle st')
           ∧ spec_core_invariant (settle st')
           ∧ guests (settle st') = guests (settle default_state)
           ∧ tables (settle st') = tables (settle default_state).
Proof.
  assert (draggable (settle default_state) (mkDataTransfer "guest-1" "")) as Hd.
  { right. exists "guest-1". reflexivity. }
  split_and!;
    [apply default_state_well_formed|apply default_state_invariant|done|].
  exact (drag_and_drop_keeps_invariant (settle default_state)
           (mkDataTransfer "guest-1" "") (OnTable "table-2")
           default_state_well_formed default_state_invariant Hd).
Defined.

(** ** Dropping a guest on the pool *)

Lemma model_inv_parts st :
  model_inv st →
  well_formed st ∧ pool_consistent st ∧ one_seat_each (assignments st).
Proof.
  intros Hinv. pose proof (model_inv_well_formed st Hinv) as Hwf.
  split; [done|]. apply spec_core_invariant_parts; [done|]. apply Hinv.
Qed.

Lemma seated_after_release k g m x :
  NoDup (obj_keys m) → one_seat_each m → (k, Some g) ∈ m →
  seated (obj_set k None m) x ↔ seated m x ∧ x ≠ g.
Proof.
  intros Hnd H1 Hk. rewrite !seated_elem.
  setoid_rewrite elem_of_obj_set_NoDup; [|done]. split.
  - intros (k' & [[=]|[Hin Hne]]). split; [by exists k'|].
    intros ->. apply Hne. simpl. by eapply H1.
  - intros [(k' & Hin) Hne]. exists k'. right. split; [done|].
    simpl. intros ->. apply Hne.
    by injection (obj_keys_unique m k _ _ Hnd Hin Hk).
Qed.

(** The pool is what the effects would compute: they leave it alone. *)
Lemma settle_pool_id st :
  pool_consistent st → pool (settle st) = pool st.
Proof.
  intros [Hnd Hp]. rewrite settle_pool. by apply spec_reconciled_pool_id.
Qed.

(** X6: dropping a drag that comes from the seat [fromSeat], which holds
    guest [g], on the pool empties that seat and touches no other key; the
    pool becomes [g] (if it is a known guest) followed by the previous pool
    without [g], and the selection is cleared.  In a state that satisfies
    the core invariant the pool after the effects is [g] followed by the
    previous pool. *)
Theorem handlePoolDrop_spec (fromSeat g : string) (st : AppState) :
  fromSeat ≠ "" →
  truthy (obj_get fromSeat (assignments st)) = Some g →
  dropped_on_pool st (handlePoolDrop fromSeat st) fromSeat g.
Proof.
  unfold dropped_on_pool.
  intros Hne Hg. cbv zeta.
  assert (handlePoolDrop fromSeat st
          = setSelectedSeatKeys []
              (setPool ((if decide (g ∈ guest_ids st) then [g] else [])
                        ++ filter (λ x, x ≠ g) (pool st))
                 (setAssignments (obj_set fromSeat None (assignments st)) st)))
    as ->.
  { unfold handlePoolDrop. rewrite decide_False by done. rewrite Hg.
    f_equal. rewrite returnGuestsToPool_eq. unfold setPool. simpl. f_equal.
    f_equal. apply list_filter_iff. intros x. by rewrite elem_of_uniq, list_elem_of_singleton. }
  pose proof Hg as [Hget Hgne]%truthy_Some_get.
  assert (fromSeat ∈ obj_keys (assignments st)) as Hkey
    by (apply obj_get_is_Some; by rewrite Hget).
  split_and!; try done.
  - apply obj_get_set_eq.
  - intros k Hk. by apply obj_get_set_ne.
  - simpl. rewrite obj_keys_set. by rewrite decide_True.
  - intros Hwf Hinv.
    pose proof Hinv as [[Hnd Hp] H1]%spec_core_invariant_parts; [|done].
    destruct Hwf as [Hk Hknown _].
    pose proof (obj_get_elem _ _ _ Hget) as Hin.
    assert (g ∈ guest_ids st) as Hgk by (by eapply Hknown).
    assert (g ∉ pool st) as Hgp.
    { intros [_ Hns]%Hp. apply Hns, seated_elem. by exists fromSeat. }
    rewrite decide_True by done.
    rewrite (filter_all _ (pool st)) by (intros x Hx ->; done).
    rewrite settle_pool_id; [done|].
    split; [by apply NoDup_cons|].
    intros x. unfold guest_ids. simpl. fold (guest_ids st).
    rewrite elem_of_cons, Hp, seated_after_release by done.
    destruct (decide (x = g)) as [->|Hxg]; tauto.
Qed.

Lemma handlePoolDrop_spec_witness :
  "table-1:2" ≠ ""
  ∧ truthy (obj_get "table-1:2" (assignments state_four_seated)) = Some "guest-3"
  ∧ dropped_on_pool state_four_seated
      (handlePoolDrop "table-1:2" state_four_seated) "table-1:2" "guest-3".
Proof.
  split_and!; [done|reflexivity|].
  apply (handlePoolDrop_spec "table-1:2" "guest-3" state_four_seated);
    [done|reflexivity].
Defined.

(** ** Releasing the selected seats *)

Lemma release_seats_spec keys m0 m r seen :
  (∀ k, obj_get k m
        = if decide (k ∈ seen ∧ is_Some (truthy (obj_get k m0)))
          then Some None else obj_get k m0) →
  (foldl release_seat (m, r) keys).2
  = r ++ omap (λ k, truthy (obj_get k m0)) (uniq_from seen keys)
  ∧ ∀ k, obj_get k (foldl release_seat (m, r) keys).1
         = if decide (k ∈ seen ++ keys ∧ is_Some (truthy (obj_get k m0)))
           then Some None else obj_get k m0.
Proof.
  revert m r seen. induction keys as [|key keys IH]; intros m r seen Hm.
  { simpl. rewrite !app_nil_r. done. }
  cbn [foldl uniq_from]. unfold release_seat at 2 4.
  assert (∀ (P Q : Prop) `{Decision P, Decision Q} (a b : option (option string)),
            (P ↔ Q) → (if decide P then a else b) = (if decide Q then a else b))
    as Hdec.
  { intros P Q ? ? a b HPQ. repeat case_decide; tauto. }
  destruct (has key seen) eqn:Hseen.
  - apply has_true in Hseen.
    assert (truthy (obj_get key m) = None) as ->.
    { rewrite Hm. case_decide as Hc; [done|].
      destruct (truthy (obj_get key m0)) eqn:Ht; [|done].
      destruct Hc. split; [done|]. by eexists. }
    destruct (IH m r seen Hm) as [-> Hget]. split; [done|].
    intros k. rewrite Hget. apply Hdec.
    rewrite !elem_of_app, elem_of_cons. split; [tauto|].
    intros [[?|[->|?]] ?]; tauto.
  - apply has_false in Hseen.
    assert (obj_get key m = obj_get key m0) as Hkey.
    { rewrite Hm. rewrite decide_False; [done|]. tauto. }
    rewrite Hkey.
    destruct (truthy (obj_get key m0)) as [g|] eqn:Ht.
    + destruct (IH (obj_set key None m) (r ++ [g]) (key :: seen)) as [-> Hget].
      { intros k. destruct (decide (k = key)) as [->|Hne].
        - rewrite obj_get_set_eq, decide_True; [done|].
          split; [by left|]. rewrite Ht. by eexists.
        - rewrite obj_get_set_ne by done. rewrite Hm. apply Hdec.
          rewrite elem_of_cons. tauto. }
      split.
      * cbn [omap list_omap]. rewrite Ht. by rewrite <-app_assoc.
      * intros k. rewrite Hget. apply Hdec.
        rewrite !elem_of_app, !elem_of_cons. tauto.
    + destruct (IH m r (key :: seen)) as [-> Hget].
      { intros k. rewrite Hm. apply Hdec. rewrite elem_of_cons.
        split; [tauto|]. intros [[->|?] Hs]; [|tauto].
        rewrite Ht in Hs. by destruct Hs. }
      split.
      * cbn [omap list_omap]. by rewrite Ht.
      * intros k. rewrite Hget. apply Hdec.
        rewrite !elem_of_app, !elem_of_cons. tauto.
Qed.

Lemma release_seats_keys keys m r :
  obj_keys (foldl release_seat (m, r) keys).1 = obj_keys m.
Proof.
  revert m r. induction keys as [|key keys IH]; intros m r; [done|].
  cbn [foldl]. unfold release_seat at 2.
  destruct (truthy (obj_get key m)) as [g|] eqn:Ht; [|apply IH].
  rewrite IH, obj_keys_set. rewrite decide_True; [done|].
  apply obj_get_is_Some. apply truthy_Some_get in Ht as [-> _]. done.
Qed.


(** ** Clicking a seat *)

Lemma NoDup_snoc (l : list string) x : NoDup l → x ∉ l → NoDup (l ++ [x]).
Proof.
  intros Hnd Hx. apply NoDup_app. split_and!; [done| |apply NoDup_singleton].
  intros y Hy ->%list_elem_of_singleton. done.
Qed.

(** X8: a click on a seat, with any modifier keys, changes nothing but the
    selection, and keeps the selection in order: if it listed no key twice
    and only seats that hold a guest, it still does, and the only key a
    click can add is the key of the clicked seat.  A click on a seat that
    holds no guest clears the selection. *)
Theorem handleSeatClick_selection (tableId : string) (seatIndex : Z)
    (event : MouseEvent) (st : AppState) :
  selection_ok st →
  let st' := handleSeatClick tableId seatIndex event st in
  selection_ok st'
  ∧ (∀ k, k ∈ selectedSeatKeys st' →
          k ∈ selectedSeatKeys st ∨ k = seatKey tableId seatIndex)
  ∧ (¬ seat_taken (assignments st) tableId seatIndex → selectedSeatKeys st' = [])
  ∧ guests st' = guests st ∧ tables st' = tables st
  ∧ assignments st' = assignments st ∧ pool st' = pool st
  ∧ menuState st' = menuState st.
Proof.
  intros [Hnd Htaken]. cbv zeta. unfold handleSeatClick, selection_ok, seat_taken.
  destruct (truthy (obj_get (seatKey tableId seatIndex) (assignments st)))
    as [occupant|] eqn:Hocc; simpl.
  2:{ split_and!; try done.
      - constructor.
      - by intros k ?%elem_of_nil.
      - by intros k ?%elem_of_nil. }
  assert (key_taken (assignments st) (seatKey tableId seatIndex)) as Hkey
    by (unfold key_taken; rewrite Hocc; by eexists).
  set (key := seatKey tableId seatIndex) in *.
  set (sel := selectedSeatKeys st) in *.
  match goal with |- (NoDup ?l ∧ _) ∧ _ => set (new := l) end.
  assert (NoDup new ∧ ∀ k, k ∈ new → k ∈ sel ∨ k = key) as [Hn Hsub].
  { unfold new.
    destruct (has key sel) eqn:Hsel;
      [apply has_true in Hsel|apply has_false in Hsel];
      destruct (metaKey event || ctrlKey event), (shiftKey event);
      (split;
       [ first [ done | by apply NoDup_snoc | by apply NoDup_filter
               | apply NoDup_singleton ]
       | intros k;
         rewrite ?elem_of_app, ?list_elem_of_filter, ?list_elem_of_singleton;
         tauto ]). }
  split_and!; try done.
  - intros k [Hk| ->]%Hsub; [by apply Htaken|done].
  - intros []. by eexists.
Qed.

Lemma handleSeatClick_selection_witness :
  selection_ok (state_selected ["table-1:0"])
  ∧ let st' := handleSeatClick "table-1" 1 (mkMouseEvent false false true)
                               (state_selected ["table-1:0"]) in
    selection_ok st'
    ∧ (∀ k, k ∈ selectedSeatKeys st' →
            k ∈ selectedSeatKeys (state_selected ["table-1:0"])
            ∨ k = seatKey "table-1" 1)
    ∧ (¬ seat_taken (assignments (state_selected ["table-1:0"])) "table-1" 1 →
       selectedSeatKeys st' = [])
    ∧ guests st' = guests (state_selected ["table-1:0"])
    ∧ tables st' = tables (state_selected ["table-1:0"])
    ∧ assignments st' = assignments (state_selected ["table-1:0"])
    ∧ pool st' = pool (state_selected ["table-1:0"])
    ∧ menuState st' = menuState (state_selected ["table-1:0"]).
Proof.
  assert (selection_ok (state_selected ["table-1:0"])) as Hok.
  { split; [apply NoDup_singleton|].
    intros k ->%list_elem_of_singleton. by eexists. }
  split; [done|].
  exact (handleSeatClick_selection "table-1" 1 (mkMouseEvent false false true)
           (state_selected ["table-1:0"]) Hok).
Defined.

(** X9: a click with the control or the meta key held, on a seat that holds
    a guest, toggles that seat in the selection and leaves the other keys
    of the selection as they are.  A second such click gives back the same
    set of selected keys, and the very same list when the seat was not
    selected before. *)
Theorem ctrl_click_toggles (tableId : string) (seatIndex : Z)
    (event : MouseEvent) (st : AppState) :
  metaKey event || ctrlKey event = true →
  seat_taken (assignments st) tableId seatIndex →
  let key := seatKey tableId seatIndex in
  let st' := handleSeatClick tableId seatIndex event st in
  let st'' := handleSeatClick tableId seatIndex event st' in
  (∀ k, k ∈ selectedSeatKeys st'
        ↔ if decide (k = key) then key ∉ selectedSeatKeys st
          else k ∈ selectedSeatKeys st)
  ∧ (∀ k, k ∈ selectedSeatKeys st'' ↔ k ∈ selectedSeatKeys st)
  ∧ (key ∉ selectedSeatKeys st → selectedSeatKeys st'' = selectedSeatKeys st).
Proof.
  intros Hmod [occupant Hocc]. cbv zeta.
  assert (∀ s, assignments s = assignments st →
               handleSeatClick tableId seatIndex event s
               = setSelectedSeatKeys
                   (if has (seatKey tableId seatIndex) (selectedSeatKeys s)
                    then filter (λ seat, seat ≠ seatKey tableId seatIndex)
                                (selectedSeatKeys s)
                    else selectedSeatKeys s ++ [seatKey tableId seatIndex]) s)
    as Hclick.
  { intros s Hs. unfold handleSeatClick. by rewrite Hs, Hocc, Hmod. }
  rewrite (Hclick (handleSeatClick _ _ _ st)) by (by rewrite Hclick).
  rewrite (Hclick st) by done. simpl.
  set (key := seatKey tableId seatIndex). set (sel := selectedSeatKeys st).
  destruct (has key sel) eqn:Hsel;
    [apply has_true in Hsel|apply has_false in Hsel].
  - assert (has key (filter (λ seat, seat ≠ key) sel) = false) as ->.
    { apply has_false. rewrite list_elem_of_filter. tauto. }
    split_and!; [| |done].
    + intros k. rewrite list_elem_of_filter. case_decide; subst; tauto.
    + intros k. rewrite elem_of_app, list_elem_of_filter, list_elem_of_singleton.
      destruct (decide (k = key)); subst; tauto.
  - assert (has key (sel ++ [key]) = true) as ->.
    { apply has_true, elem_of_app. right. by apply list_elem_of_singleton. }
    assert (filter (λ seat, seat ≠ key) (sel ++ [key]) = sel) as Hback.
    { rewrite filter_app, filter_cons, decide_False by tauto.
      rewrite filter_nil, app_nil_r. apply filter_all. by intros x Hx ->. }
    rewrite Hback. split_and!; [|done|done].
    intros k. rewrite elem_of_app, list_elem_of_singleton.
    case_decide; subst; tauto.
Qed.

Lemma ctrl_click_toggles_witness :
  metaKey (mkMouseEvent false true false)
  || ctrlKey (mkMouseEvent false true false) = true
  ∧ seat_taken (assignments (state_selected ["table-1:0"])) "table-1" 1
  ∧ selectedSeatKeys
      (handleSeatClick "table-1" 1 (mkMouseEvent false true false)
         (handleSeatClick "table-1" 1 (mkMouseEvent false true false)
            (state_selected ["table-1:0"])))
    = ["table-1:0"].
Proof.
  assert (seat_taken (assignments (state_selected ["table-1:0"])) "table-1" 1)
    as Htaken by (by eexists).
  split_and!; [done|done|].
  refine (proj2 (proj2 (ctrl_click_toggles "table-1" 1
                          (mkMouseEvent false true false)
                          (state_selected ["table-1:0"]) eq_refl Htaken)) _).
  apply (bool_decide_unpack _). by vm_compute.
Defined.

(** ** A click followed by Delete *)

Lemma returnGuestsToPool_one_eq d st :
  returnGuestsToPool [d] st
  = setPool ((if decide (d ∈ guest_ids st) then [d] else [])
             ++ filter (λ x, x ≠ d) (pool st)) st.
Proof.
  rewrite returnGuestsToPool_eq. f_equal. f_equal.
  apply list_filter_iff. intros x. by rewrite elem_of_uniq, list_elem_of_singleton.
Qed.

Lemma pool_consistent_after_release st s2 k g :
  well_formed st → spec_core_invariant st →
  obj_get k (assignments st) = Some (Some g) →
  guests s2 = guests st →
  assignments s2 = obj_set k None (assignments st) →
  pool s2 = g :: pool st →
  pool_consistent s2.
Proof.
  intros Hwf Hinv Hget Hg Hm Hpool.
  pose proof Hinv as [[Hnd Hp] H1]%spec_core_invariant_parts; [|done].
  destruct Hwf as [Hk Hknown _].
  pose proof (obj_get_elem _ _ _ Hget) as Hin.
  assert (g ∈ guest_ids st) as Hgk by (by eapply Hknown).
  assert (g ∉ pool st) as Hgp.
  { intros [_ Hns]%Hp. apply Hns, seated_elem. by exists k. }
  unfold pool_consistent, guest_ids. rewrite Hpool, Hm, Hg. fold (guest_ids st).
  split; [by apply NoDup_cons|].
  intros x. rewrite elem_of_cons, Hp, seated_after_release by done.
  destruct (decide (x = g)) as [->|Hxg]; tauto.
Qed.

Lemma release_one s key g :
  selectedSeatKeys s = [key] →
  truthy (obj_get key (assignments s)) = Some g →
  releaseSelectedSeats s
  = setSelectedSeatKeys []
      (setPool ((if decide (g ∈ guest_ids s) then [g] else [])
                ++ filter (λ x, x ≠ g) (pool s))
         (setAssignments (obj_set key None (assignments s)) s)).
Proof.
  intros Hsel Hg. unfold releaseSelectedSeats. rewrite Hsel. simpl.
  rewrite Hg. by rewrite returnGuestsToPool_one_eq.
Qed.



(** ** The invariants of the data model after a handler *)

(** The effects establish the part of the data model that concerns the
    pool and the selection. *)
Lemma settled_model_inv st st1 :
  model_inv st →
  guests st1 = guests st →
  NoDup (table_id <$> tables st1) →
  (∀ t, t ∈ tables st1 → ∃ n, seatCount t = Fin n ∧ (1 ≤ n)%Z) →
  NoDup (obj_keys (assignments st1)) →
  (∀ k, k ∈ obj_keys (assignments st1) ↔ is_seat_key (tables st1) k) →
  (∀ k g, (k, Some g) ∈ assignments st1 → g ∈ guest_ids st) →
  one_seat_each (assignments st1) →
  model_inv (settle st1).
Proof.
  intros Hinv Hg Hids Hcounts Hnd Hkeys Hknown H1.
  assert (well_formed st1) as Hwf.
  { split; [done| |].
    - unfold guest_ids. rewrite Hg. apply Hknown.
    - intros t Ht. destruct (Hcounts t Ht) as (n & -> & _). done. }
  destruct (settled_invariant st1 Hwf H1) as [_ Hcore].
  destruct (settle_frame st1) as (Hg' & Ht' & Hm').
  split; unfold guest_ids; rewrite ?Hg', ?Ht', ?Hm', ?Hg; try done.
  - apply Hinv.
  - apply Hinv.
  - intros k. rewrite settle_selection. by intros [? _]%list_elem_of_filter.
Qed.

Lemma seated_same_entries (m m' : Assignments) :
  NoDup (obj_keys m) →
  (∀ k, k ∈ obj_keys m → obj_get k m' = obj_get k m) →
  shrinks m m' →
  ∀ g, seated m' g ↔ seated m g.
Proof.
  intros Hnd Hsame Hs g. rewrite !seated_elem. split.
  - intros (k & Hin). exists k. by apply Hs.
  - intros (k & Hin). exists k. apply obj_get_elem. rewrite Hsame.
    + by apply obj_get_NoDup.
    + apply list_elem_of_fmap. by exists (k, Some g).
Qed.

Lemma is_seat_key_app ts ts' k :
  is_seat_key (ts ++ ts') k ↔ is_seat_key ts k ∨ is_seat_key ts' k.
Proof.
  unfold is_seat_key. setoid_rewrite elem_of_app. split.
  - intros (t & n & i & [Ht|Ht] & ?); [left|right]; by exists t, n, i.
  - intros [(t & n & i & Ht & ?)|(t & n & i & Ht & ?)]; exists t, n, i; tauto.
Qed.

Lemma is_seat_key_singleton t n k :
  seatCount t = Fin n →
  is_seat_key [t] k ↔ ∃ i, (0 ≤ i < n)%Z ∧ k = seatKey (table_id t) i.
Proof.
  intros Hc. unfold is_seat_key. split.
  - intros (t' & n' & i & ->%list_elem_of_singleton & Hc' & Hi & ->).
    exists i. split; [|done]. congruence.
  - intros (i & Hi & ->). exists t, n, i. split_and!; try done; try lia.
    by apply list_elem_of_singleton.
Qed.

(** The keys of other tables are not keys of table [tid]. *)
Lemma seat_key_of_other_table ts tid k :
  tid ∉ table_id <$> ts → is_seat_key ts k → ∀ i, k ≠ seatKey tid i.
Proof.
  intros Hfresh (t & n & j & Ht & _ & _ & ->) i [Heq _]%seatKey_inj.
  apply Hfresh, list_elem_of_fmap. by exists t.
Qed.

(** The seats after [handleAddTable] wrote the eight keys of [tid]. *)
Lemma add_table_seats tid st :
  let m1 := foldl (λ next i, obj_set (seatKey tid i) None next)
                  (assignments st) (seqZ 0 8) in
  (∀ k, k ∈ obj_keys m1 ↔
        k ∈ obj_keys (assignments st) ∨ ∃ i, (0 ≤ i < 8)%Z ∧ k = seatKey tid i)
  ∧ (∀ i, (0 ≤ i < 8)%Z → obj_get (seatKey tid i) m1 = Some None)
  ∧ (model_inv st → tid ∉ table_id <$> tables st →
     ∀ k, k ∈ obj_keys (assignments st) → obj_get k m1 = obj_get k (assignments st)).
Proof.
  cbv zeta. split_and!.
  - intros k. rewrite empty_seats_keys. by setoid_rewrite elem_of_seqZ.
  - intros i Hi. rewrite add_seats_get. rewrite decide_True; [done|].
    apply elem_of_seat_range. exists i. split; [lia|done].
  - intros Hinv Hfresh k Hk. rewrite add_seats_get. rewrite decide_False; [done|].
    intros (i & _ & ->)%elem_of_seat_range.
    apply (inv_keys _ Hinv) in Hk.
    by eapply seat_key_of_other_table.
Qed.

Lemma add_table_model now st :
  model_inv st →
  ("table-" +:+ pretty now) ∉ table_id <$> tables st →
  model_inv (settle (handleAddTable now st)).
Proof.
  intros Hinv Hfresh.
  destruct (model_inv_parts st Hinv) as (Hwf & _ & H1).
  set (tid := "table-" +:+ pretty now) in *.
  destruct (add_table_seats tid st) as (Hkeys & _ & _).
  destruct (add_seats_shrinks tid (seqZ 0 8) (assignments st)) as [Hs Hnd].
  set (m1 := foldl (λ next i, obj_set (seatKey tid i) None next)
                   (assignments st) (seqZ 0 8)) in *.
  set (new := added_table now (length (tables st))).
  change (handleAddTable now st)
    with (setAssignments m1 (setTables (tables st ++ [new]) st)).
  apply (settled_model_inv st); try done.
  - simpl. rewrite fmap_app. apply NoDup_app. split_and!.
    + apply Hinv.
    + intros x Hx ->%list_elem_of_singleton. done.
    + apply NoDup_singleton.
  - simpl. intros t [Ht| ->%list_elem_of_singleton]%elem_of_app.
    + by apply (inv_seat_counts _ Hinv).
    + by exists 8%Z.
  - apply Hnd, Hinv.
  - simpl. intros k. rewrite Hkeys, is_seat_key_app, (inv_keys _ Hinv).
    by rewrite (is_seat_key_singleton new 8).
  - eapply shrinks_known; [done|]. apply Hwf.
  - by eapply shrinks_one_seat.
Qed.

(** X11: adding a table whose clock-derived id is not the id of a table yet
    keeps the invariants of the data model.  The new table comes last, with
    eight seats that are all empty; no existing seat changes its occupant,
    and the guests, the pool and the selection stay as they are. *)
Theorem handleAddTable_keeps_model (now : Z) (st : AppState) :
  model_inv st →
  ("table-" +:+ pretty now) ∉ table_id <$> tables st →
  model_inv (settle (handleAddTable now st))
  ∧ table_added st (settle (handleAddTable now st)) now.
Proof.
  intros Hinv Hfresh. split; [by apply add_table_model|].
  destruct (model_inv_parts st Hinv) as (Hwf & Hpool & H1).
  set (tid := "table-" +:+ pretty now) in *.
  destruct (add_table_seats tid st) as (Hkeys & Hnew & Hold).
  specialize (Hold Hinv Hfresh).
  destruct (add_seats_shrinks tid (seqZ 0 8) (assignments st)) as [Hs _].
  set (m1 := foldl (λ next i, obj_set (seatKey tid i) None next)
                   (assignments st) (seqZ 0 8)) in *.
  set (new := added_table now (length (tables st))).
  change (handleAddTable now st)
    with (setAssignments m1 (setTables (tables st ++ [new]) st)).
  set (st1 := setAssignments m1 _).
  destruct (settle_frame st1) as (Hg' & Ht' & Hm').
  unfold table_added. fold new. rewrite Hg', Ht', Hm'.
  change (table_id new) with tid. change (assignments st1) with m1.
  split_and!; try done.
  - rewrite settle_pool_id; [done|].
    destruct Hpool as [Hpnd Hp]. split; [done|].
    intros g. change (guest_ids st1) with (guest_ids st).
    change (pool st1) with (pool st). change (assignments st1) with m1.
    rewrite Hp, (seated_same_entries (assignments st) m1); try done. apply Hinv.
  - rewrite settle_selection. change (assignments st1) with m1.
    change (selectedSeatKeys st1) with (selectedSeatKeys st).
    apply filter_all. intros k Hk.
    pose proof (inv_selection _ Hinv k Hk) as Htaken.
    rewrite Hold; [done|]. apply obj_get_is_Some.
    destruct Htaken as [g [-> _]%truthy_Some_get]. done.
Qed.

Lemma handleAddTable_keeps_model_witness :
  model_inv state_four_seated
  ∧ (("table-" +:+ pretty 1700000000000%Z)
     ∉ table_id <$> tables state_four_seated)
  ∧ model_inv (settle (handleAddTable 1700000000000 state_four_seated))
  ∧ table_added state_four_seated
      (settle (handleAddTable 1700000000000 state_four_seated)) 1700000000000.
Proof.
  assert (("table-" +:+ pretty 1700000000000%Z)
          ∉ table_id <$> tables state_four_seated) as Hfresh.
  { apply (bool_decide_unpack _). by vm_compute. }
  split_and!; [apply state_four_seated_inv|done|..];
    apply (handleAddTable_keeps_model 1700000000000 state_four_seated
             state_four_seated_inv Hfresh).
Defined.

(** X12: [handleAddTable] keeps the core invariant whatever the clock reads.
    It binds the eight seat keys of the new id to [null] and leaves the
    other keys alone, also when a table with that id exists already (two
    clicks within one millisecond): the guests on the first eight seats of
    that table then lose their seats, a second table with the same id is
    listed, and the effects return those guests to the pool. *)
Theorem handleAddTable_keeps_core (now : Z) (st : AppState) :
  well_formed st → spec_core_invariant st →
  well_formed (settle (handleAddTable now st))
  ∧ spec_core_invariant (settle (handleAddTable now st))
  ∧ seats_reset st (settle (handleAddTable now st)) now.
Proof.
  intros Hwf Hinv.
  pose proof Hinv as [Hpool H1]%spec_core_invariant_parts; [|done].
  set (tid := "table-" +:+ pretty now).
  set (m1 := foldl (λ next i, obj_set (seatKey tid i) None next)
                   (assignments st) (seqZ 0 8)).
  assert (handleAddTable now st
          = setAssignments m1
              (setTables (tables st ++ [added_table now (length (tables st))]) st))
    as -> by done.
  set (st1 := setAssignments m1 _).
  destruct (add_seats_shrinks tid (seqZ 0 8) (assignments st)) as [Hs Hnd].
  fold m1 in Hs, Hnd.
  assert (well_formed st1) as Hwf1.
  { destruct Hwf as [Hk Hknown Hc]. split; simpl.
    - by apply Hnd.
    - by eapply shrinks_known.
    - intros t [Ht| ->%list_elem_of_singleton]%elem_of_app; [by apply Hc|done]. }
  assert (one_seat_each (assignments st1)) as H11
    by (by eapply shrinks_one_seat).
  destruct (settled_invariant st1 Hwf1 H11) as [Hwf' Hinv'].
  split_and!; try done.
  destruct (settle_frame st1) as (Hg' & Ht' & Hm').
  unfold seats_reset. rewrite Hg', Ht', Hm'. fold tid.
  change (assignments st1) with m1. split_and!; try done.
  - intros i Hi. unfold m1. rewrite add_seats_get. rewrite decide_True; [done|].
    apply elem_of_seat_range. exists i. split; [lia|done].
  - intros k Hk. unfold m1. rewrite add_seats_get. rewrite decide_False; [done|].
    intros (i & Hi & ->)%elem_of_seat_range. eapply Hk; [|done]. lia.
Qed.

Lemma handleAddTable_keeps_core_witness :
  well_formed (settle default_state)
  ∧ spec_core_invariant (settle default_state)
  ∧ well_formed (settle (handleAddTable 7 (settle default_state)))
  ∧ spec_core_invariant (settle (handleAddTable 7 (settle default_state)))
  ∧ seats_reset (settle default_state)
      (settle (handleAddTable 7 (settle default_state))) 7.
Proof.
  split_and!;
    [apply default_state_well_formed|apply default_state_invariant|..];
    apply (handleAddTable_keeps_core 7 (settle default_state)
             default_state_well_formed default_state_invariant).
Defined.

(** Adding a table a second time at the same clock value unseats the guest
    on its first seat and lists the id twice. *)
Example add_table_twice_unseats :
  let st' := settle (handleAddTable 7 state_clock_table) in
  obj_get "table-7:0" (assignments state_clock_table) = Some (Some "guest-1")
  ∧ obj_get "table-7:0" (assignments st') = Some None
  ∧ "guest-1" ∈ pool st'
  ∧ filter (λ id, id = "table-7") (table_id <$> tables st')
    = ["table-7"; "table-7"].
Proof.
  cbv zeta. split_and!; [reflexivity|reflexivity| |reflexivity].
  apply (bool_decide_unpack _). by vm_compute.
Qed.

(** ** Removing a table whose id is not nested in another *)

Lemma prefix_nil s : String.prefix "" s = true.
Proof. by destruct s. Qed.

Lemma prefix_cons a s1 b s2 :
  String.prefix (String a s1) (String b s2)
  = bool_decide (a = b) && String.prefix s1 s2.
Proof.
  simpl. destruct (ascii_dec a b) as [->|Hne].
  - by rewrite bool_decide_eq_true_2.
  - by rewrite bool_decide_eq_false_2.
Qed.

Lemma prefix_colon_free x p :
  has_colon p = false → String.prefix (x +:+ ":") p = false.
Proof.
  revert p. induction x as [|a x IH]; intros [|c p] Hp; try done.
  - rewrite string_app_nil, prefix_cons. simpl in Hp.
    apply orb_false_elim in Hp as [Hc _]. apply bool_decide_eq_false in Hc.
    rewrite bool_decide_eq_false_2; [done|]. congruence.
  - rewrite string_app_cons, prefix_cons. simpl in Hp.
    apply orb_false_elim in Hp as [_ Hp]. rewrite IH by done.
    by rewrite andb_false_r.
Qed.

Lemma prefix_of_key tid t p :
  has_colon p = false →
  String.prefix (tid +:+ ":") (t +:+ ":" +:+ p)
  = bool_decide (t = tid) || String.prefix (tid +:+ ":") t.
Proof.
  intros Hp. revert t. induction tid as [|a tid IH]; intros [|c t].
  - rewrite !string_app_nil. change (":" +:+ p) with (String ":" p).
    by rewrite prefix_cons, prefix_nil.
  - rewrite string_app_nil, string_app_cons, !prefix_cons, !prefix_nil.
    by rewrite (bool_decide_eq_false_2 (String c t = "")).
  - rewrite string_app_nil, string_app_cons.
    change (":" +:+ p) with (String ":" p). rewrite prefix_cons.
    rewrite (prefix_colon_free _ _ Hp), andb_false_r. done.
  - rewrite !string_app_cons, !prefix_cons, IH.
    destruct (decide (a = c)) as [->|Hne].
    + rewrite bool_decide_eq_true_2 by done. simpl. f_equal.
      apply bool_decide_ext. split; congruence.
    + rewrite bool_decide_eq_false_2 by done. simpl.
      rewrite bool_decide_eq_false_2; [done|]. congruence.
Qed.

Lemma prefix_of_seatKey tid t i :
  String.prefix (tid +:+ ":") (seatKey t i)
  = bool_decide (t = tid) || String.prefix (tid +:+ ":") t.
Proof. apply prefix_of_key, pretty_Z_no_colon. Qed.

(** The keys with the prefix are the seat keys of the table. *)
Lemma prefixed_seat_keys ts tid k :
  no_nested_id ts tid → is_seat_key ts k →
  String.prefix (tid +:+ ":") k = true ↔ ∃ i, k = seatKey tid i.
Proof.
  intros Hnest (t & n & j & Ht & _ & _ & ->). rewrite prefix_of_seatKey.
  rewrite (Hnest t Ht), orb_false_r, bool_decide_eq_true. split.
  - intros ->. by exists j.
  - by intros (i & [? _]%seatKey_inj).
Qed.

Lemma remove_keys_returning t keys m r :
  NoDup keys →
  (foldl (remove_key t) (m, r) keys).2
  = r ++ omap (λ k, if String.prefix (t +:+ ":") k
                    then truthy (obj_get k m) else None) keys.
Proof.
  revert m r. induction keys as [|key keys IH]; intros m r Hnd.
  { simpl. by rewrite app_nil_r. }
  apply NoDup_cons in Hnd as [Hkey Hnd]. cbn [foldl]. unfold remove_key at 2.
  cbn [omap list_omap].
  destruct (String.prefix (t +:+ ":") key) eqn:Hp.
  - rewrite IH by done.
    assert (omap (λ k, if String.prefix (t +:+ ":") k
                       then truthy (obj_get k (obj_delete key m)) else None) keys
            = omap (λ k, if String.prefix (t +:+ ":") k
                         then truthy (obj_get k m) else None) keys) as ->.
    { apply omap_ext_in. intros k Hk. destruct (String.prefix _ k); [|done].
      rewrite obj_get_delete_ne; [done|]. by intros ->. }
    destruct (truthy (obj_get key m)); [|done]. by rewrite <-app_assoc.
  - by rewrite IH.
Qed.

Lemma settle_menu st :
  menuState (settle st)
  = match menuState st with
    | Some tableId =>
        if bool_decide (tableId ∈ table_id <$> tables st) then Some tableId else None
    | None => None
    end.
Proof.
  change (menuState (settle st)) with (menuState (closeStaleMenu st)).
  unfold closeStaleMenu.
  destruct (menuState st) as [tableId|] eqn:Hmenu; [|done].
  by destruct (bool_decide (tableId ∈ table_id <$> tables st)).
Qed.

Lemma prefix_own_seatKey tid i : String.prefix (tid +:+ ":") (seatKey tid i) = true.
Proof. rewrite prefix_of_seatKey. by rewrite bool_decide_eq_true_2. Qed.

Lemma remove_table_model tid st :
  model_inv st → no_nested_id (tables st) tid →
  model_inv (settle (handleRemoveTable tid st)).
Proof.
  intros Hinv Hnest.
  destruct (model_inv_parts st Hinv) as (Hwf & _ & H1).
  destruct (handleRemoveTable_spec tid st) as (Hg1 & Ht1 & Hm1 & _ & _).
  destruct (remove_preserves tid st Hwf) as (Hwf1 & _ & Hshr).
  set (st1 := handleRemoveTable tid st) in *. clearbody st1.
  apply (settled_model_inv st); try done.
  - rewrite Ht1. eapply sublist_NoDup; [apply (inv_table_ids _ Hinv)|].
    apply fmap_sublist, sublist_filter.
  - rewrite Ht1. intros t [_ Ht]%list_elem_of_filter.
    by apply (inv_seat_counts _ Hinv).
  - apply Hwf1.
  - intros k. rewrite <-obj_get_is_Some, Hm1, Ht1. split.
    + destruct (String.prefix (tid +:+ ":") k) eqn:Hpk; [by intros [? ?]|].
      intros Hk%obj_get_is_Some.
      pose proof Hk as (t & n & j & Ht & Hc & Hj & ->)%(inv_keys _ Hinv).
      exists t, n, j. split; [|done]. apply list_elem_of_filter.
      split; [|done]. intros Hid. rewrite Hid, prefix_own_seatKey in Hpk. done.
    + intros (t & n & j & [Hid Ht]%list_elem_of_filter & Hc & Hj & ->).
      rewrite prefix_of_seatKey, (Hnest t Ht), orb_false_r.
      rewrite bool_decide_eq_false_2 by done.
      apply obj_get_is_Some, (inv_keys _ Hinv). by exists t, n, j.
  - intros k g Hin. eapply (wf_known _ Hwf). by apply Hshr.
  - by eapply shrinks_one_seat.
Qed.



(** ** Resizing a table from its menu *)

Lemma or_one_not_NaN v : or_one v ≠ NaN.
Proof. destruct v as [| | |q]; simpl; try done. by destruct (Qeq_bool q 0). Qed.

Lemma table_unique (ts : list Table) t t' :
  NoDup (table_id <$> ts) → t ∈ ts → t' ∈ ts → table_id t = table_id t' → t = t'.
Proof.
  induction ts as [|a ts IH]; csimpl; intros Hnd Ht Ht' Heq.
  - by apply elem_of_nil in Ht.
  - apply NoDup_cons in Hnd as [Ha Hnd].
    apply elem_of_cons in Ht as [->|Ht]; apply elem_of_cons in Ht' as [->|Ht'].
    + done.
    + destruct Ha. rewrite Heq. apply list_elem_of_fmap. by exists t'.
    + destruct Ha. rewrite <-Heq. apply list_elem_of_fmap. by exists t.
    + by apply IH.
Qed.

Lemma with_seat_count_ids tid n ts :
  table_id <$> with_seat_count tid n ts = table_id <$> ts.
Proof.
  unfold with_seat_count. rewrite <-list_fmap_compose. apply list_fmap_ext.
  intros i t _. simpl. by case_decide.
Qed.

Lemma is_seat_key_split ts tid table old k :
  NoDup (table_id <$> ts) → table ∈ ts → table_id table = tid →
  seatCount table = Fin old →
  is_seat_key ts k
  ↔ other_seat_key ts tid k ∨ ∃ i, (0 ≤ i < old)%Z ∧ k = seatKey tid i.
Proof.
  intros Hnd Hin Hid Hc. split.
  - intros (t & n & i & Ht & Hn & Hi & ->).
    destruct (decide (table_id t = tid)) as [Heq|Hne].
    + right. assert (t = table) as -> by (apply (table_unique ts); congruence).
      exists i. split; [|by rewrite Hid]. congruence.
    + left. by exists t, n, i.
  - intros [(t & n & i & Ht & _ & Hn & Hi & ->)|(i & Hi & ->)].
    + by exists t, n, i.
    + exists table, old, i. by rewrite Hid.
Qed.

Lemma is_seat_key_resized ts tid table n k :
  table ∈ ts → table_id table = tid →
  is_seat_key (with_seat_count tid (Fin n) ts) k
  ↔ other_seat_key ts tid k ∨ ∃ i, (0 ≤ i < n)%Z ∧ k = seatKey tid i.
Proof.
  intros Hin Hid. unfold is_seat_key, with_seat_count.
  setoid_rewrite list_elem_of_fmap. split.
  - intros (t' & n' & i & (t & -> & Ht) & Hn & Hi & ->).
    case_decide as Heq; simpl in *.
    + right. exists i. split; [congruence|by rewrite Heq].
    + left. by exists t, n', i.
  - intros [(t & n' & i & Ht & Hne & Hn & Hi & ->)|(i & Hi & ->)].
    + exists t, n', i. split; [|done]. exists t.
      by rewrite decide_False.
    + exists (mkTable tid (Fin n) (position table)), n, i. split; [|done].
      exists table. by rewrite decide_True, Hid.
Qed.

Lemma other_seat_key_not_own ts tid k i :
  other_seat_key ts tid k → k ≠ seatKey tid i.
Proof. intros (t & n & j & _ & Hne & _ & _ & ->) [? _]%seatKey_inj. done. Qed.

Lemma model_inv_settle st : model_inv st → model_inv (settle st).
Proof.
  intros Hinv. destruct (model_inv_parts st Hinv) as (Hwf & _ & H1).
  apply (settled_model_inv st); try done; try apply Hinv. apply Hwf.
Qed.

Lemma resize_model (tid : string) (x : number) (st : AppState) :
  model_inv st → x ≠ NaN →
  ∃ st' n,
    updateSeatCount tid x st = Some st'
    ∧ sanitize x = Fin n ∧ (1 ≤ n ≤ 24)%Z
    ∧ model_inv (settle st')
    ∧ guests (settle st') = guests st
    ∧ table_id <$> tables (settle st') = table_id <$> tables st
    ∧ ∀ t, t ∈ tables (settle st') →
           if decide (table_id t = tid) then seatCount t = Fin n else t ∈ tables st.
Proof.
  intros Hinv Hx.
  destruct (model_inv_parts st Hinv) as (Hwf & _ & H1).
  destruct (sanitize_range x Hx) as (n & Hn & Hrange).
  destruct (resize_preserves tid x st Hwf) as (st1 & Hup & Hwf1 & Hg1 & Hshr).
  exists st1, n. split; [done|]. split; [done|]. split; [done|].
  destruct (settle_frame st1) as (Hg' & Ht' & Hm'). rewrite Hg', Ht'.
  destruct (find (λ entry, bool_decide (table_id entry = tid)) (tables st))
    as [table|] eqn:Hfind.
  2:{ assert (st1 = st) as ->.
      { unfold updateSeatCount in Hup. rewrite Hfind in Hup. congruence. }
      split_and!; try done; [by apply model_inv_settle|].
      intros t Ht. case_decide as Hid; [|done].
      apply find_none with (x := t) in Hfind; [|by apply list_elem_of_In].
      by rewrite bool_decide_eq_true_2 in Hfind. }
  pose proof (find_table _ _ _ Hfind) as [Hin Hid].
  destruct (inv_seat_counts _ Hinv table Hin) as (old & Hold & Hold1).
  destruct (decide (n = old)) as [->|Hne].
  { assert (st1 = st) as ->.
    { unfold updateSeatCount in Hup. rewrite Hfind, Hn, Hold in Hup. simpl in Hup.
      rewrite bool_decide_eq_true_2 in Hup by done. congruence. }
    split_and!; try done; [by apply model_inv_settle|].
    intros t Ht. case_decide as Ht'id; [|done].
    assert (t = table) as -> by (apply (table_unique (tables st)); try done;
                                 [apply Hinv|congruence]).
    done. }
  destruct (updateSeatCount_resized st tid x table old n Hfind Hold Hn Hne)
    as (st1' & Hup' & Hspec).
  assert (st1' = st1) as -> by congruence.
  destruct Hspec as (_ & _ & Htables & Hshrink & Hgrow & _).
  fold (with_seat_count tid (Fin n) (tables st)) in Htables.
  assert (∀ k, k ∈ obj_keys (assignments st1) ↔ is_seat_key (tables st1) k) as Hkeys.
  { intros k. rewrite Htables, (is_seat_key_resized _ _ table) by done.
    rewrite <-obj_get_is_Some.
    pose proof (is_seat_key_split (tables st) tid table old k
                  (inv_table_ids _ Hinv) Hin Hid Hold) as Hsplit.
    rewrite <-(inv_keys _ Hinv), <-obj_get_is_Some in Hsplit.
    destruct (Z.lt_trichotomy n old) as [Hlt|[?|Hgt]]; [|done|].
    - destruct (Hshrink Hlt) as (Hdel & Hsame & _).
      destruct (decide (k ∈ seatKey tid <$> seqZ n (old - n))) as [Hk|Hk].
      + apply elem_of_seat_range in Hk as (i & Hi & ->).
        rewrite Hdel by lia. split; [by intros [? ?]|].
        intros [Ho|(j & Hj & ->%seatKey_inj_index)]; [|lia].
        by destruct (other_seat_key_not_own _ _ _ i Ho).
      + rewrite Hsame.
        2:{ intros i Hi ->. apply Hk, elem_of_seat_range. exists i.
            split; [lia|done]. }
        rewrite Hsplit. split.
        * intros [?|(i & Hi & ->)]; [by left|]. right. exists i. split; [|done].
          destruct (decide (i < n)%Z); [lia|]. destruct Hk.
          apply elem_of_seat_range. exists i. split; [lia|done].
        * intros [?|(i & Hi & ->)]; [by left|]. right. exists i. split; [lia|done].
    - destruct (Hgrow Hgt) as (Hadd & Hsame & _).
      destruct (decide (k ∈ seatKey tid <$> seqZ old (n - old))) as [Hk|Hk].
      + apply elem_of_seat_range in Hk as (i & Hi & ->).
        rewrite Hadd by lia. split; [|by eexists].
        intros _. right. exists i. split; [lia|done].
      + rewrite Hsame.
        2:{ intros i Hi ->. apply Hk, elem_of_seat_range. exists i.
            split; [lia|done]. }
        rewrite Hsplit. split.
        * intros [?|(i & Hi & ->)]; [by left|]. right. exists i. split; [lia|done].
        * intros [?|(i & Hi & ->)]; [by left|]. right. exists i. split; [|done].
          destruct (decide (i < old)%Z); [lia|]. destruct Hk.
          apply elem_of_seat_range. exists i. split; [lia|done]. }
  split_and!; try done.
  - apply (settled_model_inv st); try done.
    + rewrite Htables, with_seat_count_ids. apply Hinv.
    + rewrite Htables. unfold with_seat_count.
      intros t' (t & -> & Ht)%list_elem_of_fmap. case_decide.
      * exists n. split; [done|lia].
      * by apply (inv_seat_counts _ Hinv).
    + apply Hwf1.
    + intros k g Hk. eapply (wf_known _ Hwf). by apply Hshr.
    + by eapply shrinks_one_seat.
  - by rewrite Htables, with_seat_count_ids.
  - rewrite Htables. unfold with_seat_count.
    intros t' (t & -> & Ht)%list_elem_of_fmap.
    destruct (decide (table_id t = tid)) as [Heq|Hneq]; simpl.
    + by rewrite decide_True.
    + by rewrite decide_False.
Qed.

(** X14: a seat count entered in the menu of a table is never [NaN].  The
    value of the slider or of the number field is read with
    [Number(value) || 1], and a pill passes one of [SEAT_OPTIONS], which
    that reading and the clamp leave as it is.  So [updateSeatCount]
    returns, the invariants of the data model hold after the effects, the
    table ids are the same, and every table with the given id has the
    requested count floored and clamped to [1, 24]. *)
Theorem menu_resize_keeps_model (tid : string) (v : number) (option : Z)
    (st : AppState) :
  model_inv st →
  (option ∈ SEAT_OPTIONS →
   or_one (Fin (inject_Z option)) = Fin (inject_Z option)
   ∧ sanitize (Fin (inject_Z option)) = Fin option)
  ∧ ∃ st' n,
      updateSeatCount tid (or_one v) st = Some st'
      ∧ sanitize (or_one v) = Fin n ∧ (1 ≤ n ≤ 24)%Z
      ∧ model_inv (settle st')
      ∧ guests (settle st') = guests st
      ∧ table_id <$> tables (settle st') = table_id <$> tables st
      ∧ ∀ t, t ∈ tables (settle st') →
             if decide (table_id t = tid) then seatCount t = Fin n else t ∈ tables st.
Proof.
  intros Hinv. split.
  - intros Ho. unfold SEAT_OPTIONS in Ho.
    repeat (apply elem_of_cons in Ho as [->|Ho]; [by split|]).
    by apply elem_of_nil in Ho.
  - apply resize_model; [done|apply or_one_not_NaN].
Qed.

Lemma menu_resize_keeps_model_witness :
  model_inv state_four_seated
  ∧ (12%Z ∈ SEAT_OPTIONS →
     or_one (Fin (inject_Z 12)) = Fin (inject_Z 12)
     ∧ sanitize (Fin (inject_Z 12)) = Fin 12%Z)
  ∧ ∃ st' n,
      updateSeatCount "table-1" (or_one (Fin 2%Q)) state_four_seated = Some st'
      ∧ sanitize (or_one (Fin 2%Q)) = Fin n ∧ (1 ≤ n ≤ 24)%Z
      ∧ model_inv (settle st')
      ∧ guests (settle st') = guests state_four_seated
      ∧ table_id <$> tables (settle st') = table_id <$> tables state_four_seated
      ∧ ∀ t, t ∈ tables (settle st') →
             if decide (table_id t = "table-1") then seatCount t = Fin n
             else t ∈ tables state_four_seated.
Proof.
  split; [apply state_four_seated_inv|].
  exact (menu_resize_keeps_model "table-1" (Fin 2%Q) 12 state_four_seated
           state_four_seated_inv).
Defined.

(** ** Returning guests to the pool *)

(** X15: [returnGuestsToPool] changes nothing but the pool.  Afterwards the
    pool holds the listed ids that are known guests and the previous
    entries that are not listed; it has no duplicate if it had none before;
    and a second call with the same ids changes nothing more.  An id that is
    listed but is not a known guest is removed from the pool. *)
Theorem returnGuestsToPool_spec (ids : list string) (st : AppState) :
  let st' := returnGuestsToPool ids st in
  (∀ g, g ∈ pool st' ↔ (g ∈ ids ∧ g ∈ guest_ids st) ∨ (g ∈ pool st ∧ g ∉ ids))
  ∧ (NoDup (pool st) → NoDup (pool st'))
  ∧ returnGuestsToPool ids st' = st'
  ∧ guests st' = guests st ∧ tables st' = tables st
  ∧ assignments st' = assignments st
  ∧ selectedSeatKeys st' = selectedSeatKeys st
  ∧ menuState st' = menuState st.
Proof.
  cbv zeta. rewrite !returnGuestsToPool_eq. simpl.
  set (A := filter (λ g, g ∈ guest_ids st) (uniq ids)).
  set (F := filter (λ g, g ∉ uniq ids) (pool st)).
  split_and!; try done.
  - intros g. unfold A, F.
    rewrite elem_of_app, !list_elem_of_filter, elem_of_uniq. tauto.
  - intros Hnd. apply NoDup_app. split_and!.
    + apply NoDup_filter, NoDup_uniq.
    + unfold A, F. intros g [_ Hg]%list_elem_of_filter [Hg' _]%list_elem_of_filter.
      done.
    + by apply NoDup_filter.
  - unfold setPool. simpl. f_equal.
    change (guest_ids _) with (guest_ids st). fold A. f_equal.
    rewrite filter_app. fold F.
    rewrite (filter_none _ A), (filter_all _ F); [done|..].
    + unfold F. by intros g [? _]%list_elem_of_filter.
    + unfold A. intros g [_ Hg]%list_elem_of_filter Hg'. done.
Qed.

(** ** The effects reach a fixed point *)

Lemma AppState_eq (s s' : AppState) :
  guests s = guests s' → tables s = tables s' → assignments s = assignments s' →
  pool s = pool s' → selectedSeatKeys s = selectedSeatKeys s' →
  menuState s = menuState s' → s = s'.
Proof. destruct s, s'. simpl. by intros -> -> -> -> -> ->. Qed.

(** A state on which the effects have nothing to do. *)
Lemma settle_id st :
  pool_consistent st →
  (∀ k, k ∈ selectedSeatKeys st → key_taken (assignments st) k) →
  (∀ tid, menuState st = Some tid → tid ∈ table_id <$> tables st) →
  settle st = st.
Proof.
  intros Hp Hsel Hmenu. destruct (settle_frame st) as (Hg & Ht & Hm).
  apply AppState_eq; try done.
  - by apply settle_pool_id.
  - rewrite settle_selection. by apply filter_all.
  - rewrite settle_menu. destruct (menuState st) as [tid|]; [|done].
    by rewrite bool_decide_eq_true_2 by (by apply Hmenu).
Qed.

(** X16: one round of the effects is enough: running them again on the state
    they produce changes nothing.  In that state every selected key is the
    key of a seat that holds a guest, and if the context menu is open, the
    table it belongs to exists, so [activeTable] is that table. *)
Theorem settle_fixed_point (st : AppState) :
  let st' := settle st in
  settle st' = st'
  ∧ (∀ k, k ∈ selectedSeatKeys st' → key_taken (assignments st') k)
  ∧ (∀ tid, menuState st' = Some tid →
       ∃ table, activeTable st' = Some table ∧ table_id table = tid
                ∧ table ∈ tables st').
Proof.
  cbv zeta. destruct (settle_frame st) as (Hg & Ht & Hm).
  assert (∀ k, k ∈ selectedSeatKeys (settle st) →
               key_taken (assignments (settle st)) k) as Hsel.
  { intros k. rewrite settle_selection, Hm. by intros [? _]%list_elem_of_filter. }
  assert (∀ tid, menuState (settle st) = Some tid →
                 tid ∈ table_id <$> tables (settle st)) as Hmenu.
  { intros tid. rewrite settle_menu, Ht.
    destruct (menuState st) as [tid'|]; [|done].
    case_bool_decide; [|done]. by intros [= <-]. }
  split_and!; [|done|].
  - apply settle_id; [apply settle_pool_consistent|done|done].
  - clear Hg Ht Hm Hsel. set (s := settle st) in *. clearbody s.
    intros tid Hopen. unfold activeTable. rewrite Hopen. simpl.
    apply Hmenu in Hopen as (t & Hid & Hin)%list_elem_of_fmap.
    destruct (find (λ table, bool_decide (table_id table = tid))
                   (tables s)) as [table|] eqn:Hfind.
    + exists table. apply find_table in Hfind as [? ?]. done.
    + apply find_none with (x := t) in Hfind; [|by apply list_elem_of_In].
      by rewrite bool_decide_eq_true_2 in Hfind.
Qed.

(** ** Starting the application and importing a layout *)

(** A normalized layout, taken as the state, is a state on which the
    effects have nothing to do. *)
Lemma normalized_settled N payload ls st0 :
  normalizeLayoutPayload N payload = Returns (Some ls) →
  let st := applyLayoutState ls st0 in
  well_formed st ∧ pool_consistent st ∧ settle st = st
  ∧ selectedSeatKeys st = [] ∧ menuState st = None.
Proof.
  intros Hn. cbv zeta.
  destruct (normalized_well_formed N payload ls st0 Hn) as [Hwf Hp].
  split_and!; try done. apply settle_id; try done.
  by intros k ?%elem_of_nil.
Qed.

Lemma default_state_settled :
  well_formed default_state ∧ pool_consistent default_state
  ∧ settle default_state = default_state.
Proof.
  assert (settle default_state = default_state) as Heq by (by vm_compute).
  rewrite <-Heq at 1 2.
  split_and!; [apply default_state_well_formed|apply settle_pool_consistent|done].
Qed.

Section LoadingProofs.
Variable StringToNumber : string → number.
Variable JSON_parse : string → option json.

Lemma loadInitialState_cases has_window stored :
  match loadInitialState StringToNumber JSON_parse has_window stored with
  | Returns (Some ls) =>
      ∃ text parsed,
        stored = Some text ∧ JSON_parse text = Some parsed
        ∧ normalizeLayoutPayload StringToNumber parsed = Returns (Some ls)
  | Returns None => True
  | Throws => False
  | Diverges =>
      ∃ text parsed,
        stored = Some text ∧ JSON_parse text = Some parsed
        ∧ normalizeLayoutPayload StringToNumber parsed = Diverges
  end.
Proof.
  unfold loadInitialState. destruct has_window; [|done].
  destruct stored as [text|]; [|done]. cbn [negb]. case_decide; [done|].
  destruct (JSON_parse text) as [parsed|] eqn:Hparse; [|done].
  destruct (normalizeLayoutPayload StringToNumber parsed) as [[ls|]| |] eqn:Hn;
    try done; by exists text, parsed.
Qed.

(** X17: [App] never fails to start because of what is stored: an entry
    that is missing, empty, not JSON, rejected by the normalizer, or on
    which the normalizer throws (as for ["assignments": null]) gives the
    built-in layout.  The first state has an assignment object that names
    known guests only, a pool without duplicates that holds exactly the
    guests on no seat, no selection and no open menu, and the effects that
    run after the first render leave it as it is.  The one way not to get a
    first state is a stored layout on which the normalizer does not
    return. *)
Theorem App_initial_spec (has_window : bool) (stored : option string) :
  match App_initial StringToNumber JSON_parse has_window stored with
  | Returns st =>
      well_formed st ∧ pool_consistent st ∧ settle st = st
      ∧ selectedSeatKeys st = [] ∧ menuState st = None
      ∧ (loadInitialState StringToNumber JSON_parse has_window stored
         = Returns None → st = default_state)
  | Throws => False
  | Diverges =>
      ∃ text parsed,
        stored = Some text ∧ JSON_parse text = Some parsed
        ∧ normalizeLayoutPayload StringToNumber parsed = Diverges
  end.
Proof.
  unfold App_initial.
  pose proof (loadInitialState_cases has_window stored) as Hload.
  destruct (loadInitialState StringToNumber JSON_parse has_window stored)
    as [[ls|]| |]; try done.
  - destruct Hload as (text & parsed & _ & _ & Hn).
    change (initialState (Some ls)) with (Some (applyLayoutState ls default_state)).
    destruct (normalized_settled _ _ ls default_state Hn) as (?&?&?&?&?).
    by split_and!.
  - rewrite initialState_default.
    destruct default_state_settled as (? & ? & ?). by split_and!.
Qed.

(** X18: importing a layout file never throws.  A file that is not JSON,
    that the normalizer rejects, or on which it throws leaves the state
    exactly as it was.  An accepted file replaces guests, tables,
    assignments and pool by the normalized ones whatever the state was,
    clears the selection and closes the menu; the new state has an
    assignment object that names known guests only and a pool that holds
    exactly the guests on no seat, once each, and the effects leave it as
    it is. *)
Theorem handleLayoutImport_spec (text : string) (st : AppState) :
  match handleLayoutImport StringToNumber JSON_parse text st with
  | Returns st' =>
      match JSON_parse text ≫= (λ raw,
              match normalizeLayoutPayload StringToNumber raw with
              | Returns r => r
              | _ => None
              end) with
      | Some ls =>
          guests st' = ls_guests ls ∧ tables st' = ls_tables ls
          ∧ assignments st' = ls_assignments ls ∧ pool st' = ls_pool ls
          ∧ selectedSeatKeys st' = [] ∧ menuState st' = None
          ∧ well_formed st' ∧ pool_consistent st' ∧ settle st' = st'
      | None => st' = st
      end
  | Throws => False
  | Diverges =>
      ∃ raw, JSON_parse text = Some raw
             ∧ normalizeLayoutPayload StringToNumber raw = Diverges
  end.
Proof.
  unfold handleLayoutImport.
  destruct (JSON_parse text) as [raw|]; simpl; [|done].
  destruct (normalizeLayoutPayload StringToNumber raw) as [[ls|]| |] eqn:Hn;
    try done.
  - destruct (normalized_settled _ _ ls st Hn) as (?&?&?&?&?). by split_and!.
  - by exists raw.
Qed.
End LoadingProofs.

(** ** Importing a guest list: the state it leaves *)

Lemma rebuild_seats_spec G old tid idxs next k :
  let m := foldl (rebuild_seat G old tid) next idxs in
  (k ∈ obj_keys m ↔ k ∈ obj_keys next ∨ ∃ i, i ∈ idxs ∧ k = seatKey tid i)
  ∧ (NoDup (obj_keys next) → NoDup (obj_keys m))
  ∧ obj_get k m = if decide (k ∈ seatKey tid <$> idxs)
                  then Some (kept_occupant G old k) else obj_get k next.
Proof.
  cbv zeta. revert next. induction idxs as [|i idxs IH]; intros next.
  { simpl. split_and!; try done. split; [tauto|].
    intros [?|(i & Hi & _)]; [done|]. by apply elem_of_nil in Hi. }
  cbn [foldl]. destruct (IH (rebuild_seat G old tid next i)) as (Hk & Hnd & Hget).
  unfold rebuild_seat in *.
  split_and!.
  - rewrite Hk, elem_of_obj_keys_set. setoid_rewrite elem_of_cons. split.
    + intros [[->|?]|(j & ? & ->)]; [right; exists i; tauto|tauto|].
      right. exists j. tauto.
    + intros [?|(j & [->|?] & ->)]; [tauto|tauto|]. right. exists j. tauto.
  - intros ?. by apply Hnd, NoDup_obj_keys_set.
  - rewrite Hget. csimpl.
    destruct (decide (k ∈ seatKey tid <$> idxs)) as [Hin|Hin].
    + rewrite decide_True; [done|by right].
    + rewrite obj_get_set. destruct (decide (seatKey tid i = k)) as [<-|Hne].
      * rewrite decide_True; [done|by left].
      * rewrite decide_False; [done|]. rewrite not_elem_of_cons. done.
Qed.

Lemma rebuild_assignments_spec G old ts next m :
  rebuild_assignments G old ts next = Some m →
  (∀ t, t ∈ ts → seatCount t ≠ PosInf)
  ∧ (∀ k, k ∈ obj_keys m ↔ k ∈ obj_keys next ∨ is_seat_key ts k)
  ∧ (NoDup (obj_keys next) → NoDup (obj_keys m))
  ∧ (∀ k, obj_get k m = Some (kept_occupant G old k) ∨ obj_get k m = obj_get k next)
  ∧ (∀ k, is_seat_key ts k → obj_get k m = Some (kept_occupant G old k)).
Proof.
  revert next. induction ts as [|t ts IH]; intros next Hm; simpl in Hm.
  { simplify_eq. split_and!; try done.
    - by intros t ?%elem_of_nil.
    - intros k. split; [tauto|].
      intros [?|(t & n & i & Ht & _)]; [done|]. by apply elem_of_nil in Ht.
    - intros k. by right.
    - intros k (t & n & i & Ht & _). by apply elem_of_nil in Ht. }
  destruct (loop_indices (Fin 0%Z) (seatCount t)) as [idxs|] eqn:Hidx; [|done].
  simpl in Hm.
  change (foldl _ next idxs)
    with (foldl (rebuild_seat G old (table_id t)) next idxs) in Hm.
  apply IH in Hm as (Hfin & Hk & Hnd & Hget & Hseat).
  pose proof (loop_indices_from_0 _ _ Hidx) as Hi.
  split_and!.
  - intros t' [->|Ht']%elem_of_cons; [|by apply Hfin]. intros Hc.
    by rewrite Hc in Hidx.
  - intros k. rewrite Hk.
    destruct (rebuild_seats_spec G old (table_id t) idxs next k) as (-> & _ & _).
    split.
    + intros [[?|(i & (n & Hn & Hin)%Hi & ->)]|(t' & n & i & Ht' & ?)]; [tauto| |].
      * right. exists t, n, i. split; [by left|done].
      * right. exists t', n, i. split; [by right|done].
    + intros [?|(t' & n & i & [->|Ht']%elem_of_cons & Hn & Hin & ->)]; [tauto| |].
      * left. right. exists i. split; [|done]. apply Hi. by exists n.
      * right. by exists t', n, i.
  - intros ?. apply Hnd.
    by apply (rebuild_seats_spec G old (table_id t) idxs next "").
  - intros k. destruct (Hget k) as [?| ->]; [by left|].
    destruct (rebuild_seats_spec G old (table_id t) idxs next k) as (_ & _ & ->).
    case_decide; [by left|by right].
  - intros k (t' & n & i & [->|Ht']%elem_of_cons & Hn & Hin & ->).
    + destruct (Hget (seatKey (table_id t) i)) as [?| ->]; [done|].
      destruct (rebuild_seats_spec G old (table_id t) idxs next
                  (seatKey (table_id t) i)) as (_ & _ & ->).
      rewrite decide_True; [done|]. apply list_elem_of_fmap. exists i.
      split; [done|]. apply Hi. by exists n.
    + apply Hseat. by exists t', n, i.
Qed.

Lemma rebuild_assignments_total G old ts next :
  (∀ t, t ∈ ts → seatCount t ≠ PosInf) →
  is_Some (rebuild_assignments G old ts next).
Proof.
  revert next. induction ts as [|t ts IH]; intros next Hfin; simpl; [done|].
  destruct (loop_indices_total (Fin 0%Z) (seatCount t)) as [idxs ->];
    [done|apply Hfin; by left|].
  simpl. apply IH. intros t' Ht'. apply Hfin. by right.
Qed.

Lemma kept_occupant_Some G old k g :
  kept_occupant G old k = Some g ↔ (g ∈ G ∧ truthy (obj_get k old) = Some g).
Proof.
  unfold kept_occupant. destruct (truthy (obj_get k old)) as [c|].
  - destruct (has c G) eqn:Hc; [apply has_true in Hc|apply has_false in Hc].
    + split; [by intros [= ->]|by intros [_ [= ->]]].
    + split; [done|]. intros [Hg [= ->]]. done.
  - split; [done|]. by intros [_ ?].
Qed.

Section GuestImportState.
Variable trim : string → string.
Variable toLowerCase : string → string.

Lemma guest_import_cases (raw : json) (st : AppState) :
  match handleGuestFileImport trim toLowerCase raw st with
  | Returns st' => st' = st ∨ guests_imported st st'
  | Throws => False
  | Diverges => ∃ t, t ∈ tables st ∧ seatCount t = PosInf
  end.
Proof.
  unfold handleGuestFileImport. destruct raw as [| | | |items|]; try by left.
  destruct (import_items_spec trim toLowerCase items [] []) as (gs & Hfold & Himp).
  pose proof (spec_import_ids trim toLowerCase [] items gs Himp (NoDup_nil_2))
    as [Hnd Hne].
  unfold import_guests. rewrite Hfold. simpl in *.
  destruct gs as [|g0 gs]; [by left|].
  set (cleaned := g0 :: gs) in *. set (G := guest_id <$> cleaned) in *.
  destruct (rebuild_assignments G (assignments st) (tables st) []) as [m|] eqn:Hm.
  2:{ destruct (infinite_table_cases (tables st)) as [Hfin|Hinf]; [|done].
      destruct (rebuild_assignments_total G (assignments st) (tables st) [] Hfin)
        as [m' Hm']. congruence. }
  apply rebuild_assignments_spec in Hm as (Hfin & Hk & Hkn & Hget & Hseat).
  right. unfold guests_imported. simpl. fold G.
  assert (∀ g, g ∈ omap id (obj_values m) ↔ seated m g) as Hassigned.
  { intros g. unfold seated. rewrite list_elem_of_omap. split.
    - intros ([x|] & Hin & Hx); simplify_eq/=. done.
    - intros Hin. by exists (Some g). }
  assert (∀ k g, (k, Some g) ∈ m → g ∈ G ∧ (k, Some g) ∈ assignments st) as Hfrom.
  { intros k g Hin. apply (obj_get_NoDup _ _ _ (Hkn (NoDup_nil_2))) in Hin.
    destruct (Hget k) as [Hk'|Hk']; rewrite Hk' in Hin; [|done].
    injection Hin as Hin. apply kept_occupant_Some in Hin as [? [? _]%truthy_Some_get].
    split; [done|]. by apply obj_get_elem. }
  assert (filter (λ i, i ∉ omap id (obj_values m)) G
          = filter (λ g, ¬ seated m g) G) as Hpool.
  { apply list_filter_iff. intros g. by rewrite Hassigned. }
  assert (pool_consistent
            (mkApp cleaned (tables st) m
                   (filter (λ i, i ∉ omap id (obj_values m)) G) []
                   (menuState st))) as Hpc.
  { split; simpl.
    - by apply NoDup_filter.
    - intros g. rewrite list_elem_of_filter, Hassigned. fold G. tauto. }
  split_and!; try done.
  - intros g Hg. by apply (proj1 (Forall_forall _ _) Hne).
  - by apply Hkn, NoDup_nil_2.
  - intros k. rewrite Hk. split; [|tauto].
    intros [Hin|?]; [|done]. by apply elem_of_nil in Hin.
  - intros k g Hin. by apply Hfrom in Hin as [? _].
  - intros Hwf0 H1.
    assert (well_formed
              (mkApp cleaned (tables st) m
                     (filter (λ i, i ∉ omap id (obj_values m)) G) []
                     (menuState st))) as Hwf.
    { split; simpl.
      - by apply Hkn, NoDup_nil_2.
      - intros k g Hin. by apply Hfrom in Hin as [? _].
      - apply Hwf0. }
    split; [done|].
    apply spec_core_invariant_parts; [done|]. split; [done|].
    simpl. intros k k' g [_ Hin]%Hfrom [_ Hin']%Hfrom. by eapply H1.
Qed.

Lemma guest_import_model (raw : json) (st : AppState) :
  model_inv st →
  ∃ st', handleGuestFileImport trim toLowerCase raw st = Returns st'
         ∧ model_inv st' ∧ tables st' = tables st.
Proof.
  intros Hinv. destruct (model_inv_parts st Hinv) as (Hwf & _ & H1).
  pose proof (guest_import_cases raw st) as Hcases.
  destruct (handleGuestFileImport trim toLowerCase raw st) as [st'| |];
    [|done|].
  - exists st'. split; [done|].
    destruct Hcases as [->|(Hnd & Hnames & Ht & Hknd & Hkeys & _ & _ & Hsel & _
                            & _ & _ & Hcore)]; [done|].
    destruct (Hcore Hwf H1) as [_ Hcore']. split; [|done].
    split; rewrite ?Ht, ?Hsel; try done; try apply Hinv.
    by intros k ?%elem_of_nil.
  - destruct Hcases as (t & Ht & Hc).
    destruct (inv_seat_counts _ Hinv t Ht) as (n & Hn & _). congruence.
Qed.

End GuestImportState.

(** ** Dragging a table *)

Lemma is_seat_key_ext ts ts' k :
  (λ t, (table_id t, seatCount t)) <$> ts = (λ t, (table_id t, seatCount t)) <$> ts' →
  is_seat_key ts k → is_seat_key ts' k.
Proof.
  intros Heq (t & n & i & Ht & Hn & Hi & ->).
  assert ((table_id t, seatCount t) ∈ (λ t, (table_id t, seatCount t)) <$> ts')
    as (t' & [= Hid Hc] & Ht')%list_elem_of_fmap.
  { rewrite <-Heq. apply list_elem_of_fmap. by exists t. }
  exists t', n, i. rewrite <-Hid, <-Hc. done.
Qed.

Lemma moved_to_frame tid x y ts :
  (λ t, (table_id t, seatCount t)) <$> moved_to tid x y ts
  = (λ t, (table_id t, seatCount t)) <$> ts.
Proof.
  unfold moved_to. rewrite <-list_fmap_compose. apply list_fmap_ext.
  intros i t _. simpl. by case_decide.
Qed.

Lemma moved_to_twice tid x y x' y' ts :
  moved_to tid x' y' (moved_to tid x y ts) = moved_to tid x' y' ts.
Proof.
  unfold moved_to. rewrite <-list_fmap_compose. apply list_fmap_ext.
  intros i t _. unfold compose.
  destruct (decide (table_id t = tid)) as [Heq|Hne]; simpl;
    [by rewrite decide_True|by rewrite decide_False].
Qed.

Lemma model_inv_tables st ts' :
  model_inv st →
  (λ t, (table_id t, seatCount t)) <$> ts'
  = (λ t, (table_id t, seatCount t)) <$> tables st →
  model_inv (setTables ts' st).
Proof.
  intros Hinv Heq.
  assert (table_id <$> ts' = table_id <$> tables st) as Hids.
  { apply (f_equal (fmap fst)) in Heq.
    by rewrite <-!list_fmap_compose in Heq. }
  split; simpl; try apply Hinv.
  - rewrite Hids. apply Hinv.
  - intros t Ht.
    assert ((table_id t, seatCount t) ∈ (λ t, (table_id t, seatCount t)) <$> tables st)
      as (t0 & [= _ Hc] & Ht0)%list_elem_of_fmap.
    { rewrite <-Heq. apply list_elem_of_fmap. by exists t. }
    rewrite Hc. by apply (inv_seat_counts _ Hinv).
  - intros k. rewrite (inv_keys _ Hinv). split; by apply is_seat_key_ext.
Qed.

Section TableDragProofs.
Variable num_add : number → number → number.
Variable num_sub : number → number → number.

Lemma mouse_moves_from tid ox oy px py moves x y st :
  foldl (λ s '(cx, cy),
           handleGlobalMouseMove num_add num_sub cx cy
             (Some (mkDragging tid ox oy px py)) s) st (moves ++ [(x, y)])
  = setTables (moved_to tid (num_add ox (num_sub x px)) (num_add oy (num_sub y py))
                 (tables st)) st.
Proof.
  revert st. induction moves as [|[cx cy] moves IH]; intros st; [done|].
  simpl. rewrite IH. simpl. unfold setTables. simpl. f_equal.
  apply moved_to_twice.
Qed.

(** X20: dragging a table moves it and does nothing else.  A press of the
    left button on the table itself (not on a seat or the menu button)
    closes the menu and records the position of the table and of the
    pointer; after any sequence of mouse moves, the tables with that id are
    at the recorded position plus the displacement of the pointer since the
    press: only the last pointer position counts, whatever moves came
    before.  Ids, seat counts, guests, assignments, pool and selection are
    untouched, so the invariants of the data model are kept.  A press of
    another button, on a blocked element, or for an id that no table has
    changes nothing, and without a recorded drag a mouse move changes
    nothing. *)
Theorem table_drag_spec (tid : string) (blocked : bool) (button : Z)
    (px py : number) (moves : list (number * number)) (x y : number)
    (st : AppState) :
  let down := handleTableMouseDown tid blocked button px py None st in
  let st' := foldl (λ s '(cx, cy),
                      handleGlobalMouseMove num_add num_sub cx cy down.1 s)
                   down.2 (moves ++ [(x, y)]) in
  match find (λ entry, bool_decide (table_id entry = tid)) (tables st) with
  | Some table =>
      if bool_decide (blocked = false ∧ button = 0%Z) then
        tables st'
        = moved_to tid (num_add (pos_x (position table)) (num_sub x px))
                       (num_add (pos_y (position table)) (num_sub y py))
                   (tables st)
        ∧ menuState st' = None
        ∧ guests st' = guests st ∧ assignments st' = assignments st
        ∧ pool st' = pool st ∧ selectedSeatKeys st' = selectedSeatKeys st
        ∧ (model_inv st → model_inv st')
      else st' = st
  | None => st' = st
  end
  ∧ handleGlobalMouseMove num_add num_sub x y (handleGlobalMouseUp down.1) st' = st'.
Proof.
  cbv zeta. split; [|done].
  assert (∀ s, foldl (λ s '(cx, cy),
                        handleGlobalMouseMove num_add num_sub cx cy None s)
                     s (moves ++ [(x, y)]) = s) as Hnone.
  { generalize (moves ++ [(x, y)]). intros l. induction l as [|[cx cy] l IH];
      intros s; [done|]. simpl. apply IH. }
  unfold handleTableMouseDown, startTableDrag.
  destruct (find _ (tables st)) as [table|] eqn:Hfind.
  2:{ destruct blocked; [apply Hnone|]. case_decide; apply Hnone. }
  case_bool_decide as Hb.
  2:{ destruct blocked; [apply Hnone|]. case_decide; [apply Hnone|].
      destruct Hb. split; [done|]. by destruct (decide (button = 0%Z)); [|tauto]. }
  destruct Hb as [-> ->]. rewrite decide_False by (by intros []).
  cbn [fst snd]. rewrite mouse_moves_from. simpl.
  split_and!; try done.
  intros Hinv.
  apply (model_inv_tables (closeMenu st)).
  - destruct Hinv. by split.
  - apply moved_to_frame.
Qed.
End TableDragProofs.

(** ** The position of the context menu *)

Lemma Math_maxQ_16 v :
  v ≠ NaN →
  Math_maxQ (Fin 16%Q) v = PosInf
  ∨ ∃ q, Math_maxQ (Fin 16%Q) v = Fin q ∧ (16 <= q)%Q
         ∧ (∀ p, v = Fin p → (16 <= p)%Q → q = p).
Proof.
  destruct v as [| | |p]; simpl; [done|by left|right..].
  - exists 16%Q. split_and!; [done|apply Qle_refl|done].
  - destruct (Qle_bool 16 p) eqn:Hp.
    + exists p. split_and!; [done|by apply Qle_bool_iff|by intros ? [= ->]].
    + exists 16%Q. split_and!; [done|apply Qle_refl|].
      intros p' [= <-] Hle%Qle_bool_iff. congruence.
Qed.

Lemma clamp_upper (v : number) (extent : Z) :
  v ≠ NaN →
  ∃ q, Math_minQ (Math_maxQ (Fin 16%Q) v)
                 (Math_maxQ (Fin 16%Q) (Fin (inject_Z (extent - 240 - 16))))
       = Fin q
       ∧ (16 <= q)%Q
       ∧ ((272 ≤ extent)%Z → (q + 240 + 16 <= inject_Z extent)%Q)
       ∧ (∀ p, v = Fin p → (16 <= p)%Q → (p + 240 + 16 <= inject_Z extent)%Q →
               q = p).
Proof.
  intros Hv.
  set (room := inject_Z (extent - 240 - 16)).
  assert ((272 ≤ extent)%Z → (16 <= room)%Q) as Hroom.
  { intros He. unfold room. change 16%Q with (inject_Z 16).
    rewrite <-Zle_Qle. lia. }
  assert ((room + 240 + 16 == inject_Z extent)%Q) as Hext.
  { unfold room. change 240%Q with (inject_Z 240). change 16%Q with (inject_Z 16).
    rewrite <-!inject_Z_plus. apply inject_Z_injective. lia. }
  assert (∃ m, Math_maxQ (Fin 16%Q) (Fin room) = Fin m ∧ (16 <= m)%Q
               ∧ ((16 <= room)%Q → m = room)) as (m & -> & Hm & Hmr).
  { simpl. destruct (Qle_bool 16 room) eqn:Hr.
    - exists room. split_and!; [done|by apply Qle_bool_iff|done].
    - exists 16%Q. split_and!; [done|apply Qle_refl|].
      intros Hle%Qle_bool_iff. congruence. }
  destruct (Math_maxQ_16 v Hv) as [Hinf|(q & Hq0 & Hq & Hqv)];
    rewrite ?Hinf, ?Hq0; simpl.
  - exists m. split_and!; try done.
    + intros He. rewrite (Hmr (Hroom He)), Hext. apply Qle_refl.
    + intros p Hp. subst v. simpl in Hinf. done.
  - destruct (Qle_bool q m) eqn:Hqm.
    + exists q. split_and!; try done.
      * intros He. apply Qle_bool_iff in Hqm. rewrite (Hmr (Hroom He)) in Hqm.
        rewrite <-Hext. by repeat apply Qplus_le_l.
      * intros p Hp Hp16 _. by apply Hqv.
    + exists m. split_and!; try done.
      * intros He. rewrite (Hmr (Hroom He)), Hext. apply Qle_refl.
      * intros p Hp Hp16 Hfit. rewrite (Hqv p Hp Hp16) in Hqm.
        assert (Qle_bool p m = true) as Hpm; [|congruence].
        apply Qle_bool_iff.
        assert ((16 <= room)%Q) as Hr.
        { rewrite <-Hext in Hfit. do 2 apply Qplus_le_l in Hfit.
          by eapply Qle_trans. }
        rewrite (Hmr Hr). rewrite <-Hext in Hfit.
        by do 2 apply Qplus_le_l in Hfit.
Qed.

(** X21: the context menu is placed inside the window.  For pointer
    coordinates other than [NaN], [menuPosition] is a pair of finite
    numbers, each at least 16; in a window at least 272 wide (high), the
    menu, 240 wide (high), ends at least 16 before the right (bottom) edge;
    and a pointer position at which the menu already fits that way is kept
    as it is. *)
Theorem menuPosition_in_window (x y : number) (innerWidth innerHeight : Z) :
  x ≠ NaN → y ≠ NaN →
  ∃ px py,
    menuPosition x y innerWidth innerHeight = (Fin px, Fin py)
    ∧ (16 <= px)%Q ∧ (16 <= py)%Q
    ∧ ((272 ≤ innerWidth)%Z → (px + 240 + 16 <= inject_Z innerWidth)%Q)
    ∧ ((272 ≤ innerHeight)%Z → (py + 240 + 16 <= inject_Z innerHeight)%Q)
    ∧ (∀ p, x = Fin p → (16 <= p)%Q →
            (p + 240 + 16 <= inject_Z innerWidth)%Q → px = p)
    ∧ (∀ p, y = Fin p → (16 <= p)%Q →
            (p + 240 + 16 <= inject_Z innerHeight)%Q → py = p).
Proof.
  intros Hx Hy. unfold menuPosition.
  destruct (clamp_upper x innerWidth Hx) as (px & -> & ? & ? & ?).
  destruct (clamp_upper y innerHeight Hy) as (py & -> & ? & ? & ?).
  exists px, py. by split_and!.
Qed.

Lemma menuPosition_in_window_witness :
  Fin 700%Q ≠ @NaN Q ∧ Fin 40%Q ≠ @NaN Q
  ∧ ∃ px py,
      menuPosition (Fin 700%Q) (Fin 40%Q) 800 600 = (Fin px, Fin py)
      ∧ (16 <= px)%Q ∧ (16 <= py)%Q
      ∧ ((272 ≤ 800)%Z → (px + 240 + 16 <= inject_Z 800)%Q)
      ∧ ((272 ≤ 600)%Z → (py + 240 + 16 <= inject_Z 600)%Q)
      ∧ (∀ p, Fin 700%Q = Fin p → (16 <= p)%Q →
              (p + 240 + 16 <= inject_Z 800)%Q → px = p)
      ∧ (∀ p, Fin 40%Q = Fin p → (16 <= p)%Q →
              (p + 240 + 16 <= inject_Z 600)%Q → py = p).
Proof.
  split_and!; [done|done|].
  apply (menuPosition_in_window (Fin 700%Q) (Fin 40%Q) 800 600); done.
Defined.

(** ** Every event of the interface keeps the invariants *)

(** A handler that leaves guests, tables and the keys of the object alone,
    and seats known guests on one seat each. *)
Lemma frame_model st st1 :
  model_inv st →
  guests st1 = guests st → tables st1 = tables st →
  obj_keys (assignments st1) = obj_keys (assignments st) →
  (∀ k g, (k, Some g) ∈ assignments st1 → g ∈ guest_ids st) →
  one_seat_each (assignments st1) →
  model_inv (settle st1) ∧ tables (settle st1) = tables st.
Proof.
  intros Hinv Hg Ht Hk Hknown H1.
  destruct (settle_frame st1) as (_ & -> & _). split; [|done].
  apply (settled_model_inv st); try done; rewrite ?Ht, ?Hk; try apply Hinv.
Qed.

Lemma frame_model_shrinks st st1 :
  model_inv st →
  guests st1 = guests st → tables st1 = tables st →
  obj_keys (assignments st1) = obj_keys (assignments st) →
  shrinks (assignments st) (assignments st1) →
  model_inv (settle st1) ∧ tables (settle st1) = tables st.
Proof.
  intros Hinv Hg Ht Hk Hs.
  destruct (model_inv_parts st Hinv) as (Hwf & _ & H1).
  apply frame_model; try done.
  - eapply shrinks_known; [done|apply Hwf].
  - by eapply shrinks_one_seat.
Qed.

Lemma frame_model_same st st1 :
  model_inv st →
  guests st1 = guests st → tables st1 = tables st →
  assignments st1 = assignments st →
  model_inv (settle st1) ∧ tables (settle st1) = tables st.
Proof.
  intros Hinv Hg Ht Hm. apply frame_model_shrinks; try done.
  - by rewrite Hm.
  - rewrite Hm. apply shrinks_refl.
Qed.

Lemma click_model t i ev st :
  model_inv st →
  model_inv (settle (handleSeatClick t i ev st))
  ∧ tables (settle (handleSeatClick t i ev st)) = tables st.
Proof.
  intros Hinv. apply frame_model_same; try done;
    unfold handleSeatClick; by destruct (truthy _).
Qed.

Lemma release_model st :
  model_inv st →
  let st1 := releaseSelectedSeats st in
  guests st1 = guests st ∧ tables st1 = tables st
  ∧ obj_keys (assignments st1) = obj_keys (assignments st)
  ∧ shrinks (assignments st) (assignments st1).
Proof.
  intros Hinv. cbv zeta. unfold releaseSelectedSeats.
  case_bool_decide; [by split_and!; try apply shrinks_refl|].
  pose proof (release_seats_keys (selectedSeatKeys st) (assignments st) []) as Hk.
  destruct (release_seats_shrinks (selectedSeatKeys st) (assignments st) [])
    as [Hs _].
  destruct (foldl release_seat (assignments st, []) (selectedSeatKeys st))
    as [next r].
  rewrite returnGuestsToPool_eq. simpl in *. by split_and!.
Qed.

Lemma keydown_model key st :
  model_inv st →
  model_inv (settle (handleKeydown key st))
  ∧ tables (settle (handleKeydown key st)) = tables st.
Proof.
  intros Hinv. destruct (release_model st Hinv) as (Hg & Ht & Hk & Hs).
  unfold handleKeydown.
  destruct (bool_decide (key = "Delete" ∨ key = "Backspace")),
           (bool_decide (key = "Escape"));
    apply frame_model_shrinks; try done; apply shrinks_refl.
Qed.

Lemma seat_drawn_key st t i : seat_drawn st t i → is_seat_key (tables st) (seatKey t i).
Proof. intros (table & n & Hin & <- & Hn & Hi). by exists table, n, i. Qed.

Lemma assign_model g t i from st :
  model_inv st →
  seat_drawn st t i →
  op_from_interface st (AssignGuest g t i from) →
  model_inv (settle (assignGuestToSeat g t i from st))
  ∧ tables (settle (assignGuestToSeat g t i from st)) = tables st.
Proof.
  intros Hinv Hdrawn Hop.
  destruct (model_inv_parts st Hinv) as (Hwf & _ & H1).
  destruct (assign_preserves g t i from st Hwf) as (Hwf1 & Hg1 & H11).
  apply frame_model; try done.
  - apply assignGuestToSeat_tables.
  - destruct (decide (g ∈ guest_ids st)) as [Hg|Hg];
      [|by rewrite assignGuestToSeat_unknown].
    destruct (assignGuestToSeat_known g t i from st Hg) as (_ & _ & _ & _ & -> & _).
    assert (seatKey t i ∈ obj_keys (assignments st)) as Hkey.
    { by apply (inv_keys _ Hinv), seat_drawn_key. }
    assert (obj_keys (obj_set (seatKey t i) (Some g) (assignments st))
            = obj_keys (assignments st)) as Hk1.
    { rewrite obj_keys_set. by rewrite decide_True. }
    destruct from as [f|]; [|done]. case_decide as Hf; [done|].
    rewrite obj_keys_set, Hk1. rewrite decide_True; [done|].
    simpl in Hop. rewrite decide_False in Hop by done.
    apply obj_get_is_Some. by rewrite Hop.
  - intros k x Hin. apply (wf_known _ Hwf1) in Hin.
    unfold guest_ids in *. by rewrite Hg1 in Hin.
  - by apply H11.
Qed.

Lemma pool_drop_model from st :
  model_inv st →
  model_inv (settle (handlePoolDrop from st))
  ∧ tables (settle (handlePoolDrop from st)) = tables st.
Proof.
  intros Hinv. destruct (model_inv_parts st Hinv) as (Hwf & _ & _).
  destruct (poolDrop_preserves from st Hwf) as (_ & Hg & Ht & Hs).
  apply frame_model_shrinks; try done.
  unfold handlePoolDrop. case_decide; [done|].
  destruct (truthy _) as [g|] eqn:Hocc; [|done].
  rewrite returnGuestsToPool_eq. simpl. rewrite obj_keys_set.
  rewrite decide_True; [done|]. apply obj_get_is_Some.
  apply truthy_Some_get in Hocc as [-> _]. done.
Qed.

Lemma drop_model target dataTransfer st :
  model_inv st →
  draggable st dataTransfer →
  match target with
  | OnSeat tableId seatIndex => seat_drawn st tableId seatIndex
  | OnTable tableId => tableId ∈ table_id <$> tables st
  | OnPool => True
  end →
  ∃ st', drop target dataTransfer st = Some st'
         ∧ model_inv (settle st') ∧ tables (settle st') = tables st.
Proof.
  intros Hinv Hdrag Htarget.
  destruct (model_inv_parts st Hinv) as (Hwf & Hpool & _).
  pose proof (frame_model_same st st Hinv eq_refl eq_refl eq_refl) as Hsame.
  destruct target as [t i|t|]; simpl.
  - eexists. split; [done|]. unfold handleSeatDrop. case_decide; [done|].
    apply assign_model; try done. by apply draggable_from_interface.
  - unfold handleTableDrop. case_decide; [by exists st|].
    destruct (find _ (tables st)) as [table|] eqn:Hfind; [|by exists st].
    apply find_table in Hfind as [Hin Hid].
    destruct (getFirstAvailableSeatIndex_cases table st)
      as (r & -> & [[-> _]|[Hne (H0 & Hlt & _)]]); simpl.
    + by exists st.
    + rewrite decide_False by done. eexists. split; [done|].
      apply assign_model; try done; [|by apply draggable_from_interface].
      destruct (inv_seat_counts _ Hinv table Hin) as (n & Hn & _).
      exists table, n. split_and!; try done.
      rewrite Hn in Hlt. simpl in Hlt. by apply bool_decide_eq_true in Hlt.
  - eexists. split; [done|]. by apply pool_drop_model.
Qed.

Lemma colon_free_no_nested (ts : list Table) tid :
  (∀ x, x ∈ table_id <$> ts → has_colon x = false) → no_nested_id ts tid.
Proof.
  intros Hfree t Ht. apply prefix_colon_free, Hfree, list_elem_of_fmap.
  by exists t.
Qed.

Lemma added_id_colon_free (now : Z) : has_colon ("table-" +:+ pretty now) = false.
Proof. rewrite has_colon_app. simpl. apply pretty_Z_no_colon. Qed.

Lemma mouse_down_model tid blocked button x y ref st :
  model_inv st →
  let down := handleTableMouseDown tid blocked button x y ref st in
  model_inv (settle down.2) ∧ tables (settle down.2) = tables st.
Proof.
  intros Hinv. cbv zeta. unfold handleTableMouseDown, startTableDrag.
  destruct blocked; [by apply frame_model_same|].
  case_decide; [by apply frame_model_same|].
  destruct (find _ (tables st)); by apply frame_model_same.
Qed.

Section InterfaceProofs.
Variable num_add : number → number → number.
Variable num_sub : number → number → number.
Variable trim : string → string.
Variable toLowerCase : string → string.

Local Abbreviation step_of := (ui_step num_add num_sub trim toLowerCase).
Local Abbreviation run_of := (ui_run num_add num_sub trim toLowerCase).
Local Abbreviation enabled_of := (ui_enabled_run num_add num_sub trim toLowerCase).

Lemma mouse_move_model x y ref st :
  model_inv st →
  let st1 := handleGlobalMouseMove num_add num_sub x y ref st in
  model_inv (settle st1)
  ∧ table_id <$> tables (settle st1) = table_id <$> tables st.
Proof.
  intros Hinv. cbv zeta. destruct ref as [d|]; cbn [handleGlobalMouseMove].
  2:{ destruct (frame_model_same st st Hinv) as [? ->]; done. }
  split.
  - apply model_inv_settle, model_inv_tables; [done|]. apply moved_to_frame.
  - destruct (settle_frame (setTables (moved_to (drag_tableId d)
        (num_add (originX d) (num_sub x (pointerX d)))
        (num_add (originY d) (num_sub y (pointerY d))) (tables st)) st))
      as (_ & Ht & _).
    unfold moved_to in *. rewrite Ht. simpl.
    rewrite <-list_fmap_compose. apply list_fmap_ext.
    intros i t _. simpl. by case_decide.
Qed.

(** One event. *)
Lemma ui_step_inv ev s :
  ui_inv s → ui_enabled s ev →
  ∃ s', step_of ev s = Some s' ∧ ui_inv s'.
Proof.
  intros [Hinv Hfree] Hen. destruct s as [ref st]. simpl in *.
  assert (∀ ref' st', model_inv (settle st') →
                      (∀ tid, tid ∈ table_id <$> tables (settle st') →
                              tid ∈ table_id <$> tables st) →
                      ui_inv (mkUi ref' (settle st'))) as Hsub.
  { intros ref' st' Hm Hids. split; [done|]. simpl. intros tid Htid.
    by apply Hfree, Hids. }
  assert (∀ ref' st', model_inv (settle st') ∧ tables (settle st') = tables st →
                      ui_inv (mkUi ref' (settle st'))) as Hsame.
  { intros ref' st' [Hm Ht]. apply Hsub; [done|]. by rewrite Ht. }
  assert (ui_inv (mkUi ref (settle st))) as Hstay.
  { by apply Hsame, frame_model_same. }
  unfold ui_step, ui_handle. cbn [ui_dragging ui_app].
  destruct ev as [table i event|key|dt target|now|table| |o|v| |raw
                 |table blocked button x y|x y| ];
    cbn [ui_enabled ui_app] in Hen;
    cbn [fmap option_fmap option_map ui_dragging ui_app].
  - eexists. split; [done|]. cbn [fmap option_fmap option_map ui_dragging ui_app]. by apply Hsame, click_model.
  - eexists. split; [done|]. cbn [fmap option_fmap option_map ui_dragging ui_app]. by apply Hsame, keydown_model.
  - destruct Hen as [Hdrag Htarget].
    destruct (drop_model target dt st Hinv Hdrag Htarget) as (st' & -> & Hm).
    eexists. split; [done|]. cbn [fmap option_fmap option_map ui_dragging ui_app]. by apply Hsame.
  - eexists. split; [done|]. cbn [fmap option_fmap option_map ui_dragging ui_app]. split; [by apply add_table_model|]. cbn [ui_app].
    destruct (settle_frame (handleAddTable now st)) as (_ & -> & _).
    unfold handleAddTable, setAssignments, setTables. cbn [tables table_id].
    rewrite fmap_app. intros tid [?| ->%list_elem_of_singleton]%elem_of_app.
    + by apply Hfree.
    + apply added_id_colon_free.
  - eexists. split; [done|]. cbn [fmap option_fmap option_map ui_dragging ui_app]. by apply Hsame, frame_model_same.
  - eexists. split; [done|]. cbn [fmap option_fmap option_map ui_dragging ui_app]. by apply Hsame, frame_model_same.
  - destruct (activeTable st) as [table|]; [|eexists; split; [done|]; apply Hstay].
    destruct (resize_model (table_id table) (Fin (inject_Z o)) st Hinv)
      as (st' & n & -> & _ & _ & Hm & _ & Hids & _); [done|].
    eexists. split; [done|]. cbn [fmap option_fmap option_map ui_dragging ui_app]. apply Hsub; [done|]. by rewrite Hids.
  - destruct (activeTable st) as [table|]; [|eexists; split; [done|]; apply Hstay].
    destruct (resize_model (table_id table) (or_one v) st Hinv (or_one_not_NaN v))
      as (st' & n & -> & _ & _ & Hm & _ & Hids & _).
    eexists. split; [done|]. cbn [fmap option_fmap option_map ui_dragging ui_app]. apply Hsub; [done|]. by rewrite Hids.
  - destruct (activeTable st) as [table|]; [|eexists; split; [done|]; apply Hstay].
    eexists. split; [done|]. cbn [fmap option_fmap option_map ui_dragging ui_app]. apply Hsub.
    + apply remove_table_model; [done|]. by apply colon_free_no_nested.
    + destruct (settle_frame (handleRemoveTable (table_id table) st))
        as (_ & -> & _).
      destruct (handleRemoveTable_spec (table_id table) st) as (_ & -> & _).
      intros tid (t & -> & [_ Ht]%list_elem_of_filter)%list_elem_of_fmap.
      apply list_elem_of_fmap. by exists t.
  - destruct (guest_import_model trim toLowerCase raw st Hinv)
      as (st' & -> & Hm & Ht).
    eexists. split; [done|]. cbn [fmap option_fmap option_map ui_dragging ui_app]. apply Hsub; [by apply model_inv_settle|].
    destruct (settle_frame st') as (_ & -> & _). by rewrite Ht.
  - eexists. split; [done|]. cbn [fmap option_fmap option_map ui_dragging ui_app]. by apply Hsame, mouse_down_model.
  - eexists. split; [done|]. cbn [fmap option_fmap option_map ui_dragging ui_app].
    destruct (mouse_move_model x y ref st Hinv) as [Hm Hids].
    apply Hsub; [done|]. by rewrite Hids.
  - eexists. split; [done|]. cbn [fmap option_fmap option_map ui_dragging ui_app]. apply Hstay.
Qed.

End InterfaceProofs.

(** The sample session: its events can happen one after the other. *)
Ltac ui_next :=
  cbn [ui_enabled_run]; split;
  [cbn [ui_enabled ui_app]
  |match goal with
   | |- context [ui_step ?a ?b ?c ?d ?ev ?s] =>
       let r := eval vm_compute in (ui_step a b c d ev s) in
       change (ui_step a b c d ev s) with r; cbv iota beta
   end].

Ltac ui_elem := apply (bool_decide_unpack _); by vm_compute.

Lemma sample_events_enabled :
  ui_enabled_run exact_add exact_sub ascii_trim ascii_toLowerCase
                 sample_events (mkUi None state_four_seated).
Proof.
  unfold sample_events.
  let r := eval vm_compute in state_four_seated in
  change state_four_seated with r.
  ui_next.
  { split; [by left|]. exists table_one, 8%Z. split_and!; [by left|done..]. }
  ui_next; [done|].
  ui_next.
  { split.
    - left. by exists table_one, 1%Z.
    - exists table_two, 8%Z. split_and!; [by right; left|done..]. }
  ui_next.
  { split; [right; by exists "guest-5"|ui_elem]. }
  ui_next; [ui_elem|].
  ui_next; [by left|].
  ui_next; [ui_elem|].
  ui_next; [by left|].
  ui_next; [done|].
  ui_next; [by left|].
  ui_next; [done|].
  ui_next; [done|].
  ui_next; [by left|].
  ui_next; [done|].
  ui_next; [done|].
  done.
Qed.

Lemma state_four_seated_ui : ui_inv (mkUi None state_four_seated).
Proof.
  split; [apply state_four_seated_inv|]. cbn [ui_app].
  change (tables state_four_seated) with DEFAULT_TABLES.
  intros tid Htid. unfold DEFAULT_TABLES in Htid. simpl in Htid.
  repeat (apply elem_of_cons in Htid as [->|Htid]; [done|]).
  by apply elem_of_nil in Htid.
Qed.

